(** * runn: runbook model, step synthesis, include delegation and
      source-position mapping (include.go and the runbook file that
      follows it in the same source unit).

    The development is a shallow embedding of the Go code.  Go maps
    with string keys are stdpp [gmap]s, slices are lists, Go's [int]
    is [Z], [error] values are their messages, and a Go run-time panic
    is an explicit outcome.  Everything the code calls but does not
    define (YAML lexer and parser, curl / grpcurl / access-log parsers,
    [fmt] verbs whose output depends on dynamic types, the execution
    engine behind [New] and [operator.Run]) is a field of a class of
    collaborators, so every statement holds for all their behaviours. *)

From stdpp Require Import gmap strings list fin_maps pretty.

#[local] Set Warnings "-register-all".
#[local] Open Scope Z_scope.

(* ================================================================= *)
(** ** Go run-time conventions *)

(** [error] values: only the message matters to the code below. *)
Definition error := string.

(** A Go call either returns or panics (nil-map write, index out of
    range, nil dereference). *)
Inductive outcome (A : Type) : Type :=
| Return (a : A)
| Panic (msg : string).
Arguments Return {A} a.
Arguments Panic {A} msg.

#[global] Instance outcome_ret : MRet outcome := @Return.
#[global] Instance outcome_bind : MBind outcome := fun A B f x =>
  match x with
  | Return a => f a
  | Panic msg => Panic msg
  end.

(** [s[i]] on a slice: panics outside [0, len(s)). *)
Definition index {A} (s : list A) (i : Z) : outcome A :=
  if decide (0 ≤ i) then
    match s !! Z.to_nat i with
    | Some x => Return x
    | None => Panic "index out of range"
    end
  else Panic "index out of range".

(** [len(s)] as a Go [int]. *)
Definition len {A} (s : list A) : Z := Z.of_nat (length s).

(** [strconv.Itoa] and the [%d] verb: decimal digits, a leading minus
    sign for negatives. *)
Definition Itoa (n : Z) : string := pretty n.

(** Conversions between integer types, wrap-around written out. *)
Definition int64 (n : Z) : Z := (n + 2 ^ 63) `mod` 2 ^ 64 - 2 ^ 63.
Definition uint64 (n : Z) : Z := n `mod` 2 ^ 64.

(** The range of Go's [int] on the 64-bit platforms runn is built for. *)
Definition int_range (n : Z) : Prop := - 2 ^ 63 ≤ n < 2 ^ 63.

(** [strings.HasPrefix]. *)
Definition HasPrefix (s p : string) : bool := String.prefix p s.

(* ================================================================= *)
(** ** Dynamically typed values ([any]) *)

(** The dynamic types that the type switch of [normalize] tells apart,
    plus the scalars YAML decoding produces.  [VMapAny] lists the
    entries of a [map[any]any] in the order the [range] loop of this
    call visits them; [VMapSlice] is [yaml.MapSlice], an ordered list
    of [MapItem{Key, Value}].  [VTyped] stands for a value of any other
    dynamic type (sized integers, [[]string], [map[string]string],
    structs ...): its type name and an opaque payload. *)
Inductive value : Type :=
| VNil
| VBool (b : bool)
| VInt (n : Z)
| VInt64 (n : Z)
| VUint64 (n : Z)
| VFloat64 (bits : Z)
| VString (s : string)
| VError (msg : string)
| VSlice (l : list value)
| VMapAny (kvs : list (value * value))
| VMap (m : gmap string value)
| VSliceMap (l : list (gmap string value))
| VMapSlice (items : list (value * value))
| VTyped (ty : string) (payload : list value).

(** [x == nil] on an interface value. *)
Definition is_nil (x : value) : bool :=
  match x with
  | VNil => true
  | _ => false
  end.

(** The [fmt] verbs used on dynamically typed operands. *)
Class Fmt := {
  (** [fmt.Sprintf("%v", x)] *)
  Sprintf_v : value → string;
  (** [fmt.Sprintf("%#v", s)] on a string: Go-syntax quoting *)
  Sprintf_sharp_v : string → string
}.

Section normalize.
Context `{!Fmt}.

(** [res[fmt.Sprintf("%v", k)] = normalize(vv)] for the entries in
    loop order: a later entry overwrites an earlier one whose key
    prints the same. *)
Definition assign_all (norm : value → value) (kvs : list (value * value))
    : gmap string value :=
  foldl (fun res kv => <[Sprintf_v kv.1 := norm kv.2]> res) ∅ kvs.

(** The comma-ok assertion [x.(map[string]any)]. *)
Definition as_map (x : value) : option (gmap string value) :=
  match x with
  | VMap m => Some m
  | _ => None
  end.

(** The [[]map[string]any] case: fill [res] element by element and
    return an error value at the first element that does not
    normalize to a map.  [norm_elem vv] is [normalize(vv)]. *)
Fixpoint normalize_maps (norm_elem : gmap string value → value)
    (v : list (gmap string value)) (res : list (gmap string value)) : value :=
  match v with
  | [] => VSliceMap (reverse res)
  | vv :: rest =>
      match as_map (norm_elem vv) with
      | Some m => normalize_maps norm_elem rest (m :: res)
      | None => VError ("failed to normalize: " +:+ Sprintf_v (VMap vv))
      end
  end.

(** [normalize]: one case per arm of the type switch, in order. *)
Fixpoint normalize (v : value) : value :=
  match v with
  | VSlice l => VSlice (normalize <$> l)
  | VMapAny kvs => VMap (assign_all normalize kvs)
  | VMap m => VMap (normalize <$> m)
  | VSliceMap l =>
      (* the recursive call on an element, itself a map[string]any,
         is the [VMap] arm above *)
      normalize_maps (fun vv => VMap (normalize <$> vv)) l []
  | VMapSlice items => VMap (assign_all normalize items)
  | VInt n => if decide (n < 0) then VInt64 (int64 n) else VUint64 (uint64 n)
  | _ => v
  end.
End normalize.

(* ================================================================= *)
(** ** Strings *)

Definition LF : string := String (Ascii.ascii_of_nat 10) "".

(** [strings.HasSuffix], [strings.TrimSuffix], [strings.Contains],
    [strings.Join]. *)
Definition HasSuffix (s suffix : string) : bool :=
  String.prefix (String.rev suffix) (String.rev s).

Definition TrimSuffix (s suffix : string) : string :=
  if HasSuffix s suffix
  then String.substring 0 (String.length s - String.length suffix) s
  else s.

Definition Contains (s substr : string) : bool :=
  bool_decide (is_Some (String.index 0 substr s)).

Definition Join (elems : list string) (sep : string) : string :=
  String.concat sep elems.

(** The order in which a [range] loop visits a map is not specified by
    Go; the only guarantee is that every entry is visited once. *)
Class MapOrder := {
  range : ∀ {A}, gmap string A → list (string * A);
  range_perm : ∀ A (m : gmap string A), range m ≡ₚ map_to_list m
}.

(* ================================================================= *)
(** ** The runbook model *)

(** [yaml.MapSlice]: the items as (Key, Value) pairs. *)
Abbreviation MapSlice := (list (value * value)).

(** [runbook].  A map field is [None] when the Go map is nil (reads see
    no entry, a write panics); [Loop] is nil when it is [VNil]. *)
Record runbook := mkRunbook {
  Desc : string;
  Runners : option (gmap string value);
  Vars : option (gmap string value);
  Steps : list MapSlice;
  Debug : bool;
  Interval : string;
  If : string;
  SkipTest : bool;
  Loop : value;
  Concurrency : string;
  Force : bool;
  useMap : bool;
  stepKeys : list string
}.

Record runbookMapped := mkRunbookMapped {
  mDesc : string;
  mRunners : option (gmap string value);
  mVars : option (gmap string value);
  mSteps : MapSlice;
  mDebug : bool;
  mInterval : string;
  mIf : string;
  mSkipTest : bool;
  mLoop : value;
  mConcurrency : string;
  mForce : bool
}.

Definition set_Runners (r : option (gmap string value)) (rb : runbook) : runbook :=
  mkRunbook (Desc rb) r (Vars rb) (Steps rb) (Debug rb) (Interval rb) (If rb)
    (SkipTest rb) (Loop rb) (Concurrency rb) (Force rb) (useMap rb) (stepKeys rb).

Definition set_Steps (s : list MapSlice) (rb : runbook) : runbook :=
  mkRunbook (Desc rb) (Runners rb) (Vars rb) s (Debug rb) (Interval rb) (If rb)
    (SkipTest rb) (Loop rb) (Concurrency rb) (Force rb) (useMap rb) (stepKeys rb).

Definition set_stepKeys (k : list string) (rb : runbook) : runbook :=
  mkRunbook (Desc rb) (Runners rb) (Vars rb) (Steps rb) (Debug rb) (Interval rb)
    (If rb) (SkipTest rb) (Loop rb) (Concurrency rb) (Force rb) (useMap rb) k.

(** The entries a read of a possibly nil map sees. *)
Definition entries (m : option (gmap string value)) : gmap string value :=
  default ∅ m.

Definition NewRunbook (desc : string) : runbook :=
  let defaultDesc := "Generated by `runn new`" in
  let desc := if decide (desc = "") then defaultDesc else desc in
  mkRunbook desc (Some ∅) (Some ∅) [] false "" "" false VNil "" false false [].

(** Methods of [*runbook] read and update the receiver and may panic. *)
Definition M (A : Type) : Type := runbook → outcome (A * runbook).

#[global] Instance M_ret : MRet M := fun A a rb => Return (a, rb).
#[global] Instance M_bind : MBind M := fun A B f m rb =>
  match m rb with
  | Return (a, rb') => f a rb'
  | Panic msg => Panic msg
  end.

Definition get : M runbook := fun rb => Return (rb, rb).
Definition modify (f : runbook → runbook) : M unit := fun rb => Return (tt, f rb).
(** Run a computation that does not touch the receiver. *)
Definition lift {A} (x : outcome A) : M A := fun rb =>
  match x with
  | Return a => Return (a, rb)
  | Panic msg => Panic msg
  end.

(* ================================================================= *)
(** ** Parsing a keyed document *)

(** [yaml.Unmarshal] into the two document shapes.  The decoder fills
    the target in place, so decoding into a [runbook] hands back the
    target also when it reports an error. *)
Class YamlDecoder := {
  Unmarshal_runbook : string → runbook → option error * runbook;
  Unmarshal_mapped : string → error + runbookMapped
}.

(** [expand.ReplaceYAML(s, expand.InterpolateRepFn(os.LookupEnv))]:
    environment interpolation of a document. *)
Class Expand := {
  ReplaceYAML : string → error + string
}.

Section parse.
Context `{!Fmt, !YamlDecoder, !Expand}.

(** A [yaml.MapItem] handed to a [%v] verb. *)
Definition MapItem (s : value * value) : value :=
  VTyped "yaml.MapItem" [s.1; s.2].

(** The loop of [parseRunbookMapped] over [m.Steps]; [keys] is the
    set of keys seen so far. *)
Fixpoint parseMappedSteps (steps : MapSlice) (keys : gset string)
    (rb : runbook) : option error * runbook :=
  match steps with
  | [] => (None, rb)
  | s :: rest =>
      match s.1 with
      | VString k =>
          match s.2 with
          | VMapSlice v =>
              let rb := set_stepKeys (stepKeys rb ++ [k]) rb in
              let rb := set_Steps (Steps rb ++ [v]) rb in
              if decide (k ∈ keys)
              then (Some ("duplicate step keys: " +:+ k), rb)
              else parseMappedSteps rest ({[k]} ∪ keys) rb
          | _ =>
              (Some ("failed to parse as mapped steps: "
                     +:+ Sprintf_v (MapItem s)), rb)
          end
      | _ =>
          (Some ("failed to parse as mapped steps: "
                 +:+ Sprintf_v (MapItem s)), rb)
      end
  end.

Definition parseRunbookMapped (b : string) (rb : runbook)
    : option error * runbook :=
  match Unmarshal_mapped b with
  | inl err => (Some err, rb)
  | inr m =>
      let rb :=
        mkRunbook (mDesc m) (mRunners m) (mVars m) (Steps rb) (mDebug m)
          (mInterval m) (mIf m) (mSkipTest m) (Loop rb) (Concurrency rb)
          (mForce m) true (stepKeys rb) in
      parseMappedSteps (mSteps m) ∅ rb
  end.

(** [parseRunbook]: [inl] is the [(nil, err)] return. *)
Definition parseRunbook (b : string) : error + runbook :=
  let rb := NewRunbook "" in
  match ReplaceYAML b with
  | inl err => inl err
  | inr rep =>
      match Unmarshal_runbook rep rb with
      | (None, rb) => inr rb
      | (Some _, rb) =>
          match parseRunbookMapped rep rb with
          | (Some err, _) => inl err
          | (None, rb) => inr rb
          end
      end
  end.
End parse.

(* ================================================================= *)
(** ** Runner keys *)

Definition httpRunnerKeyPrefix : string := "req".
Definition grpcRunnerKeyPrefix : string := "greq".
Definition dbRunnerKeyPrefix : string := "db".

(** The three counters [hc], [gc], [dc] of [setRunner]. *)
Record counters := mkCounters { hc : Z; gc : Z; dc : Z }.

(** One iteration of the counting [switch]. *)
Definition count_one (vv : string) (c : counters) : counters :=
  if HasPrefix vv "http" then mkCounters (hc c + 1) (gc c) (dc c)
  else if HasPrefix vv "grpc" then mkCounters (hc c) (gc c + 1) (dc c)
  else mkCounters (hc c) (gc c) (dc c + 1).

(** The [range rb.Runners] loop of [setRunner] over the entries in the
    order they are visited: [inl k] is the early [return k]. *)
Fixpoint scanRunners (dsn : string) (kvs : list (string * value))
    (c : counters) : string + counters :=
  match kvs with
  | [] => inr c
  | (k, v) :: rest =>
      match v with
      | VString vv =>
          if decide (vv = dsn) then inl k
          else scanRunners dsn rest (count_one vv c)
      | _ => scanRunners dsn rest c
      end
  end.

(** The second [switch] of [setRunner]. *)
Definition newRunnerKey (dsn : string) (c : counters) : string :=
  if HasPrefix dsn "http" then
    if decide (hc c > 0) then httpRunnerKeyPrefix +:+ Itoa (hc c + 1)
    else httpRunnerKeyPrefix
  else if HasPrefix dsn "grpc" then
    if decide (gc c > 0) then grpcRunnerKeyPrefix +:+ Itoa (gc c + 1)
    else grpcRunnerKeyPrefix
  else
    if decide (dc c > 0) then dbRunnerKeyPrefix +:+ Itoa (dc c + 1)
    else dbRunnerKeyPrefix.

Section setRunner.
Context `{!MapOrder}.

Definition setRunner (dsn : string) : M string := fun rb =>
  match scanRunners dsn (range (entries (Runners rb))) (mkCounters 0 0 0) with
  | inl k => Return (k, rb)
  | inr c =>
      let key := newRunnerKey dsn c in
      match Runners rb with
      | Some m => Return (key, set_Runners (Some (<[key := VString dsn]> m)) rb)
      | None => Panic "assignment to entry in nil map"
      end
  end.
End setRunner.

(* ================================================================= *)
(** ** Synthesising steps from captured commands *)

(** [*http.Request], as far as the code looks into it. *)
Record Request := mkRequest {
  reqMethod : string;
  URL_String : string;
  URL_Host : string;
  Header : gmap string (list string)
}.

(** [http.Header.Add]. *)
Definition Header_Add (key val : string) (req : Request) : Request :=
  mkRequest (reqMethod req) (URL_String req) (URL_Host req)
    (<[key := default [] (Header req !! key) ++ [val]]> (Header req)).

(** [grpcurlreq.Parsed]; [Headers] is a [metadata.MD]. *)
Record Parsed := mkParsed {
  Addr : string;
  Method : string;
  SubCmd : string;
  Headers : gmap string (list string);
  Messages : list value
}.

(** [axslogparser.Log], the fields read here. *)
Record Log := mkLog {
  logMethod : string;
  RequestURI : string;
  UserAgent : string
}.

(** The parsers of captured commands, [strings.Split], and
    [CreateHTTPStepMapSlice], which lives in another file of the
    package. *)
Class Capture := {
  curlreq_NewRequest : list string → error + Request;
  grpcurlreq_Parse : list string → error + Parsed;
  axslogparser_GuessParser : string → error + Log;
  http_NewRequest : string → string → error + Request;
  CreateHTTPStepMapSlice : string → Request → error + MapSlice;
  strings_Split : string → string → list string
}.

(** Modelled from the spec: the constant [execRunnerKey] is declared
    with the exec runner, outside this file; the spec gives the step of
    a shell capture as [{exec: {command: <string>}}]. *)
Definition execRunnerKey : string := "exec".

Section AppendStep.
Context `{!Fmt, !MapOrder, !Capture}.

Definition appendStep (step : MapSlice) : M unit :=
  modify (fun rb => set_Steps (Steps rb ++ [step]) rb).

Definition curlToStep (in_ : list string) : M (option error) :=
  match curlreq_NewRequest in_ with
  | inl err => mret (Some err)
  | inr req =>
      splitted0 ← lift (index (strings_Split (URL_String req) (URL_Host req)) 0);
      let dsn := splitted0 +:+ URL_Host req in
      key ← setRunner dsn;
      match CreateHTTPStepMapSlice key req with
      | inl err => mret (Some err)
      | inr step => appendStep step;; mret None
      end
  end.

(** [for k, v := range p.Headers { h[k] = v[0] }] *)
Fixpoint firstHeaders (kvs : list (string * list string))
    (h : gmap string string) : outcome (gmap string string) :=
  match kvs with
  | [] => Return h
  | (k, v) :: rest =>
      v0 ← index v 0;
      firstHeaders rest (<[k := v0]> h)
  end.

Definition grpcurlToStep (in_ : list string) : M (option error) :=
  match grpcurlreq_Parse in_ with
  | inl err => mret (Some err)
  | inr p =>
      if decide (Addr p = "" ∨ Method p = "" ∨ SubCmd p ≠ "") then
        mret (Some ("unsupported grpcurl command: "
                    +:+ Sprintf_v (VTyped "[]string" (VString <$> in_ : list value))))
      else
        let dsn := "grpc://" +:+ Addr p in
        key ← setRunner dsn;
        h ← lift (firstHeaders (range (Headers p)) ∅);
        let hm : MapSlice := [] in
        let hm : MapSlice :=
          if decide (0 < size h)%nat
          then hm ++ [(VString "headers",
                       VTyped "map[string]string"
                         [VMap (VString <$> h : gmap string value)])]
          else hm in
        let hm : MapSlice :=
          match Messages p with
          | [] => hm
          | [msg] => hm ++ [(VString "message", msg)]
          | msgs => hm ++ [(VString "messages", VSlice msgs)]
          end in
        (* [hm = nil] when empty: a nil MapSlice has no items either *)
        let step : MapSlice :=
          [(VString key, VMapSlice [(VString (Method p), VMapSlice hm)])] in
        appendStep step;; mret None
  end.

Definition axsLogToStep (in_ : list string) : M (option error) :=
  let dummyDSN := "https://dummy.example.com" in
  let line := Join in_ " " in
  match axslogparser_GuessParser line with
  | inl err => mret (Some err)
  | inr l =>
      let dsn := dummyDSN in
      key ← setRunner dsn;
      match http_NewRequest (logMethod l) (RequestURI l) with
      | inl err => mret (Some err)
      | inr req =>
          let req :=
            if decide (UserAgent l ≠ "")
            then Header_Add "User-Agent" (UserAgent l) req else req in
          match CreateHTTPStepMapSlice key req with
          | inl err => mret (Some err)
          | inr step => appendStep step;; mret None
          end
      end
  end.

Definition joinCommands (in_ : list string) : string :=
  let cmd :=
    foldl (fun cmd i =>
      let i := TrimSuffix i LF in
      if Contains i " " then cmd ++ [Sprintf_sharp_v i] else cmd ++ [i])
      [] in_ in
  Join cmd " " +:+ LF.

Definition cmdToStep (in_ : list string) : M (option error) :=
  let step : MapSlice :=
    [(VString execRunnerKey,
      VMapSlice [(VString "command", VString (joinCommands in_))])] in
  appendStep step;; mret None.

Definition AppendStep (in_ : list string) : M (option error) :=
  match in_ with
  | [] => mret (Some "no argument")
  | in0 :: _ =>
      rb ← get;
      (if useMap rb then
         let key := in0 +:+ Itoa (len (stepKeys rb)) in
         modify (fun rb => set_stepKeys (stepKeys rb ++ [key]) rb)
       else mret tt);;
      if HasPrefix in0 "curl" then curlToStep in_
      else if HasPrefix in0 "grpcurl" then grpcurlToStep in_
      else if decide (len in_ = 1) then
        err ← axsLogToStep in_;
        match err with
        | None => mret None
        | Some _ => cmdToStep in_
        end
      else cmdToStep in_
  end.

(** [MarshalYAML]: [inr (inl rb)] returns the receiver itself (not
    keyed), [inr (inr m)] the keyed shape. *)
Definition MarshalYAML (rb : runbook) : error + (runbook + runbookMapped) :=
  if negb (useMap rb) then inr (inl rb)
  else if decide (len (stepKeys rb) ≠ len (Steps rb)) then inl "invalid runbook"
  else
    let ms : MapSlice :=
      imap (fun i k => (VString k, VMapSlice (default [] (Steps rb !! i))))
        (stepKeys rb) in
    inr (inr (mkRunbookMapped (Desc rb) (Runners rb) (Vars rb) ms (Debug rb)
                (Interval rb) (If rb) (SkipTest rb) VNil "" (Force rb))).
End AppendStep.

(* ================================================================= *)
(** ** Compiling a runbook into a book *)

(** The fields of [book] that [toBook] assigns; [loop] is [None] for a
    nil [*Loop]. *)
Record book {Loop_t : Type} := mkBook {
  desc : string;
  runners : gmap string value;
  vars : gmap string value;
  rawSteps : list (gmap string value);
  debug : bool;
  intervalStr : string;
  ifCond : string;
  skipTest : bool;
  force : bool;
  loop : option Loop_t;
  concurrency : string;
  bk_useMap : bool;
  bk_stepKeys : list string
}.
Arguments book : clear implicits.
Arguments mkBook {Loop_t}.

(** [newLoop], defined with the step-execution driver. *)
Class LoopParser := {
  Loop_t : Type;
  newLoop : value → error + Loop_t
}.

Section toBook.
Context `{!Fmt, !LoopParser}.

(** The [for _, s := range rb.Steps] loop, [rawSteps] being the
    slice appended to (empty in a book fresh from [newBook]). *)
Fixpoint normalizeSteps (steps : list MapSlice)
    (rawSteps : list (gmap string value)) : error + list (gmap string value) :=
  match steps with
  | [] => inr rawSteps
  | s :: rest =>
      match as_map (normalize (VMapSlice s)) with
      | Some v => normalizeSteps rest (rawSteps ++ [v])
      | None =>
          inl ("failed to normalize step values: " +:+ Sprintf_v (VMapSlice s))
      end
  end.

Definition toBook (rb : runbook) : error + book Loop_t :=
  match as_map (normalize (VMap (entries (Runners rb)))) with
  | None =>
      inl ("failed to normalize runners: "
           +:+ Sprintf_v (VMap (entries (Runners rb))))
  | Some bk_runners =>
      match as_map (normalize (VMap (entries (Vars rb)))) with
      | None =>
          inl ("failed to normalize vars: "
               +:+ Sprintf_v (VMap (entries (Vars rb))))
      | Some bk_vars =>
          match normalizeSteps (Steps rb) [] with
          | inl err => inl err
          | inr bk_rawSteps =>
              let finish (l : option Loop_t) :=
                mkBook (Desc rb) bk_runners bk_vars bk_rawSteps (Debug rb)
                  (Interval rb) (If rb) (SkipTest rb) (Force rb) l
                  (Concurrency rb) (useMap rb) (stepKeys rb) in
              if negb (is_nil (Loop rb)) then
                match newLoop (Loop rb) with
                | inl err => inl err
                | inr l => inr (finish (Some l))
                end
              else inr (finish None)
          end
      end
  end.
End toBook.

(* ================================================================= *)
(** ** Source positions *)

Record area := mkArea { Start : Z; End : Z }.

Record areas := mkAreas {
  aDesc : option area;
  aRunners : option area;
  aVars : option area;
  aSteps : list area
}.

(** [token.Token]: its text, [Position.Line], [Position.Column], the
    [Prev] pointer ([None] at the first token of the stream) and
    whether [Next] is non-nil. *)
Inductive Token : Type :=
| mkToken (Value : string) (Line Column : Z) (Prev : option Token) (hasNext : bool).

Definition tkValue (t : Token) : string := let 'mkToken v _ _ _ _ := t in v.
Definition tkLine (t : Token) : Z := let 'mkToken _ l _ _ _ := t in l.
Definition tkColumn (t : Token) : Z := let 'mkToken _ _ c _ _ := t in c.
Definition tkPrev (t : Token) : option Token := let 'mkToken _ _ _ p _ := t in p.
Definition tkHasNext (t : Token) : bool := let 'mkToken _ _ _ _ n := t in n.

(** [ast.Node]: the node kinds the code inspects; every other kind is
    an [OtherNode] with the children [ast.Walk] descends into.  An
    entry of [MappingNode.Values] is a [*MappingValueNode], given by
    its token, key and value. *)
Inductive Node : Type :=
| StringNode (tk : Token) (Value : string)
| MappingNode (tk : Token) (Values : list (Token * Node * Node))
| MappingValueNode (tk : Token) (Key Value : Node)
| SequenceNode (tk : Token) (Values : list Node)
| OtherNode (tk : Token) (children : list Node).

Definition GetToken (n : Node) : Token :=
  match n with
  | StringNode tk _ | MappingNode tk _ | MappingValueNode tk _ _
  | SequenceNode tk _ | OtherNode tk _ => tk
  end.

(** [ast.File] and [ast.DocumentNode]. *)
Record DocumentNode := mkDocument { Body : option Node }.
Record File := mkFile { Docs : list DocumentNode }.

(** [lexer.Tokenize] followed by [parser.Parse(tokens, 0)]. *)
Class YamlParser := {
  Parse : string → error + File
}.

(** The terminal colour wrapper of the package. *)
Class Colors := {
  yellow : string → string
}.

(** [ast.Walk]: the nodes in the order [Visit] is called on them. *)
Fixpoint Walk (n : Node) : list Node :=
  n ::
  match n with
  | StringNode _ _ => []
  | MappingNode _ values =>
      flat_map (fun '(tk, k, v) => MappingValueNode tk k v :: Walk k ++ Walk v)
        values
  | MappingValueNode _ k v => Walk k ++ Walk v
  | SequenceNode _ values => flat_map Walk values
  | OtherNode _ children => flat_map Walk children
  end.

Record areaDetector := mkDetector {
  d_start : option Token;
  d_end : option Token
}.

(** [areaDetector.Visit]. *)
Definition Visit (d : areaDetector) (node : Node) : areaDetector :=
  let tk := GetToken node in
  let start := default tk (d_start d) in
  let end_ := default tk (d_end d) in
  let start :=
    if bool_decide (tkLine start > tkLine tk
                    ∨ (tkLine start = tkLine tk ∧ tkColumn start > tkColumn tk))
    then tk else start in
  let end_ :=
    if bool_decide (tkLine end_ < tkLine tk
                    ∨ (tkLine end_ = tkLine tk ∧ tkColumn end_ < tkColumn tk))
    then tk else end_ in
  mkDetector (Some start) (Some end_).

(** [strings.Count(s, "\n")]. *)
Fixpoint CountLF (s : string) : Z :=
  match s with
  | EmptyString => 0
  | String c s' => (if decide (c = Ascii.ascii_of_nat 10) then 1 else 0) + CountLF s'
  end.

(** Dereferencing a pointer that may be nil. *)
Definition deref {A} (p : option A) : outcome A :=
  match p with
  | Some x => Return x
  | None => Panic "nil pointer dereference"
  end.

Definition detectAreaFromNode (node : Node) : outcome area :=
  let d := foldl Visit (mkDetector None None) (Walk node) in
  start ← deref (d_start d);
  end_ ← deref (d_end d);
  let a := mkArea (tkLine start) (tkLine end_) in
  if bool_decide (CountLF (tkValue end_) - 1 > 0) && tkHasNext end_
  then mret (mkArea (Start a) (End a + (CountLF (tkValue end_) - 1)))
  else mret a.

(** The search for the [-] token: [for { if t.Value == "-" {...; break};
    t = t.Prev }].  Running off the head of the stream dereferences nil. *)
Fixpoint findSequenceEntry (t : Token) : outcome Z :=
  let 'mkToken v line _ prev _ := t in
  if decide (v = "-") then Return line
  else
    match prev with
    | Some t' => findSequenceEntry t'
    | None => Panic "nil pointer dereference"
    end.

Definition set_aSteps (s : list area) (a : areas) : areas :=
  mkAreas (aDesc a) (aRunners a) (aVars a) s.

(** The two loops over the values of the [steps] section. *)
Fixpoint mappedStepAreas (values : list (Token * Node * Node)) (a : areas)
    : outcome areas :=
  match values with
  | [] => Return a
  | (tk, k, v) :: rest =>
      ar ← detectAreaFromNode (MappingValueNode tk k v);
      mappedStepAreas rest (set_aSteps (aSteps a ++ [ar]) a)
  end.

Fixpoint listedStepAreas (values : list Node) (a : areas) : outcome areas :=
  match values with
  | [] => Return a
  | v :: rest =>
      aa ← detectAreaFromNode v;
      line ← findSequenceEntry (GetToken v);
      let aa := mkArea line (End aa) in
      listedStepAreas rest (set_aSteps (aSteps a ++ [aa]) a)
  end.

(** The loop over the top-level sections. *)
Fixpoint sectionAreas (sections : list (Token * Node * Node)) (a : areas)
    : outcome areas :=
  match sections with
  | [] => Return a
  | (tk, key, val) :: rest =>
      match key with
      | StringNode _ keyValue =>
          a ←
            (if decide (keyValue = "desc") then
               ar ← detectAreaFromNode (MappingValueNode tk key val);
               mret (mkAreas (Some ar) (aRunners a) (aVars a) (aSteps a))
             else if decide (keyValue = "vars") then
               ar ← detectAreaFromNode (MappingValueNode tk key val);
               mret (mkAreas (aDesc a) (aRunners a) (Some ar) (aSteps a))
             else if decide (keyValue = "runners") then
               ar ← detectAreaFromNode (MappingValueNode tk key val);
               mret (mkAreas (aDesc a) (Some ar) (aVars a) (aSteps a))
             else if decide (keyValue = "steps") then
               match val with
               | MappingNode _ values => mappedStepAreas values a
               | SequenceNode _ values => listedStepAreas values a
               | _ => mret a
               end
             else mret a);
          sectionAreas rest a
      | _ => Return a
      end
  end.

Definition no_areas : areas := mkAreas None None None [].

Section areas.
Context `{!YamlParser}.

Definition detectRunbookAreas (in_ : string) : outcome areas :=
  let a := no_areas in
  match Parse in_ with
  | inl _ => Return a
  | inr parsed =>
      doc ← index (Docs parsed) 0;
      match Body doc with
      | Some (MappingNode _ sections) => sectionAreas sections a
      | _ => Return a
      end
  end.
End areas.

(** [strings.Split(s, "\n")]; [cur] is the line being read. *)
Fixpoint SplitLF (s : string) (cur : string) : list string :=
  match s with
  | EmptyString => [cur]
  | String c s' =>
      if decide (c = Ascii.ascii_of_nat 10) then cur :: SplitLF s' ""
      else SplitLF s' (cur +:+ String c "")
  end.

(** [fmt.Sprintf("%<w>d", i)]: decimal, padded with spaces on the left
    to width [w]. *)
Definition Sprintf_wd (w i : Z) : string :=
  let digits := Itoa i in
  String.concat "" (replicate (Z.to_nat w - String.length digits) " ") +:+ digits.

Section pickStepYAML.
Context `{!YamlParser, !Expand, !Colors}.

(** The loop [for i := start; i <= end; i++] over its values of [i]. *)
Fixpoint pickLines (w : Z) (lines : list string) (range_i : list Z)
    (picked : list string) : outcome (list string) :=
  match range_i with
  | [] => Return picked
  | i :: rest =>
      line ← index lines (i - 1);
      pickLines w lines rest (picked ++ [yellow (Sprintf_wd w i +:+ " ") +:+ line])
  end.

Definition pickStepYAML (in_ : string) (idx : Z) : outcome (error + string) :=
  match ReplaceYAML in_ with
  | inl err => Return (inl err)
  | inr rep =>
      a ← detectRunbookAreas rep;
      if decide (len (aSteps a) - 1 < idx) then
        Return (inl ("step not found: " +:+ Itoa idx))
      else
        step ← index (aSteps a) idx;
        let start := Start step in
        let end_ := End step in
        let lines := SplitLF rep "" in
        if decide (len lines < end_) then
          Return (inl ("line not found: " +:+ Itoa end_))
        else
          let w := Z.of_nat (String.length (Itoa end_)) in
          picked ← pickLines w lines (seqZ start (end_ - start + 1)) [];
          Return (inr (Join picked LF))
  end.
End pickStepYAML.

(* ================================================================= *)
(** ** Nested execution: the include runner *)

(** Addresses.  An [*operator] is known to runner instances by its
    address; runner instances ([*httpRunner], [*dbRunner]) live in a
    heap shared by parent and child, so that holding the same instance
    is holding the same address. *)
Definition opref := nat.
Definition runnerref := nat.

(** A runner instance: its [operator] back-pointer and the rest of
    its state (client, connection, ...), which this file never looks
    into. *)
Record runner := mkRunner {
  r_operator : opref;
  r_state : string
}.

Record heap := mkHeap {
  httpInstances : gmap runnerref runner;
  dbInstances : gmap runnerref runner
}.

Record store := mkStore {
  store_vars : gmap string value;
  store_steps : list (gmap string value)
}.

Record operator := mkOperator {
  op_addr : opref;
  root : string;
  op_debug : bool;
  op_t : option nat;
  thisT : option nat;
  op_store : store;
  httpRunners : gmap string runnerref;
  dbRunners : gmap string runnerref;
  op_included : bool
}.

Record includeConfig := mkIncludeConfig {
  path : string;
  cfg_vars : gmap string value
}.

(** The functional options handed to [New]. *)
Inductive Option : Type :=
| Book (path : string)
| included (included : bool)
| runnHTTPRunner (name : string) (r : runnerref)
| runnDBRunner (name : string) (r : runnerref)
| Var (k : string) (v : value)
| DebugOpt (debug : bool).

(** The execution engine: building an operator from options, running
    it to completion, and the snapshot of a store.  Both [New] and
    [operator.Run] work on the runner heap.  The engine reaches the
    parent through the options only: the runner instances it shares
    (by address, in the heap) and copies of the parent's values. *)
Class Engine := {
  New : list Option → heap → (error + operator) * heap;
  operator_Run : operator → heap → option error * operator * heap;
  store_toMap : store → gmap string value;
  filepath_Join : string → string → string
}.

(** Modelled from the spec: [operator.record] is defined with the
    operator, outside this file; the spec has it append its argument as
    a recorded result to the operator's store. *)
Definition record (v : gmap string value) (o : operator) : operator :=
  mkOperator (op_addr o) (root o) (op_debug o) (op_t o) (thisT o)
    (mkStore (store_vars (op_store o)) (store_steps (op_store o) ++ [v]))
    (httpRunners o) (dbRunners o) (op_included o).

(** [oo.store.vars[k] = v] *)
Definition set_var (k : string) (v : value) (o : operator) : operator :=
  mkOperator (op_addr o) (root o) (op_debug o) (op_t o) (thisT o)
    (mkStore (<[k := v]> (store_vars (op_store o))) (store_steps (op_store o)))
    (httpRunners o) (dbRunners o) (op_included o).

(** [r.operator = o] on the instance at address [r]. *)
Definition set_r_operator (o : opref) (r : runner) : runner :=
  mkRunner o (r_state r).

Definition rehome (o : opref) (rs : list (string * runnerref))
    (instances : gmap runnerref runner) : gmap runnerref runner :=
  foldl (fun inst kr => alter (set_r_operator o) kr.2 inst) instances rs.

Section include.
Context `{!MapOrder, !Engine}.

Definition nestedOptions (o : operator) (opts : list Option) : list Option :=
  let opts := opts ++ [included true] in
  let opts :=
    foldl (fun opts kr => opts ++ [runnHTTPRunner kr.1 kr.2]) opts
      (range (httpRunners o)) in
  let opts :=
    foldl (fun opts kr => opts ++ [runnDBRunner kr.1 kr.2]) opts
      (range (dbRunners o)) in
  let opts :=
    foldl (fun opts kv => opts ++ [Var kv.1 kv.2]) opts
      (range (store_vars (op_store o))) in
  let opts := opts ++ [Var "parent" (VSliceMap (store_steps (op_store o)))] in
  opts ++ [DebugOpt (op_debug o)].

Definition newNestedOperator (o : operator) (opts : list Option) (h : heap)
    : (error + operator) * heap :=
  match New (nestedOptions o opts) h with
  | (inl err, h) => (inl err, h)
  | (inr oo, h) =>
      (inr (mkOperator (op_addr oo) (root oo) (op_debug oo) (thisT o) (thisT o)
              (op_store oo) (httpRunners oo) (dbRunners oo) (op_included oo)),
       h)
  end.

(** The [// override vars] loop. *)
Definition overrideVars (c : includeConfig) (oo : operator) : operator :=
  foldl (fun oo kv => set_var kv.1 kv.2 oo) oo (range (cfg_vars c)).

(** [includeRunner.Run]; the receiver's [operator] field points to
    the parent [o], which is handed back with the effects of the call.
    The call of [thisT.Helper()] has no effect on the state. *)
Definition Run (o : operator) (c : includeConfig) (h : heap)
    : option error * operator * heap :=
  match newNestedOperator o [Book (filepath_Join (root o) (path c))] h with
  | (inl err, h) => (Some err, o, h)
  | (inr oo, h) =>
      let oo := overrideVars c oo in
      match operator_Run oo h with
      | (Some err, _, h) => (Some err, o, h)
      | (None, oo, h) =>
          let o := record (store_toMap (op_store oo)) o in
          let h :=
            mkHeap (rehome (op_addr o) (range (httpRunners oo)) (httpInstances h))
                   (dbInstances h) in
          let h :=
            mkHeap (httpInstances h)
                   (rehome (op_addr o) (range (dbRunners oo)) (dbInstances h)) in
          (None, o, h)
      end
  end.
End include.

(* ================================================================= *)
(** ** Specification vocabulary *)

(** The keyed-mode invariant that [MarshalYAML] checks. *)
Definition keys_aligned (rb : runbook) : Prop :=
  length (stepKeys rb) = length (Steps rb).

(** A method call that leaves the step list, the key list and the
    addressing mode alone. *)
Definition keeps_steps (rb rb' : runbook) : Prop :=
  Steps rb' = Steps rb ∧ stepKeys rb' = stepKeys rb ∧ useMap rb' = useMap rb.

(** The effect of one of the four step builders: the key list and the
    mode are kept; one step is appended exactly when no error is
    returned. *)
Definition builds_step (rb : runbook) (err : option error) (rb' : runbook) : Prop :=
  stepKeys rb' = stepKeys rb ∧ useMap rb' = useMap rb
  ∧ match err with
    | None => ∃ step, Steps rb' = Steps rb ++ [step]
    | Some _ => Steps rb' = Steps rb
    end.

(** The three families of destinations that [setRunner] tells apart. *)
Inductive family : Type := HTTP | GRPC | OTHER.

#[global] Instance family_eq_dec : EqDecision family.
Proof. solve_decision. Defined.

Definition family_of (dsn : string) : family :=
  if HasPrefix dsn "http" then HTTP
  else if HasPrefix dsn "grpc" then GRPC
  else OTHER.

Definition family_prefix (f : family) : string :=
  match f with
  | HTTP => httpRunnerKeyPrefix
  | GRPC => grpcRunnerKeyPrefix
  | OTHER => dbRunnerKeyPrefix
  end.

(** A runners entry counts for a family when its value is a string of
    that family; entries with other values (runner configurations)
    count for none. *)
Definition in_family (f : family) (v : value) : bool :=
  match v with
  | VString dsn => bool_decide (family_of dsn = f)
  | _ => false
  end.

Definition family_count (f : family) (m : gmap string value) : nat :=
  size (filter (fun kv => in_family f kv.2 = true) m).

(** The same count over the entries in visiting order. *)
Definition count_in (f : family) (kvs : list (string * value)) : Z :=
  Z.of_nat (length (filter (fun kv => in_family f kv.2 = true) kvs)).

(** The key for a family that has [n] entries so far: the bare prefix
    for the first, the prefix followed by [n + 1] after that. *)
Definition family_key (f : family) (n : nat) : string :=
  match n with
  | O => family_prefix f
  | S _ => family_prefix f +:+ Itoa (Z.of_nat n + 1)
  end.

(** Whether the token or one before it in the stream is a [-]. *)
Fixpoint has_sequence_entry (t : Token) : bool :=
  let 'mkToken v _ _ prev _ := t in
  if decide (v = "-") then true
  else
    match prev with
    | Some t' => has_sequence_entry t'
    | None => false
    end.

(** A top-level section whose key is a string other than [steps]. *)
Definition plain_section (s : Token * Node * Node) : Prop :=
  match s.1.2 with
  | StringNode _ keyValue => keyValue ≠ "steps"
  | _ => False
  end.

(** The text [pickStepYAML] is specified to return for the lines
    [start] to [end_] of [lines] (numbered from 1): each line after its
    number, right-aligned to the width of [end_] and coloured. *)
Definition numbered_line `{!Colors} (lines : list string) (end_ i : Z) : string :=
  yellow (Sprintf_wd (Z.of_nat (String.length (Itoa end_))) i +:+ " ")
  +:+ default "" (lines !! Z.to_nat (i - 1)).

Definition numbered_lines `{!Colors} (lines : list string) (start end_ : Z)
    : list string :=
  numbered_line lines end_ <$> seqZ start (end_ - start + 1).

(** The runners maps that [setRunner] alone builds from the empty map,
    one new destination at a time. *)
Inductive allocated : gmap string value → Prop :=
| allocated_empty : allocated ∅
| allocated_insert m dsn :
    allocated m →
    (∀ k, m !! k ≠ Some (VString dsn)) →
    allocated (<[family_key (family_of dsn) (family_count (family_of dsn) m)
                 := VString dsn]> m).

(** Every entry of such a map sits under a key of its own family,
    numbered below the family's count. *)
Definition well_keyed (m : gmap string value) : Prop :=
  ∀ k v, m !! k = Some v →
    ∃ dsn n, v = VString dsn ∧ k = family_key (family_of dsn) n
             ∧ (n < family_count (family_of dsn) m)%nat.

(** A size for well-founded induction through the nested containers. *)
Fixpoint vsize (v : value) : nat :=
  match v with
  | VSlice l | VTyped _ l => S (foldr (fun x n => vsize x + n)%nat 0%nat l)
  | VMapAny kvs | VMapSlice kvs =>
      S (foldr (fun kv n => vsize kv.1 + vsize kv.2 + n)%nat 0%nat kvs)
  | VMap m => S (map_fold (fun _ x n => vsize x + n)%nat 0%nat m)
  | VSliceMap l =>
      S (foldr (fun m n =>
           S (map_fold (fun _ x n => vsize x + n)%nat 0%nat m) + n)%nat 0%nat l)
  | _ => 1%nat
  end.

(* ================================================================= *)
(** ** Collaborators and data used to run the definitions on examples *)

(** A printing of scalars, used to run the definitions on examples. *)
Definition plain_fmt : Fmt := {|
  Sprintf_v := fun v =>
    match v with
    | VNil => "<nil>"
    | VBool true => "true"
    | VBool false => "false"
    | VInt n | VInt64 n | VUint64 n => Itoa n
    | VString s | VError s => s
    | _ => "?"
    end;
  Sprintf_sharp_v := fun s => "`" +:+ s +:+ "`"
|}.

(** A [range] that visits the entries in the order of [map_to_list],
    and one that visits them in the opposite order. *)
Program Definition forward_order : MapOrder :=
  {| range := fun A m => map_to_list m |}.
Next Obligation. done. Qed.

Program Definition backward_order : MapOrder :=
  {| range := fun A m => reverse (map_to_list m) |}.
Next Obligation. intros A m. simpl. apply reverse_Permutation. Qed.

(** A loop parser that accepts a repetition count only. *)
Definition count_loops : LoopParser := {|
  Loop_t := Z;
  newLoop := fun v =>
    match v with
    | VInt n => inr n
    | _ => inl "invalid loop"
    end
|}.

(** A capture back end that recognises nothing: every parser reports
    an error. *)
Definition rejecting_capture : Capture := {|
  curlreq_NewRequest := fun _ => inl "invalid curl command";
  grpcurlreq_Parse := fun _ => inl "invalid grpcurl command";
  axslogparser_GuessParser := fun _ => inl "unknown log format";
  http_NewRequest := fun _ _ => inl "invalid request";
  CreateHTTPStepMapSlice := fun _ _ => inl "invalid request";
  strings_Split := fun s _ => [s]
|}.

(** A keyed runbook without steps, as parsing a document with an empty
    [steps] mapping leaves it. *)
Definition empty_keyed_runbook : runbook :=
  mkRunbook "" None None [] false "" "" false VNil "" false true [].

(** A runners map with a single HTTP destination under the key [req2],
    and one with the same destination under two keys. *)
Definition runbook_with_runners (m : gmap string value) : runbook :=
  set_Runners (Some m) (NewRunbook "").

Definition taken_runners : gmap string value :=
  {[ "req2" := VString "http://a.example.com" ]}.

Definition twin_runners : gmap string value :=
  {[ "a" := VString "http://x.example.com";
     "b" := VString "http://x.example.com" ]}.

(** A small engine.  [New] gives the child the address 1, takes its
    runners and variables from the options, points the inherited runner
    instances to the child, and adds one HTTP runner of the child's own,
    [req] at address 7; it fails for the book [/missing.yml].  Running
    an operator fails when its variable [fail] is set and records
    nothing otherwise. *)
Definition demo_httpRunners (opts : list Option) : gmap string runnerref :=
  foldl (fun m o => match o with runnHTTPRunner k r => <[k := r]> m | _ => m end)
    ∅ opts.

Definition demo_dbRunners (opts : list Option) : gmap string runnerref :=
  foldl (fun m o => match o with runnDBRunner k r => <[k := r]> m | _ => m end)
    ∅ opts.

Definition demo_vars (opts : list Option) : gmap string value :=
  foldl (fun m o => match o with Var k v => <[k := v]> m | _ => m end) ∅ opts.

Definition demo_missing (opts : list Option) : bool :=
  existsb (fun o => match o with
                    | Book p => bool_decide (p = "/missing.yml")
                    | _ => false
                    end) opts.

Definition demo_engine : Engine := {|
  New := fun opts h =>
    if demo_missing opts then (inl "open /missing.yml: no such file", h)
    else
      let https := <["req" := 7%nat]> (demo_httpRunners opts) in
      let oo :=
        mkOperator 1%nat "/" false None None (mkStore (demo_vars opts) [])
          https (demo_dbRunners opts) true in
      (inr oo,
       mkHeap
         (<[7%nat := mkRunner 1%nat "https://api.example.com"]>
            (rehome 1%nat (map_to_list (demo_httpRunners opts)) (httpInstances h)))
         (rehome 1%nat (map_to_list (demo_dbRunners opts)) (dbInstances h)));
  operator_Run := fun oo h =>
    match store_vars (op_store oo) !! "fail" with
    | Some _ => (Some "step failed", oo, h)
    | None => (None, oo, h)
    end;
  store_toMap := fun s =>
    {[ "vars" := VMap (store_vars s); "steps" := VSliceMap (store_steps s) ]};
  filepath_Join := fun a b => a +:+ b
|}.

(** A parent at address 0 that holds one database runner, at address 3,
    and the heap with that instance. *)
Definition demo_parent : operator :=
  mkOperator 0%nat "/" false None None
    (mkStore {[ "token" := VString "abc" ]} [])
    ∅ {[ "db" := 3%nat ]} false.

Definition demo_heap : heap :=
  mkHeap ∅ {[ 3%nat := mkRunner 0%nat "postgres://db.example.com" ]}.

(** No environment references to interpolate, and a colour wrapper that
    brackets its argument. *)
Definition identity_expand : Expand := {| ReplaceYAML := inr |}.

Definition bracket_colors : Colors := {| yellow := fun s => "[" +:+ s +:+ "]" |}.

(** Two documents with their token streams and trees.  The first is in
    block style:
<<
desc: x
steps:
  - exec:
      command: ls
>>
    the second writes the same steps in flow style:
<<
desc: flow
steps: [{exec: {command: ls}}]
>> *)
Definition block_document : string :=
  "desc: x" +:+ LF +:+ "steps:" +:+ LF +:+ "  - exec:" +:+ LF
  +:+ "      command: ls" +:+ LF.

Definition b_desc : Token := mkToken "desc" 1 1 None true.
Definition b_colon1 : Token := mkToken ":" 1 5 (Some b_desc) true.
Definition b_x : Token := mkToken "x" 1 7 (Some b_colon1) true.
Definition b_steps : Token := mkToken "steps" 2 1 (Some b_x) true.
Definition b_colon2 : Token := mkToken ":" 2 6 (Some b_steps) true.
Definition b_dash : Token := mkToken "-" 3 3 (Some b_colon2) true.
Definition b_exec : Token := mkToken "exec" 3 5 (Some b_dash) true.
Definition b_colon3 : Token := mkToken ":" 3 9 (Some b_exec) true.
Definition b_command : Token := mkToken "command" 4 7 (Some b_colon3) true.
Definition b_colon4 : Token := mkToken ":" 4 14 (Some b_command) true.
Definition b_ls : Token := mkToken "ls" 4 16 (Some b_colon4) false.

Definition block_file : File :=
  mkFile [mkDocument (Some (MappingNode b_colon1
    [ (b_colon1, StringNode b_desc "desc", StringNode b_x "x");
      (b_colon2, StringNode b_steps "steps",
       SequenceNode b_dash
         [ MappingValueNode b_colon3 (StringNode b_exec "exec")
             (MappingValueNode b_colon4 (StringNode b_command "command")
                (StringNode b_ls "ls")) ]) ]))].

Definition flow_document : string :=
  "desc: flow" +:+ LF +:+ "steps: [{exec: {command: ls}}]" +:+ LF.

Definition f_desc : Token := mkToken "desc" 1 1 None true.
Definition f_colon1 : Token := mkToken ":" 1 5 (Some f_desc) true.
Definition f_flow : Token := mkToken "flow" 1 7 (Some f_colon1) true.
Definition f_steps : Token := mkToken "steps" 2 1 (Some f_flow) true.
Definition f_colon2 : Token := mkToken ":" 2 6 (Some f_steps) true.
Definition f_lbracket : Token := mkToken "[" 2 8 (Some f_colon2) true.
Definition f_lbrace1 : Token := mkToken "{" 2 9 (Some f_lbracket) true.
Definition f_exec : Token := mkToken "exec" 2 10 (Some f_lbrace1) true.
Definition f_colon3 : Token := mkToken ":" 2 14 (Some f_exec) true.
Definition f_lbrace2 : Token := mkToken "{" 2 16 (Some f_colon3) true.
Definition f_command : Token := mkToken "command" 2 17 (Some f_lbrace2) true.
Definition f_colon4 : Token := mkToken ":" 2 24 (Some f_command) true.
Definition f_ls : Token := mkToken "ls" 2 26 (Some f_colon4) true.

Definition flow_file : File :=
  mkFile [mkDocument (Some (MappingNode f_colon1
    [ (f_colon1, StringNode f_desc "desc", StringNode f_flow "flow");
      (f_colon2, StringNode f_steps "steps",
       SequenceNode f_lbracket
         [ MappingNode f_lbrace1
             [ (f_colon3, StringNode f_exec "exec",
                MappingNode f_lbrace2
                  [ (f_colon4, StringNode f_command "command",
                     StringNode f_ls "ls") ]) ] ]) ]))].

(** A parser that knows these two documents; the empty text has no
    document at all. *)
Definition demo_parser : YamlParser := {|
  Parse := fun s =>
    if decide (s = block_document) then inr block_file
    else if decide (s = flow_document) then inr flow_file
    else if decide (s = "") then inr (mkFile [])
    else inl "syntax error"
|}.

(** The items of a keyed [steps] mapping for a list of keys with their
    step bodies: what [MarshalYAML] writes and what [parseRunbookMapped]
    accepts. *)
Definition keyed_steps (kvs : list (string * MapSlice)) : MapSlice :=
  (fun kv => (VString kv.1, VMapSlice kv.2)) <$> kvs.

(** An item that [parseRunbookMapped] does not accept: its key is not a
    string or its value is not a key-value list. *)
Definition ill_typed_item (s : value * value) : Prop :=
  match s with
  | (VString _, VMapSlice _) => False
  | _ => True
  end.

(** The receiver with keys and step bodies appended. *)
Definition with_steps (ks : list string) (bodies : list MapSlice) (rb : runbook)
    : runbook :=
  set_Steps (Steps rb ++ bodies) (set_stepKeys (stepKeys rb ++ ks) rb).

(** What [parseRunbookMapped] copies from the decoded document [m]
    before it reads the steps: [Loop] and [Concurrency] are not among
    the fields assigned. *)
Definition mapped_header (m : runbookMapped) (rb : runbook) : runbook :=
  mkRunbook (mDesc m) (mRunners m) (mVars m) (Steps rb) (mDebug m)
    (mInterval m) (mIf m) (mSkipTest m) (Loop rb) (Concurrency rb)
    (mForce m) true (stepKeys rb).

(** A decoder for one keyed document: it rejects the sequence shape and
    returns [m] for the mapped shape. *)
Definition keyed_decoder (m : runbookMapped) : YamlDecoder := {|
  Unmarshal_runbook := fun _ rb => (Some "cannot unmarshal !!map into []yaml.MapSlice", rb);
  Unmarshal_mapped := fun _ => inr m
|}.

Definition step_exec (cmd : string) : MapSlice :=
  [(VString "exec", VMapSlice [(VString "command", VString cmd)])].

(** Keyed documents with the steps [a], [b]; with [a] twice; and with a
    sequence where a step body is expected. *)
Definition doc_ab : runbookMapped :=
  mkRunbookMapped "two steps" None None
    (keyed_steps [("a", step_exec "ls"); ("b", step_exec "pwd")])
    false "" "" false VNil "" false.

Definition doc_aa : runbookMapped :=
  mkRunbookMapped "twice a" None None
    (keyed_steps [("a", step_exec "ls"); ("a", step_exec "pwd")])
    false "" "" false VNil "" false.

Definition doc_ill : runbookMapped :=
  mkRunbookMapped "ill typed" None None
    (keyed_steps [("a", step_exec "ls")] ++ [(VString "b", VSlice [])])
    false "" "" false VNil "" false.

(** A keyed runbook with two steps, a loop and a concurrency limit. *)
Definition keyed_ab_runbook : runbook :=
  mkRunbook "two steps" (Some ∅) None [step_exec "ls"; step_exec "pwd"] true
    "1s" "" false (VInt 3) "2" false true ["a"; "b"].

(** The runners map after a call: as before, or with one entry stored. *)
Definition runners_grow (rb rb' : runbook) : Prop :=
  Runners rb' = Runners rb
  ∨ ∃ m key dsn, Runners rb = Some m
                 ∧ Runners rb' = Some (<[key := VString dsn]> m).

(** The fields that step synthesis never writes. *)
Definition same_controls (rb rb' : runbook) : Prop :=
  Desc rb' = Desc rb ∧ Vars rb' = Vars rb ∧ Debug rb' = Debug rb
  ∧ Interval rb' = Interval rb ∧ If rb' = If rb ∧ SkipTest rb' = SkipTest rb
  ∧ Loop rb' = Loop rb ∧ Concurrency rb' = Concurrency rb
  ∧ Force rb' = Force rb.

(** The step of a shell capture. *)
Definition exec_step `{!Fmt} (in_ : list string) : MapSlice :=
  [(VString execRunnerKey,
    VMapSlice [(VString "command", VString (joinCommands in_))])].

(** The key [AppendStep] adds in keyed mode. *)
Definition appended_keys (in0 : string) (rb : runbook) : list string :=
  if useMap rb then [in0 +:+ Itoa (len (stepKeys rb))] else [].

(** A capture back end that recognises every line as an access-log line
    with a method [http.NewRequest] rejects. *)
Definition broken_log_capture : Capture := {|
  curlreq_NewRequest := fun _ => inl "invalid curl command";
  grpcurlreq_Parse := fun _ => inl "invalid grpcurl command";
  axslogparser_GuessParser := fun _ => inr (mkLog "BAD METHOD" "/index.html" "");
  http_NewRequest := fun _ _ => inl "net/http: invalid method";
  CreateHTTPStepMapSlice := fun _ _ => inl "invalid request";
  strings_Split := fun s _ => [s]
|}.

(** A capture back end that reads every curl command as
    [GET http://example.com/a]. *)
Definition example_curl_capture : Capture := {|
  curlreq_NewRequest := fun _ =>
    inr (mkRequest "GET" "http://example.com/a" "example.com" ∅);
  grpcurlreq_Parse := fun _ => inl "invalid grpcurl command";
  axslogparser_GuessParser := fun _ => inl "unknown log format";
  http_NewRequest := fun _ _ => inl "invalid request";
  CreateHTTPStepMapSlice := fun key req =>
    inr [(VString key, VMapSlice [(VString "/a", VNil)])];
  strings_Split := fun _ _ => ["http://"; "/a"]
|}.

(** The values the default arm of [normalize] returns as they are. *)
Definition passes_through (v : value) : bool :=
  match v with
  | VSlice _ | VMapAny _ | VMap _ | VSliceMap _ | VMapSlice _ | VInt _ => false
  | _ => true
  end.

(** Normal forms: no native [int], [map[any]any] or [yaml.MapSlice] is
    left in any slice or string-keyed map that [normalize] descends
    into. *)
Inductive canonical : value → Prop :=
| canonical_default v : passes_through v = true → canonical v
| canonical_slice l : Forall canonical l → canonical (VSlice l)
| canonical_map m : map_Forall (fun _ => canonical) m → canonical (VMap m)
| canonical_maps l :
    Forall (map_Forall (fun _ => canonical)) l → canonical (VSliceMap l).

(** The items of a key-value list whose key prints as [k]. *)
Definition printed_as `{!Fmt} (k : string) (items : list (value * value))
    : list (value * value) :=
  filter (fun kv => Sprintf_v kv.1 = k) items.

(** Position order of tokens: by line, then by column. *)
Definition before (t1 t2 : Token) : Prop :=
  tkLine t1 < tkLine t2 ∨ (tkLine t1 = tkLine t2 ∧ tkColumn t1 ≤ tkColumn t2).

(** The lines [detectAreaFromNode] adds below the line of the last
    token: those of a multi-line value that is not the last token of
    the stream. *)
Definition trailing_lines (t : Token) : Z :=
  if bool_decide (CountLF (tkValue t) - 1 > 0) && tkHasNext t
  then CountLF (tkValue t) - 1 else 0.

(** A top-level section that is not a listed [steps] section, or one
    whose elements all have a [-] token at or before their own token. *)
Definition listed_steps_marked (s : Token * Node * Node) : bool :=
  match s with
  | (_, StringNode _ keyValue, SequenceNode _ values) =>
      if decide (keyValue = "steps")
      then forallb (fun v => has_sequence_entry (GetToken v)) values
      else true
  | _ => true
  end.

(** The area of a listed step: from the line of its [-] to the end of
    its node. *)
Definition listed_step_area (v : Node) (ar : area) : Prop :=
  ∃ ar0, detectAreaFromNode v = Return ar0
         ∧ findSequenceEntry (GetToken v) = Return (Start ar)
         ∧ End ar = End ar0.

(** The area of a keyed step: that of its entry in the mapping. *)
Definition keyed_step_area (s : Token * Node * Node) (ar : area) : Prop :=
  detectAreaFromNode (MappingValueNode s.1.1 s.1.2 s.2) = Return ar.

(** A keyed document with its token stream and tree:
<<
desc: k
steps:
  a:
    exec:
      command: ls
  b:
    exec:
      command: pwd
>> *)
Definition keyed_document : string :=
  "desc: k" +:+ LF +:+ "steps:" +:+ LF
  +:+ "  a:" +:+ LF +:+ "    exec:" +:+ LF +:+ "      command: ls" +:+ LF
  +:+ "  b:" +:+ LF +:+ "    exec:" +:+ LF +:+ "      command: pwd" +:+ LF.

Definition k_desc : Token := mkToken "desc" 1 1 None true.
Definition k_colon1 : Token := mkToken ":" 1 5 (Some k_desc) true.
Definition k_k : Token := mkToken "k" 1 7 (Some k_colon1) true.
Definition k_steps : Token := mkToken "steps" 2 1 (Some k_k) true.
Definition k_colon2 : Token := mkToken ":" 2 6 (Some k_steps) true.
Definition k_a : Token := mkToken "a" 3 3 (Some k_colon2) true.
Definition k_colon3 : Token := mkToken ":" 3 4 (Some k_a) true.
Definition k_exec1 : Token := mkToken "exec" 4 5 (Some k_colon3) true.
Definition k_colon4 : Token := mkToken ":" 4 9 (Some k_exec1) true.
Definition k_command1 : Token := mkToken "command" 5 7 (Some k_colon4) true.
Definition k_colon5 : Token := mkToken ":" 5 14 (Some k_command1) true.
Definition k_ls : Token := mkToken "ls" 5 16 (Some k_colon5) true.
Definition k_b : Token := mkToken "b" 6 3 (Some k_ls) true.
Definition k_colon6 : Token := mkToken ":" 6 4 (Some k_b) true.
Definition k_exec2 : Token := mkToken "exec" 7 5 (Some k_colon6) true.
Definition k_colon7 : Token := mkToken ":" 7 9 (Some k_exec2) true.
Definition k_command2 : Token := mkToken "command" 8 7 (Some k_colon7) true.
Definition k_colon8 : Token := mkToken ":" 8 14 (Some k_command2) true.
Definition k_pwd : Token := mkToken "pwd" 8 16 (Some k_colon8) false.

Definition keyed_step_a : Token * Node * Node :=
  (k_colon3, StringNode k_a "a",
   MappingValueNode k_colon4 (StringNode k_exec1 "exec")
     (MappingValueNode k_colon5 (StringNode k_command1 "command")
        (StringNode k_ls "ls"))).

Definition keyed_step_b : Token * Node * Node :=
  (k_colon6, StringNode k_b "b",
   MappingValueNode k_colon7 (StringNode k_exec2 "exec")
     (MappingValueNode k_colon8 (StringNode k_command2 "command")
        (StringNode k_pwd "pwd"))).

Definition keyed_file : File :=
  mkFile [mkDocument (Some (MappingNode k_colon1
    [ (k_colon1, StringNode k_desc "desc", StringNode k_k "k");
      (k_colon2, StringNode k_steps "steps",
       MappingNode k_colon3 [keyed_step_a; keyed_step_b]) ]))].

(** A parser that knows this document only. *)
Definition keyed_parser : YamlParser := {|
  Parse := fun s =>
    if decide (s = keyed_document) then inr keyed_file else inl "syntax error"
|}.

(** What [grpcurlToStep] writes under the method: the first value of
    every header, when there are headers, then the message or the
    messages. *)
Definition grpc_headers (p : Parsed) : gmap string string :=
  (fun v => default "" (head v)) <$> Headers p.

Definition grpc_body (p : Parsed) : MapSlice :=
  (if decide (Headers p = ∅) then []
   else [(VString "headers",
          VTyped "map[string]string"
            [VMap (VString <$> grpc_headers p : gmap string value)])])
  ++ match Messages p with
     | [] => []
     | [msg] => [(VString "message", msg)]
     | msgs => [(VString "messages", VSlice msgs)]
     end.

(** A capture back end that reads every grpcurl command as a call of
    [pkg.Svc/Call] on [svc.example.com:443] with one header of two
    values and one message. *)
Definition example_grpcurl_capture : Capture := {|
  curlreq_NewRequest := fun _ => inl "invalid curl command";
  grpcurlreq_Parse := fun _ =>
    inr (mkParsed "svc.example.com:443" "pkg.Svc/Call" ""
           {[ "authorization" := ["Bearer x"; "Bearer y"] ]} [VString "{}"]);
  axslogparser_GuessParser := fun _ => inl "unknown log format";
  http_NewRequest := fun _ _ => inl "invalid request";
  CreateHTTPStepMapSlice := fun _ _ => inl "invalid request";
  strings_Split := fun s _ => [s]
|}.

(** The keys of [n] steps captured in keyed mode from commands that
    all start with the token [in0]. *)
Definition token_keys (in0 : string) (n : Z) : list string :=
  (fun i => in0 +:+ Itoa i) <$> seqZ 0 n.

(* ================================================================= *)
(** * Properties *)

(* ----------------------------------------------------------------- *)
(** ** Value normalisation *)

Lemma vsize_slice_elem (l : list value) x :
  x ∈ l → (vsize x < S (foldr (fun x n => vsize x + n) 0 l))%nat.
Proof.
  induction 1 as [x l|x y l _ IH]; simpl; lia.
Qed.

Lemma vsize_items_elem (kvs : list (value * value)) kv :
  kv ∈ kvs →
  (vsize kv.2 < S (foldr (fun kv n => vsize kv.1 + vsize kv.2 + n) 0 kvs))%nat.
Proof.
  induction 1 as [x l|x y l _ IH]; simpl; lia.
Qed.

Lemma vsize_map_elem (m : gmap string value) k x :
  m !! k = Some x →
  (vsize x < S (map_fold (fun _ x n => vsize x + n) 0 m))%nat.
Proof.
  intros Hk. rewrite <- (insert_delete_id m k x Hk).
  rewrite map_fold_insert_L.
  - lia.
  - intros; lia.
  - apply lookup_delete_eq.
Qed.

Lemma vsize_maps_elem (l : list (gmap string value)) m :
  m ∈ l →
  (vsize (VMap m) <
   S (foldr (fun m n =>
        S (map_fold (fun _ x n => vsize x + n) 0 m) + n) 0 l))%nat.
Proof.
  induction 1 as [x l|x y l _ IH]; simpl in *; lia.
Qed.

Section normalize_facts.
Context `{!Fmt}.

(** Every value stored by [assign_all] is the image of an input. *)
Lemma assign_all_lookup norm kvs k x :
  assign_all norm kvs !! k = Some x → ∃ kv, kv ∈ kvs ∧ x = norm kv.2.
Proof.
  unfold assign_all.
  assert (∀ acc : gmap string value,
    foldl (fun res kv => <[Sprintf_v kv.1 := norm kv.2]> res) acc kvs !! k
      = Some x →
    acc !! k = Some x ∨ ∃ kv, kv ∈ kvs ∧ x = norm kv.2) as Hgen.
  { induction kvs as [|kv kvs IH]; intros acc; simpl; [by left|].
    intros [Hacc|(kv' & Hin & ->)]%IH.
    - destruct (decide (Sprintf_v kv.1 = k)) as [Heq|Hne].
      + rewrite Heq, lookup_insert_eq in Hacc. injection Hacc as <-.
        right. exists kv. split; [left|done].
      + rewrite lookup_insert_ne in Hacc by done. by left.
    - right. exists kv'. split; [by right|done]. }
  intros [Hemp|?]%Hgen; [|done]. by rewrite lookup_empty in Hemp.
Qed.

(** Mapping over a map whose entries are all fixed points. *)
Lemma fmap_fixed (f : value → value) (m : gmap string value) :
  (∀ k x, m !! k = Some x → f x = x) → f <$> m = m.
Proof.
  intros Hfix. apply map_eq; intros k. rewrite lookup_fmap.
  destruct (m !! k) as [x|] eqn:Hk; simpl; [|done].
  by rewrite (Hfix k x Hk).
Qed.

(** The element loop of the [[]map[string]any] arm never takes its
    error exit when the element normaliser returns maps. *)
Lemma normalize_maps_total (g : gmap string value → gmap string value) l res :
  normalize_maps (fun vv => VMap (g vv)) l res
  = VSliceMap (reverse res ++ (g <$> l)).
Proof.
  revert res. induction l as [|vv l IH]; intros res; simpl.
  - by rewrite app_nil_r.
  - rewrite IH, reverse_cons, <- app_assoc. done.
Qed.

Lemma normalize_VSliceMap (l : list (gmap string value)) :
  normalize (VSliceMap l)
  = VSliceMap ((fun m : gmap string value => normalize <$> m) <$> l).
Proof. simpl. by rewrite normalize_maps_total. Qed.

End normalize_facts.

(** A key-value list with an integer key and a nested sequence. *)
Example normalize_nested :
  @normalize plain_fmt
    (VMapSlice [(VString "a", VInt 1); (VInt 2, VSlice [VInt (-3); VBool true])])
  = VMap {[ "a" := VUint64 1; "2" := VSlice [VInt64 (-3); VBool true] ]}.
Proof. by vm_compute. Qed.

(** C4: [normalize] is total (it is a function defined on every value,
    by structural recursion) and idempotent: normalising a normalised
    value changes nothing. *)
Theorem normalize_idempotent `{!Fmt} (x : value) :
  normalize (normalize x) = normalize x.
Proof.
  assert (∀ n v, (vsize v < n)%nat → normalize (normalize v) = normalize v)
    as Hsize; [|apply (Hsize (S (vsize x))); lia].
  clear x. induction n as [|n IH]; [lia|].
  intros v Hv. destruct v; try reflexivity.
  - (* int *) simpl. by case_decide.
  - (* []any *) simpl in *. f_equal.
    rewrite <- list_fmap_compose. apply list_fmap_ext.
    intros i x Hx. simpl. apply IH.
    pose proof (vsize_slice_elem l x (list_elem_of_lookup_2 _ _ _ Hx)). lia.
  - (* map[any]any *) simpl in *. f_equal. apply fmap_fixed.
    intros k x (kv & Hin & ->)%assign_all_lookup. apply IH.
    pose proof (vsize_items_elem kvs kv Hin). lia.
  - (* map[string]any *) simpl in *. f_equal.
    rewrite <- map_fmap_compose. apply map_fmap_ext.
    intros k x Hx. simpl. apply IH.
    pose proof (vsize_map_elem m k x Hx). lia.
  - (* []map[string]any *)
    rewrite !normalize_VSliceMap. f_equal.
    rewrite <- list_fmap_compose. apply list_fmap_ext.
    intros i m Hm. simpl.
    rewrite <- map_fmap_compose. apply map_fmap_ext.
    intros k x Hx. simpl. apply IH.
    pose proof (vsize_maps_elem l m (list_elem_of_lookup_2 _ _ _ Hm)).
    pose proof (vsize_map_elem m k x Hx). simpl in *. lia.
  - (* yaml.MapSlice *) simpl in *. f_equal. apply fmap_fixed.
    intros k x (kv & Hin & ->)%assign_all_lookup. apply IH.
    pose proof (vsize_items_elem items kv Hin). lia.
Qed.

(** C5: on a native [int] the normaliser looks at the sign: a negative
    value becomes an [int64] and a non-negative one a [uint64], with
    the same numeric value; so [-5] becomes [int64(-5)] and [5] becomes
    [uint64(5)]. *)
Theorem normalize_int_sign_aware `{!Fmt} (n : Z) :
  int_range n →
  (n < 0 → normalize (VInt n) = VInt64 n)
  ∧ (0 ≤ n → normalize (VInt n) = VUint64 n)
  ∧ normalize (VInt (-5)) = VInt64 (-5)
  ∧ normalize (VInt 5) = VUint64 5.
Proof.
  unfold int_range. intros Hn. repeat split.
  - intros Hneg. simpl. rewrite decide_True by done. f_equal.
    unfold int64. rewrite Z.mod_small; lia.
  - intros Hpos. simpl. rewrite decide_False by lia. f_equal.
    unfold uint64. rewrite Z.mod_small; lia.
Qed.

Lemma normalize_int_sign_aware_witness :
  int_range (-5)
  ∧ ((-5 < 0 → @normalize plain_fmt (VInt (-5)) = VInt64 (-5))
     ∧ (0 ≤ -5 → @normalize plain_fmt (VInt (-5)) = VUint64 (-5))
     ∧ @normalize plain_fmt (VInt (-5)) = VInt64 (-5)
     ∧ @normalize plain_fmt (VInt 5) = VUint64 5).
Proof.
  split.
  - unfold int_range. lia.
  - apply (@normalize_int_sign_aware plain_fmt (-5)). unfold int_range. lia.
Defined.

(* ----------------------------------------------------------------- *)
(** ** Compilation *)

Section toBook_facts.
Context `{!Fmt, !LoopParser}.

Lemma as_map_normalize_VMap (m : gmap string value) :
  as_map (normalize (VMap m)) = Some (normalize <$> m).
Proof. reflexivity. Qed.

Lemma as_map_normalize_VMapSlice (s : MapSlice) :
  as_map (normalize (VMapSlice s)) = Some (assign_all normalize s).
Proof. reflexivity. Qed.

(** The step loop never takes its error exit. *)
Lemma normalizeSteps_ok (steps : list MapSlice) rawSteps :
  normalizeSteps steps rawSteps
  = inr (rawSteps ++ (assign_all normalize <$> steps)).
Proof.
  revert rawSteps. induction steps as [|s steps IH]; intros rawSteps; simpl.
  - by rewrite app_nil_r.
  - rewrite IH, <- app_assoc. done.
Qed.

Lemma toBook_unfold (rb : runbook) :
  toBook rb =
  let finish (l : option Loop_t) :=
    mkBook (Desc rb) (normalize <$> entries (Runners rb))
      (normalize <$> entries (Vars rb)) (assign_all normalize <$> Steps rb)
      (Debug rb) (Interval rb) (If rb) (SkipTest rb) (Force rb) l
      (Concurrency rb) (useMap rb) (stepKeys rb) in
  if is_nil (Loop rb) then inr (finish None)
  else match newLoop (Loop rb) with
       | inl err => inl err
       | inr l => inr (finish (Some l))
       end.
Proof.
  unfold toBook. simpl. rewrite normalizeSteps_ok. simpl.
  by destruct (is_nil (Loop rb)).
Qed.
End toBook_facts.

(** C10: the three "failed to normalize" exits of [toBook] cannot be
    taken: a string-keyed map and a key-value list always normalise to
    a string-keyed map, so the step loop always completes.  [toBook]
    returns an error only when the loop field is non-nil and [newLoop]
    rejects it, and then it is that error; when the loop field is nil
    or [newLoop] accepts it, [toBook] returns a book. *)
Theorem toBook_fails_only_on_loop `{!Fmt, !LoopParser} (rb : runbook) :
  (∀ m : gmap string value, as_map (normalize (VMap m)) = Some (normalize <$> m))
  ∧ (∀ s : MapSlice, as_map (normalize (VMapSlice s)) = Some (assign_all normalize s))
  ∧ (∃ rawSteps, normalizeSteps (Steps rb) [] = inr rawSteps)
  ∧ (∀ err, toBook rb = inl err →
       is_nil (Loop rb) = false ∧ newLoop (Loop rb) = inl err)
  ∧ (is_nil (Loop rb) = true ∨ (∃ l, newLoop (Loop rb) = inr l) →
       ∃ bk, toBook rb = inr bk).
Proof.
  split; [apply as_map_normalize_VMap|].
  split; [apply as_map_normalize_VMapSlice|].
  split; [rewrite normalizeSteps_ok; eauto|].
  rewrite toBook_unfold. simpl. split.
  - intros err. destruct (is_nil (Loop rb)); [done|].
    destruct (newLoop (Loop rb)) as [e|l]; [|done].
    intros [= ->]. done.
  - intros [Hnil|[l Hl]].
    + rewrite Hnil. eauto.
    + rewrite Hl. destruct (is_nil (Loop rb)); eauto.
Qed.

Lemma toBook_fails_only_on_loop_witness :
  (is_nil (Loop (NewRunbook "")) = true
   ∨ (∃ l, @newLoop count_loops (Loop (NewRunbook "")) = inr l))
  ∧ ∃ bk, @toBook plain_fmt count_loops (NewRunbook "") = inr bk.
Proof.
  split; [by left|].
  destruct (@toBook_fails_only_on_loop plain_fmt count_loops (NewRunbook ""))
    as (_ & _ & _ & _ & Hok).
  apply Hok. by left.
Defined.

(* ----------------------------------------------------------------- *)
(** ** Step keys and steps *)

Ltac unfold_M :=
  unfold mbind, mret, M_bind, M_ret, lift, modify, get in *;
  simpl in *.

Section steps_facts.
Context `{!Fmt, !MapOrder, !Capture}.

Lemma setRunner_keeps_steps dsn rb key rb' :
  setRunner dsn rb = Return (key, rb') → keeps_steps rb rb'.
Proof.
  unfold setRunner, keeps_steps.
  destruct (scanRunners _ _ _) as [k|c].
  - by intros [= _ <-].
  - destruct (Runners rb); [|done]. by intros [= _ <-].
Qed.

Lemma curlToStep_builds in_ rb err rb' :
  curlToStep in_ rb = Return (err, rb') → builds_step rb err rb'.
Proof.
  unfold curlToStep, appendStep, builds_step. unfold_M.
  destruct (curlreq_NewRequest in_) as [e|req]; [by intros [= <- <-]|].
  destruct (index _ 0) as [s0|]; [|done].
  destruct (setRunner _ rb) as [[key rb1]|] eqn:Hset; [|done].
  apply setRunner_keeps_steps in Hset as (HS & HK & HU).
  destruct (CreateHTTPStepMapSlice key req) as [e|step].
  - intros [= <- <-]. done.
  - intros [= <- <-]. simpl. rewrite HS. eauto.
Qed.

Lemma grpcurlToStep_builds in_ rb err rb' :
  grpcurlToStep in_ rb = Return (err, rb') → builds_step rb err rb'.
Proof.
  unfold grpcurlToStep, appendStep, builds_step. unfold_M.
  destruct (grpcurlreq_Parse in_) as [e|p]; [by intros [= <- <-]|].
  case_decide; [by intros [= <- <-]|].
  destruct (setRunner _ rb) as [[key rb1]|] eqn:Hset; [|done].
  apply setRunner_keeps_steps in Hset as (HS & HK & HU).
  destruct (firstHeaders _ _) as [h|]; [|done].
  intros [= <- <-]. simpl. rewrite HS. eauto.
Qed.

Lemma axsLogToStep_builds in_ rb err rb' :
  axsLogToStep in_ rb = Return (err, rb') → builds_step rb err rb'.
Proof.
  unfold axsLogToStep, appendStep, builds_step. unfold_M.
  destruct (axslogparser_GuessParser _) as [e|l]; [by intros [= <- <-]|].
  destruct (setRunner _ rb) as [[key rb1]|] eqn:Hset; [|done].
  apply setRunner_keeps_steps in Hset as (HS & HK & HU).
  destruct (http_NewRequest _ _) as [e|req]; [by intros [= <- <-]|].
  destruct (CreateHTTPStepMapSlice key _) as [e|step].
  - intros [= <- <-]. done.
  - intros [= <- <-]. simpl. rewrite HS. eauto.
Qed.

Lemma cmdToStep_builds in_ rb err rb' :
  cmdToStep in_ rb = Return (err, rb') →
  err = None ∧ builds_step rb err rb'.
Proof.
  unfold cmdToStep, appendStep, builds_step. unfold_M.
  intros [= <- <-]. simpl. eauto 10.
Qed.

Lemma builds_step_trans rb e1 rb1 e2 rb2 :
  builds_step rb (Some e1) rb1 → builds_step rb1 e2 rb2 → builds_step rb e2 rb2.
Proof.
  unfold builds_step. intros (K1 & U1 & S1) (K2 & U2 & S2).
  rewrite K2, K1, U2, U1. repeat split. destruct e2.
  - by rewrite S2, S1.
  - destruct S2 as [step ->]. rewrite S1. eauto.
Qed.

(** The dispatch on the first token builds one step or fails. *)
Lemma dispatch_builds in0 rest rb err rb' :
  (if HasPrefix in0 "curl" then curlToStep (in0 :: rest)
   else if HasPrefix in0 "grpcurl" then grpcurlToStep (in0 :: rest)
   else if decide (len (in0 :: rest) = 1) then
     fun rb1 =>
       match axsLogToStep (in0 :: rest) rb1 with
       | Return (a2, rb2) =>
           match a2 with
           | Some _ => cmdToStep (in0 :: rest)
           | None => fun rb3 => Return (None, rb3)
           end rb2
       | Panic msg => Panic msg
       end
   else cmdToStep (in0 :: rest)) rb = Return (err, rb') →
  builds_step rb err rb'.
Proof.
  destruct (HasPrefix in0 "curl"); [apply curlToStep_builds|].
  destruct (HasPrefix in0 "grpcurl"); [apply grpcurlToStep_builds|].
  case_decide.
  - destruct (axsLogToStep _ rb) as [[[e|] r]|] eqn:Hax; [| |done].
    + apply axsLogToStep_builds in Hax.
      intros [-> Hcmd]%cmdToStep_builds. by eapply builds_step_trans.
    + apply axsLogToStep_builds in Hax. by intros [= <- <-].
  - by intros [-> Hcmd]%cmdToStep_builds.
Qed.

(** What one call of [AppendStep] on a non-empty argument list does
    to the two lists. *)
Lemma AppendStep_effect in0 rest rb err rb' :
  AppendStep (in0 :: rest) rb = Return (err, rb') →
  useMap rb' = useMap rb
  ∧ length (stepKeys rb') =
      (length (stepKeys rb) + if useMap rb then 1 else 0)%nat
  ∧ length (Steps rb') =
      (length (Steps rb) + if err is None then 1 else 0)%nat.
Proof.
  unfold AppendStep. unfold_M.
  destruct (useMap rb) eqn:HU; simpl;
    intros (K & U & S)%dispatch_builds; simpl in *;
    rewrite K, U, ?length_app; simpl; (repeat split; [done..|]);
    (destruct err; [by rewrite S; lia|destruct S as [step ->]];
     rewrite length_app; simpl; lia).
Qed.
End steps_facts.

Section keyed_invariant.
Context `{!Fmt, !MapOrder, !Capture}.

(** Parsing the steps of a keyed document appends a key and a step
    together, also on the iteration that reports a duplicate. *)
Lemma parseMappedSteps_aligned steps keys rb :
  keys_aligned rb → keys_aligned (parseMappedSteps steps keys rb).2.
Proof.
  revert keys rb. induction steps as [|[k v] steps IH]; intros keys rb Hal;
    simpl; [done|].
  destruct k; try done. destruct v; try done.
  assert (keys_aligned
    (set_Steps (Steps rb ++ [items]) (set_stepKeys (stepKeys rb ++ [s]) rb))).
  { unfold keys_aligned in *. simpl. rewrite !length_app, Hal. done. }
  case_decide; simpl; [done|]. by apply IH.
Qed.

(** X3: whatever the document and whether it is accepted or rejected,
    [parseRunbookMapped] leaves as many step keys as steps when it
    started with as many: also on the duplicate-key exit both the key
    and the body have been appended. *)
Lemma parseRunbookMapped_aligned `{!YamlDecoder} b rb :
  keys_aligned rb → keys_aligned (parseRunbookMapped b rb).2.
Proof.
  intros Hal. unfold parseRunbookMapped.
  destruct (Unmarshal_mapped b) as [e|m]; [done|].
  by apply parseMappedSteps_aligned.
Qed.

(** A call of [AppendStep] that returns nil keeps the lists aligned. *)
Lemma AppendStep_ok_aligned in_ rb rb' :
  useMap rb = true → keys_aligned rb →
  AppendStep in_ rb = Return (None, rb') → keys_aligned rb'.
Proof.
  intros HU Hal. destruct in_ as [|in0 rest]; [done|].
  intros (_ & HK & HS)%AppendStep_effect.
  unfold keys_aligned in *. rewrite HK, HS, HU, Hal. done.
Qed.

(** Without arguments nothing is touched. *)
Lemma AppendStep_no_argument rb :
  AppendStep [] rb = Return (Some "no argument", rb).
Proof. reflexivity. Qed.

(** Compiling keeps the key list and produces one raw step per step. *)
Lemma toBook_aligned `{!LoopParser} rb bk :
  toBook rb = inr bk →
  bk_stepKeys bk = stepKeys rb ∧ length (rawSteps bk) = length (Steps rb).
Proof.
  rewrite toBook_unfold. simpl.
  destruct (is_nil (Loop rb)); [|destruct (newLoop (Loop rb)); [done|]];
    intros [= <-]; simpl; by rewrite length_fmap.
Qed.
End keyed_invariant.

(** A shell capture on a keyed runbook: one key and one step. *)
Example AppendStep_shell_capture :
  ∃ rb',
    @AppendStep plain_fmt forward_order rejecting_capture ["echo"; "hello world"]
      empty_keyed_runbook = Return (None, rb')
    ∧ stepKeys rb' = ["echo0"]
    ∧ Steps rb'
      = [[(VString "exec",
           VMapSlice [(VString "command",
                       VString ("echo `hello world`" +:+ LF))])]].
Proof. eexists. split; [reflexivity|]. split; by vm_compute. Qed.

(** C1, as the code has it: in keyed mode [AppendStep] appends the new
    key before it dispatches on the first token, and the builders for
    curl and grpcurl captures return their errors without appending a
    step.  So every call on a non-empty argument list that returns an
    error leaves one key more than there are steps, a state that
    [MarshalYAML] rejects as an invalid runbook. *)
Theorem AppendStep_error_breaks_alignment `{!Fmt, !MapOrder, !Capture}
    (in0 : string) (rest : list string) (rb rb' : runbook) (err : error) :
  useMap rb = true →
  keys_aligned rb →
  AppendStep (in0 :: rest) rb = Return (Some err, rb') →
  length (stepKeys rb') = S (length (Steps rb'))
  ∧ ¬ keys_aligned rb'
  ∧ MarshalYAML rb' = inl "invalid runbook".
Proof.
  intros HU Hal (HU' & HK & HS)%AppendStep_effect.
  rewrite HU in HK. unfold keys_aligned in *.
  assert (length (stepKeys rb') = S (length (Steps rb'))) as Hlen by lia.
  split; [done|]. split; [lia|].
  unfold MarshalYAML. rewrite HU', HU. simpl.
  rewrite decide_True; [done|]. unfold len. lia.
Qed.

Lemma AppendStep_error_breaks_alignment_witness :
  useMap empty_keyed_runbook = true
  ∧ keys_aligned empty_keyed_runbook
  ∧ ∃ rb',
      @AppendStep plain_fmt forward_order rejecting_capture ["grpcurl"]
        empty_keyed_runbook
      = Return (Some "invalid grpcurl command", rb')
      ∧ length (stepKeys rb') = S (length (Steps rb'))
      ∧ ¬ keys_aligned rb'
      ∧ @MarshalYAML rb' = inl "invalid runbook".
Proof.
  split; [reflexivity|]. split; [reflexivity|].
  eexists. split; [reflexivity|].
  apply (@AppendStep_error_breaks_alignment plain_fmt forward_order
           rejecting_capture "grpcurl" [] empty_keyed_runbook _
           "invalid grpcurl command"); reflexivity.
Defined.

(* ----------------------------------------------------------------- *)
(** ** Runner keys *)

Lemma size_filter_to_list {A} (P : string * A → Prop) `{!∀ x, Decision (P x)}
    (m : gmap string A) :
  size (filter P m) = length (filter P (map_to_list m)).
Proof.
  induction m as [|i x m Hi Hfirst IH] using map_first_key_ind.
  - by rewrite map_filter_empty, map_to_list_empty, map_size_empty.
  - rewrite map_to_list_insert_first_key by done.
    rewrite filter_cons, map_filter_insert. case_decide; simpl.
    + rewrite map_size_insert_None; [by rewrite IH|].
      apply map_lookup_filter_None. by left.
    + by rewrite delete_id.
Qed.

Section setRunner_facts.
Context `{!MapOrder}.

Lemma count_in_cons f k v kvs :
  count_in f ((k, v) :: kvs)
  = (if in_family f v then 1 else 0) + count_in f kvs.
Proof.
  unfold count_in. rewrite filter_cons. simpl.
  destruct (in_family f v); simpl; lia.
Qed.

Lemma count_one_family vv c :
  count_one vv c
  = mkCounters (hc c + if in_family HTTP (VString vv) then 1 else 0)
               (gc c + if in_family GRPC (VString vv) then 1 else 0)
               (dc c + if in_family OTHER (VString vv) then 1 else 0).
Proof.
  unfold count_one, in_family, family_of.
  destruct (HasPrefix vv "http"); [|destruct (HasPrefix vv "grpc")];
    simpl; f_equal; lia.
Qed.

(** When no visited entry equals the destination, the loop runs to
    its end and has counted each family. *)
Lemma scanRunners_counts dsn kvs c :
  (∀ k, (k, VString dsn) ∉ kvs) →
  scanRunners dsn kvs c
  = inr (mkCounters (hc c + count_in HTTP kvs) (gc c + count_in GRPC kvs)
           (dc c + count_in OTHER kvs)).
Proof.
  revert c. induction kvs as [|[k v] kvs IH]; intros c Hno; simpl.
  - unfold count_in. simpl. destruct c. simpl. do 2 f_equal; lia.
  - assert (∀ k', (k', VString dsn) ∉ kvs) as Hno'.
    { intros k' Hin. apply (Hno k'). by right. }
    rewrite !count_in_cons.
    destruct v; try (rewrite IH by done; simpl; do 2 f_equal; lia).
    rewrite decide_False.
    2:{ intros ->. apply (Hno k). left. }
    rewrite IH by done. rewrite count_one_family. simpl.
    do 2 f_equal; lia.
Qed.

(** When some visited entry equals the destination, the loop returns
    the key of the first such entry. *)
Lemma scanRunners_found dsn kvs c :
  (∃ k, (k, VString dsn) ∈ kvs) →
  ∃ k, scanRunners dsn kvs c = inl k ∧ (k, VString dsn) ∈ kvs.
Proof.
  revert c. induction kvs as [|[k v] kvs IH]; intros c [k0 Hin].
  - by apply elem_of_nil in Hin.
  - assert (Hrest : (k0, VString dsn) ∈ kvs →
              ∀ c', ∃ k', scanRunners dsn kvs c' = inl k'
                          ∧ (k', VString dsn) ∈ (k, v) :: kvs).
    { intros Hin' c'. destruct (IH c' (ex_intro _ k0 Hin')) as (k' & -> & ?).
      exists k'. split; [done|by right]. }
    simpl. destruct v;
      try (apply elem_of_cons in Hin as [[= ]|Hin]; by apply Hrest).
    case_decide as Hs.
    + subst. exists k. split; [done|left].
    + apply elem_of_cons in Hin as [[= ]|Hin]; [congruence|by apply Hrest].
Qed.

Lemma count_in_perm f kvs kvs' :
  kvs ≡ₚ kvs' → count_in f kvs = count_in f kvs'.
Proof. intros Hp. unfold count_in. by rewrite Hp. Qed.

Lemma family_count_to_list f (m : gmap string value) :
  Z.of_nat (family_count f m) = count_in f (map_to_list m).
Proof.
  unfold family_count, count_in. f_equal. apply size_filter_to_list.
Qed.

Lemma count_in_range f (m : gmap string value) :
  count_in f (range m) = Z.of_nat (family_count f m).
Proof. rewrite family_count_to_list. apply count_in_perm, range_perm. Qed.

Lemma elem_of_range (m : gmap string value) k v :
  (k, v) ∈ range m ↔ m !! k = Some v.
Proof. rewrite range_perm. apply elem_of_map_to_list. Qed.

Lemma newRunnerKey_family dsn (m : gmap string value) :
  newRunnerKey dsn
    (mkCounters (0 + count_in HTTP (range m)) (0 + count_in GRPC (range m))
       (0 + count_in OTHER (range m)))
  = family_key (family_of dsn) (family_count (family_of dsn) m).
Proof.
  rewrite !count_in_range. unfold newRunnerKey, family_of. simpl.
  destruct (HasPrefix dsn "http"); [|destruct (HasPrefix dsn "grpc")];
    simpl; by destruct (family_count _ m).
Qed.

(** A destination that no entry holds gets the key of its family's
    count, in every visiting order. *)
Lemma setRunner_new rb (m : gmap string value) dsn :
  Runners rb = Some m →
  (∀ k, m !! k ≠ Some (VString dsn)) →
  setRunner dsn rb
  = Return (family_key (family_of dsn) (family_count (family_of dsn) m),
            set_Runners
              (Some (<[family_key (family_of dsn)
                         (family_count (family_of dsn) m) := VString dsn]> m))
              rb).
Proof.
  intros Hm Hno. unfold setRunner. rewrite Hm. simpl.
  rewrite scanRunners_counts.
  2:{ intros k Hin%elem_of_range. by apply (Hno k). }
  by rewrite newRunnerKey_family.
Qed.

(** X11: on a nil runners map (a keyed document without a [runners]
    section leaves one) no destination is found, and the insertion that
    follows panics: [setRunner] never returns. *)
Lemma setRunner_nil_map rb dsn :
  Runners rb = None →
  setRunner dsn rb = Panic "assignment to entry in nil map".
Proof.
  intros Hnil. unfold setRunner. rewrite Hnil. simpl.
  rewrite scanRunners_counts; [done|].
  intros k Hin%elem_of_range. by rewrite lookup_empty in Hin.
Qed.

(** A destination that some entry holds is found: the key of such an
    entry is returned and nothing is written. *)
Lemma setRunner_found rb dsn k :
  entries (Runners rb) !! k = Some (VString dsn) →
  ∃ key, setRunner dsn rb = Return (key, rb)
         ∧ entries (Runners rb) !! key = Some (VString dsn).
Proof.
  intros Hk. unfold setRunner.
  destruct (scanRunners_found dsn (range (entries (Runners rb)))
              (mkCounters 0 0 0)) as (key & -> & Hin).
  { exists k. by apply elem_of_range. }
  exists key. split; [done|]. by apply elem_of_range.
Qed.
End setRunner_facts.

Section family_count_facts.
Lemma family_count_insert_same f key dsn (m : gmap string value) :
  m !! key = None → family_of dsn = f →
  family_count f (<[key := VString dsn]> m) = S (family_count f m).
Proof.
  intros Hfresh Hf. unfold family_count.
  rewrite map_filter_insert_True.
  - apply map_size_insert_None, map_lookup_filter_None. by left.
  - simpl. by apply bool_decide_eq_true.
Qed.

Lemma family_count_insert_other f key dsn (m : gmap string value) :
  m !! key = None → family_of dsn ≠ f →
  family_count f (<[key := VString dsn]> m) = family_count f m.
Proof.
  intros Hfresh Hf. unfold family_count.
  rewrite map_filter_insert_not'; [done| |].
  - simpl. rewrite bool_decide_eq_true. done.
  - intros y Hy. congruence.
Qed.

(** Overwriting an entry of the same family leaves the count alone. *)
Lemma family_count_overwrite f key dsn dsn' (m : gmap string value) :
  m !! key = Some (VString dsn') → family_of dsn' = family_of dsn →
  family_count f (<[key := VString dsn]> m) = family_count f m.
Proof.
  intros Hold Hfam. unfold family_count.
  destruct (decide (family_of dsn = f)) as [Hf|Hf].
  - rewrite map_filter_insert_True by (simpl; by apply bool_decide_eq_true).
    apply map_size_insert_Some. exists (VString dsn').
    apply map_lookup_filter_Some. split; [done|].
    simpl. apply bool_decide_eq_true. congruence.
  - rewrite map_filter_insert_not'; [done| |].
    + simpl. rewrite bool_decide_eq_true. done.
    + intros y Hy. rewrite Hold in Hy. injection Hy as <-. simpl.
      rewrite bool_decide_eq_true. congruence.
Qed.
End family_count_facts.

(** C2, as the code has it: for a runbook whose runners map is
    allocated and holds no entry equal to the destination [dsn],
    [setRunner] classifies [dsn] into its family, takes the bare prefix
    when the family has no entry and prefix+(count+1) otherwise, stores
    [dsn] under that key and returns it, whatever the order in which the
    map is visited.  The code does not look whether the key is taken:
    when it is free, the family's count grows by exactly one, the other
    families keep theirs, the map grows by one entry and every earlier
    entry is kept. *)
Theorem setRunner_allocates `{!MapOrder} (rb : runbook)
    (m : gmap string value) (dsn : string) :
  Runners rb = Some m →
  (∀ k, m !! k ≠ Some (VString dsn)) →
  let f := family_of dsn in
  let key := family_key f (family_count f m) in
  setRunner dsn rb
    = Return (key, set_Runners (Some (<[key := VString dsn]> m)) rb)
  ∧ (m !! key = None →
       family_count f (<[key := VString dsn]> m) = S (family_count f m)
       ∧ (∀ f', f' ≠ f →
            family_count f' (<[key := VString dsn]> m) = family_count f' m)
       ∧ size (<[key := VString dsn]> m) = S (size m)
       ∧ (∀ k v, m !! k = Some v → <[key := VString dsn]> m !! k = Some v)).
Proof.
  intros Hm Hno f key. split.
  - by apply setRunner_new.
  - intros Hfresh. split; [|split; [|split]].
    + by apply family_count_insert_same.
    + intros f' Hf'. apply family_count_insert_other; [done|]. by intros <-.
    + by apply map_size_insert_None.
    + intros k v Hk. rewrite lookup_insert_ne; [done|]. congruence.
Qed.

Lemma setRunner_allocates_witness :
  Runners (NewRunbook "") = Some ∅
  ∧ (∀ k, (∅ : gmap string value) !! k ≠ Some (VString "http://a.example.com"))
  ∧ @setRunner forward_order "http://a.example.com" (NewRunbook "")
    = Return ("req",
        set_Runners (Some {[ "req" := VString "http://a.example.com" ]})
          (NewRunbook ""))
  ∧ family_count HTTP
      (<["req" := VString "http://a.example.com"]> (∅ : gmap string value))
    = 1%nat.
Proof.
  assert (∀ k, (∅ : gmap string value) !! k
               ≠ Some (VString "http://a.example.com")) as Hno.
  { intros k. by rewrite lookup_empty. }
  split; [reflexivity|]. split; [exact Hno|].
  destruct (@setRunner_allocates forward_order (NewRunbook "") ∅
              "http://a.example.com" eq_refl Hno) as [Hrun Hfresh].
  split; [exact Hrun|].
  destruct (Hfresh (lookup_empty _)) as (Hcount & _). exact Hcount.
Defined.

(** C2, the claim as stated fails: the key computed from the count can
    be taken already.  With the single runner [req2 ↦ http://a...], no
    entry equals the new HTTP destination, which gets the key [req2]
    again; the earlier entry is overwritten and the family still has one
    entry.  So the call does not return a key that was free with the
    family's count grown by one. *)
Lemma setRunner_key_collision :
  (∀ k, taken_runners !! k ≠ Some (VString "http://b.example.com"))
  ∧ taken_runners !! "req2" = Some (VString "http://a.example.com")
  ∧ @setRunner forward_order "http://b.example.com"
      (runbook_with_runners taken_runners)
    = Return ("req2",
        runbook_with_runners {[ "req2" := VString "http://b.example.com" ]})
  ∧ family_count HTTP {[ "req2" := VString "http://b.example.com" ]}
    = family_count HTTP taken_runners
  ∧ ¬ (∃ key rb',
         @setRunner forward_order "http://b.example.com"
           (runbook_with_runners taken_runners) = Return (key, rb')
         ∧ taken_runners !! key = None
         ∧ family_count HTTP (entries (Runners rb'))
           = S (family_count HTTP taken_runners)).
Proof.
  assert (∀ k, taken_runners !! k ≠ Some (VString "http://b.example.com"))
    as Hno.
  { intros k. unfold taken_runners.
    destruct (decide (k = "req2")) as [->|Hne].
    - by rewrite lookup_singleton_eq.
    - by rewrite lookup_singleton_ne. }
  split; [exact Hno|]. split; [reflexivity|].
  assert (@setRunner forward_order "http://b.example.com"
            (runbook_with_runners taken_runners)
          = Return ("req2",
              runbook_with_runners {[ "req2" := VString "http://b.example.com" ]}))
    as Hrun by (by vm_compute).
  split; [exact Hrun|]. split; [by vm_compute|].
  intros (key & rb' & Hrun' & Hfree & _).
  rewrite Hrun in Hrun'. injection Hrun' as <- _. done.
Qed.

(** C3, as the code has it: when some entry of the runners map holds
    the destination, [setRunner] returns the key of an entry that holds
    it and leaves the runbook as it was (nothing inserted, same size).
    When exactly one entry holds the destination, that entry's key is
    returned in every visiting order of the map, so the same destination
    yields the same key on every call. *)
Theorem setRunner_existing `{!MapOrder} (rb : runbook) (dsn k : string) :
  entries (Runners rb) !! k = Some (VString dsn) →
  (∃ key, setRunner dsn rb = Return (key, rb)
          ∧ entries (Runners rb) !! key = Some (VString dsn))
  ∧ ((∀ k', entries (Runners rb) !! k' = Some (VString dsn) → k' = k) →
     setRunner dsn rb = Return (k, rb)).
Proof.
  intros Hk. split; [by eapply setRunner_found|].
  intros Huniq. destruct (setRunner_found rb dsn k Hk) as (key & -> & Hkey).
  by rewrite (Huniq key Hkey).
Qed.

Lemma setRunner_existing_witness :
  entries (Runners (runbook_with_runners taken_runners)) !! "req2"
    = Some (VString "http://a.example.com")
  ∧ (∀ k', entries (Runners (runbook_with_runners taken_runners)) !! k'
             = Some (VString "http://a.example.com") → k' = "req2")
  ∧ @setRunner backward_order "http://a.example.com"
      (runbook_with_runners taken_runners)
    = Return ("req2", runbook_with_runners taken_runners).
Proof.
  assert (∀ k', entries (Runners (runbook_with_runners taken_runners)) !! k'
                = Some (VString "http://a.example.com") → k' = "req2") as Huniq.
  { intros k'. simpl. unfold taken_runners.
    destruct (decide (k' = "req2")) as [->|Hne]; [done|].
    by rewrite lookup_singleton_ne. }
  split; [reflexivity|]. split; [exact Huniq|].
  destruct (@setRunner_existing backward_order
              (runbook_with_runners taken_runners) "http://a.example.com"
              "req2" eq_refl) as [_ Hrun].
  exact (Hrun Huniq).
Defined.

(** C3, the claim as stated fails: with two entries that hold the same
    destination, the key returned is the one the [range] loop reaches
    first.  Both entries [a] and [b] hold the destination; one visiting
    order returns [a], not the key of the entry [b], and the opposite
    order returns [b]: the same destination on the same map yields two
    different keys. *)
Lemma setRunner_twin_entries :
  twin_runners !! "a" = Some (VString "http://x.example.com")
  ∧ twin_runners !! "b" = Some (VString "http://x.example.com")
  ∧ @setRunner forward_order "http://x.example.com"
      (runbook_with_runners twin_runners)
    = Return ("a", runbook_with_runners twin_runners)
  ∧ @setRunner backward_order "http://x.example.com"
      (runbook_with_runners twin_runners)
    = Return ("b", runbook_with_runners twin_runners)
  ∧ @setRunner forward_order "http://x.example.com"
      (runbook_with_runners twin_runners)
    ≠ @setRunner backward_order "http://x.example.com"
        (runbook_with_runners twin_runners).
Proof.
  assert (@setRunner forward_order "http://x.example.com"
            (runbook_with_runners twin_runners)
          = Return ("a", runbook_with_runners twin_runners))
    as Hfwd by (by vm_compute).
  assert (@setRunner backward_order "http://x.example.com"
            (runbook_with_runners twin_runners)
          = Return ("b", runbook_with_runners twin_runners))
    as Hbwd by (by vm_compute).
  split; [by vm_compute|]. split; [by vm_compute|].
  split; [exact Hfwd|]. split; [exact Hbwd|].
  rewrite Hfwd, Hbwd. intros [= ?].
Qed.

(* ----------------------------------------------------------------- *)
(** ** Include *)

(** Re-homing touches the instances listed, and of those only the
    back-pointer. *)
Lemma rehome_lookup o (rs : list (string * runnerref))
    (instances : gmap runnerref runner) r :
  rehome o rs instances !! r
  = if bool_decide (r ∈ rs.*2) then set_r_operator o <$> instances !! r
    else instances !! r.
Proof.
  unfold rehome. revert instances.
  induction rs as [|[k r0] rs IH]; intros instances.
  - rewrite bool_decide_eq_false_2; [done|]. apply not_elem_of_nil.
  - change (foldl _ instances ((k, r0) :: rs))
      with (foldl (fun inst (kr : string * runnerref) =>
                     alter (set_r_operator o) kr.2 inst)
              (alter (set_r_operator o) r0 instances) rs).
    rewrite IH. rewrite fmap_cons. simpl.
    destruct (decide (r0 = r)) as [->|Hne].
    + rewrite lookup_alter_eq.
      rewrite (bool_decide_eq_true_2 (r ∈ r :: rs.*2)) by left.
      destruct (bool_decide (r ∈ rs.*2)); [|done].
      by destruct (instances !! r).
    + rewrite lookup_alter_ne by done.
      destruct (decide (r ∈ rs.*2)) as [Hin|Hnin].
      * rewrite !bool_decide_eq_true_2; [done|by right|done].
      * rewrite !bool_decide_eq_false_2; [done| |done].
        intros [?|?]%elem_of_cons; congruence.
Qed.

Section include_facts.
Context `{!MapOrder, !Engine}.

Lemma elem_of_range_refs (m : gmap string runnerref) r :
  r ∈ (range m).*2 ↔ ∃ k, m !! k = Some r.
Proof.
  rewrite list_elem_of_fmap. split.
  - intros ([k r'] & -> & Hin). exists k.
    rewrite range_perm in Hin. by apply elem_of_map_to_list in Hin.
  - intros [k Hk]. exists (k, r). split; [done|].
    rewrite range_perm. by apply elem_of_map_to_list.
Qed.

(** [includeRunner.Run] by cases on what the engine answers. *)
Lemma Run_construct_fails o c h err h' :
  newNestedOperator o [Book (filepath_Join (root o) (path c))] h = (inl err, h') →
  Run o c h = (Some err, o, h').
Proof. intros Hnew. unfold Run. by rewrite Hnew. Qed.

Lemma Run_child_fails o c h oo h1 err oo' h' :
  newNestedOperator o [Book (filepath_Join (root o) (path c))] h = (inr oo, h1) →
  operator_Run (overrideVars c oo) h1 = (Some err, oo', h') →
  Run o c h = (Some err, o, h').
Proof. intros Hnew Hrun. unfold Run. by rewrite Hnew, Hrun. Qed.

Lemma Run_child_succeeds o c h oo h1 oo' h2 :
  newNestedOperator o [Book (filepath_Join (root o) (path c))] h = (inr oo, h1) →
  operator_Run (overrideVars c oo) h1 = (None, oo', h2) →
  Run o c h =
  (None, record (store_toMap (op_store oo')) o,
   mkHeap (rehome (op_addr o) (range (httpRunners oo')) (httpInstances h2))
          (rehome (op_addr o) (range (dbRunners oo')) (dbInstances h2))).
Proof. intros Hnew Hrun. unfold Run. by rewrite Hnew, Hrun. Qed.

Lemma Run_cases o c h :
  (∃ err h', newNestedOperator o [Book (filepath_Join (root o) (path c))] h
             = (inl err, h'))
  ∨ (∃ oo h1 err oo' h',
       newNestedOperator o [Book (filepath_Join (root o) (path c))] h
       = (inr oo, h1)
       ∧ operator_Run (overrideVars c oo) h1 = (Some err, oo', h'))
  ∨ (∃ oo h1 oo' h2,
       newNestedOperator o [Book (filepath_Join (root o) (path c))] h
       = (inr oo, h1)
       ∧ operator_Run (overrideVars c oo) h1 = (None, oo', h2)).
Proof.
  destruct (newNestedOperator _ _ _) as [[err|oo] h1] eqn:Hnew; [eauto|].
  destruct (operator_Run (overrideVars c oo) h1) as [[[err|] oo'] h2] eqn:Hrun.
  - right; left. by exists oo, h1, err, oo', h2.
  - right; right. by exists oo, h1, oo', h2.
Qed.
End include_facts.

(** C6: when the nested operator cannot be constructed, or when its
    run fails, [includeRunner.Run] returns that very error and hands the
    parent operator back as it received it: its store (variables and
    recorded results) and every other field are unchanged, and nothing
    is recorded. *)
Theorem Run_failure_leaves_parent `{!MapOrder, !Engine}
    (o : operator) (c : includeConfig) (h : heap) :
  (∀ err h',
     newNestedOperator o [Book (filepath_Join (root o) (path c))] h
     = (inl err, h') →
     Run o c h = (Some err, o, h'))
  ∧ (∀ oo h1 err oo' h',
       newNestedOperator o [Book (filepath_Join (root o) (path c))] h
       = (inr oo, h1) →
       operator_Run (overrideVars c oo) h1 = (Some err, oo', h') →
       Run o c h = (Some err, o, h'))
  ∧ (∀ err o' h',
       Run o c h = (Some err, o', h') →
       o' = o ∧ op_store o' = op_store o).
Proof.
  split; [intros err h'; apply Run_construct_fails|].
  split; [intros oo h1 err oo' h'; apply Run_child_fails|].
  intros err o' h'.
  destruct (Run_cases o c h)
    as [(e & h1 & Hnew)|[(oo & h1 & e & oo' & h2 & Hnew & Hrun)
                        |(oo & h1 & oo' & h2 & Hnew & Hrun)]].
  - rewrite (Run_construct_fails _ _ _ _ _ Hnew). by intros [= _ <- _].
  - rewrite (Run_child_fails _ _ _ _ _ _ _ _ Hnew Hrun). by intros [= _ <- _].
  - rewrite (Run_child_succeeds _ _ _ _ _ _ _ Hnew Hrun). done.
Qed.

Lemma Run_failure_leaves_parent_witness :
  @Run forward_order demo_engine demo_parent
    (mkIncludeConfig "child.yml" {[ "fail" := VBool true ]}) demo_heap
  = (Some "step failed", demo_parent,
     mkHeap {[ 7%nat := mkRunner 1%nat "https://api.example.com" ]}
            {[ 3%nat := mkRunner 1%nat "postgres://db.example.com" ]})
  ∧ @Run forward_order demo_engine demo_parent
      (mkIncludeConfig "missing.yml" ∅) demo_heap
    = (Some "open /missing.yml: no such file", demo_parent, demo_heap).
Proof.
  destruct (@Run_failure_leaves_parent forward_order demo_engine demo_parent
              (mkIncludeConfig "child.yml" {[ "fail" := VBool true ]})
              demo_heap) as (_ & Hrun & _).
  destruct (@Run_failure_leaves_parent forward_order demo_engine demo_parent
              (mkIncludeConfig "missing.yml" ∅) demo_heap) as (Hnew & _ & _).
  split.
  - eapply Hrun; by vm_compute.
  - apply Hnew. by vm_compute.
Defined.

(** C7, as the code has it: after a successful child run the child's
    final store snapshot is appended as a recorded result on the parent
    and the parent's variables are unchanged; every HTTP and database
    runner instance the child holds has its back-pointer set to the
    parent, and this is all that happens to the heap: the other
    instances and the rest of each instance's state are as the child run
    left them.  The parent's own runner mappings are unchanged, so every
    instance the parent held is the same instance afterwards; the code
    adds nothing to them. *)
Theorem Run_success_merges `{!MapOrder, !Engine}
    (o : operator) (c : includeConfig) (h : heap) (o' : operator) (h' : heap) :
  Run o c h = (None, o', h') →
  ∃ oo h1 oo' h2,
    newNestedOperator o [Book (filepath_Join (root o) (path c))] h = (inr oo, h1)
    ∧ operator_Run (overrideVars c oo) h1 = (None, oo', h2)
    ∧ store_steps (op_store o')
      = store_steps (op_store o) ++ [store_toMap (op_store oo')]
    ∧ store_vars (op_store o') = store_vars (op_store o)
    ∧ httpRunners o' = httpRunners o
    ∧ dbRunners o' = dbRunners o
    ∧ op_addr o' = op_addr o
    ∧ (∀ k r, httpRunners oo' !! k = Some r →
         httpInstances h' !! r
         = set_r_operator (op_addr o) <$> httpInstances h2 !! r)
    ∧ (∀ k r, dbRunners oo' !! k = Some r →
         dbInstances h' !! r
         = set_r_operator (op_addr o) <$> dbInstances h2 !! r)
    ∧ (∀ r, (∀ k, httpRunners oo' !! k ≠ Some r) →
         httpInstances h' !! r = httpInstances h2 !! r)
    ∧ (∀ r, (∀ k, dbRunners oo' !! k ≠ Some r) →
         dbInstances h' !! r = dbInstances h2 !! r).
Proof.
  destruct (Run_cases o c h)
    as [(e & h1 & Hnew)|[(oo & h1 & e & oo' & h2 & Hnew & Hrun)
                        |(oo & h1 & oo' & h2 & Hnew & Hrun)]].
  - by rewrite (Run_construct_fails _ _ _ _ _ Hnew).
  - by rewrite (Run_child_fails _ _ _ _ _ _ _ _ Hnew Hrun).
  - rewrite (Run_child_succeeds _ _ _ _ _ _ _ Hnew Hrun).
    intros [= <- <-]. exists oo, h1, oo', h2. simpl.
    do 7 (split; [done|]).
    split; [|split; [|split]].
    + intros k r Hk. rewrite rehome_lookup, bool_decide_eq_true_2; [done|].
      apply elem_of_range_refs. eauto.
    + intros k r Hk. rewrite rehome_lookup, bool_decide_eq_true_2; [done|].
      apply elem_of_range_refs. eauto.
    + intros r Hr. rewrite rehome_lookup, bool_decide_eq_false_2; [done|].
      intros [k Hk]%elem_of_range_refs. by apply (Hr k).
    + intros r Hr. rewrite rehome_lookup, bool_decide_eq_false_2; [done|].
      intros [k Hk]%elem_of_range_refs. by apply (Hr k).
Qed.

Lemma Run_success_merges_witness :
  ∃ o' h',
    @Run forward_order demo_engine demo_parent
      (mkIncludeConfig "child.yml" ∅) demo_heap = (None, o', h')
    ∧ length (store_steps (op_store o')) = 1%nat
    ∧ dbRunners o' = dbRunners demo_parent
    ∧ dbInstances h' !! 3%nat
      = set_r_operator 0%nat
          <$> Some (mkRunner 1%nat "postgres://db.example.com").
Proof.
  destruct (@Run forward_order demo_engine demo_parent
              (mkIncludeConfig "child.yml" ∅) demo_heap)
    as [[[e|] o'] h'] eqn:Hrun; [by vm_compute in Hrun|].
  exists o', h'. split; [done|].
  destruct (@Run_success_merges forward_order demo_engine demo_parent
              (mkIncludeConfig "child.yml" ∅) demo_heap o' h' Hrun)
    as (oo & h1 & oo' & h2 & _ & _ & Hsteps & _ & _ & Hdb & _).
  split; [by rewrite Hsteps, length_app|].
  split; [exact Hdb|].
  vm_compute in Hrun. injection Hrun as <- <-. by vm_compute.
Defined.

(** C7, the claim as stated fails: a runner created inside the child is
    not reachable from the parent's runner mapping.  The parent holds no
    HTTP runner; the child of the small engine holds the HTTP runner
    [req] at address 7; after a successful include that instance points
    back to the parent (address 0), but the parent's mapping still has
    no entry [req]. *)
Lemma Run_child_runner_not_adopted :
  ∃ oo h1 oo' h2 o' h',
    @newNestedOperator forward_order demo_engine demo_parent
      [Book "/child.yml"] demo_heap = (inr oo, h1)
    ∧ @operator_Run demo_engine
        (@overrideVars forward_order (mkIncludeConfig "child.yml" ∅) oo) h1
      = (None, oo', h2)
    ∧ @Run forward_order demo_engine demo_parent
        (mkIncludeConfig "child.yml" ∅) demo_heap = (None, o', h')
    ∧ httpRunners demo_parent !! "req" = None
    ∧ httpRunners oo' !! "req" = Some 7%nat
    ∧ httpInstances h' !! 7%nat
      = Some (mkRunner 0%nat "https://api.example.com")
    ∧ httpRunners o' !! "req" = None
    ∧ ¬ (∀ k r, httpRunners oo' !! k = Some r → httpRunners o' !! k = Some r).
Proof.
  eexists _, _, _, _, _, _.
  split; [reflexivity|]. split; [reflexivity|]. split; [reflexivity|].
  split; [by vm_compute|]. split; [by vm_compute|]. split; [by vm_compute|].
  split; [by vm_compute|].
  intros Hall. specialize (Hall "req" 7%nat). vm_compute in Hall.
  by specialize (Hall eq_refl).
Qed.

(* ----------------------------------------------------------------- *)
(** ** Source positions *)

Lemma Visit_some d n :
  is_Some (d_start (Visit d n)) ∧ is_Some (d_end (Visit d n)).
Proof. unfold Visit. simpl. eauto. Qed.

Lemma foldl_Visit_some l : ∀ d n,
  is_Some (d_start (foldl Visit d (n :: l)))
  ∧ is_Some (d_end (foldl Visit d (n :: l))).
Proof.
  induction l as [|m l IH]; intros d n.
  - apply Visit_some.
  - apply (IH (Visit d n) m).
Qed.

Lemma Walk_cons n : ∃ l, Walk n = n :: l.
Proof. destruct n; simpl; eauto. Qed.

(** The visitor has seen the node itself, so the area of a node is
    always computed. *)
Lemma detectAreaFromNode_returns node : ∃ a, detectAreaFromNode node = Return a.
Proof.
  unfold detectAreaFromNode. destruct (Walk_cons node) as [l ->].
  destruct (foldl_Visit_some l (mkDetector None None) node) as [[s ->] [e ->]].
  simpl. destruct (_ && _); eauto.
Qed.

(** Induction along the [Prev] chain of a token. *)
Lemma Token_chain_ind (P : Token → Prop) :
  (∀ v line col hasNext, P (mkToken v line col None hasNext)) →
  (∀ v line col t hasNext, P t → P (mkToken v line col (Some t) hasNext)) →
  ∀ t, P t.
Proof.
  intros Hfirst Hnext. fix IH 1. intros [v line col [t|] hasNext].
  - apply Hnext, IH.
  - apply Hfirst.
Qed.

(** Without a [-] at or before the token the search runs off the head
    of the stream; with one it returns the line of the nearest. *)
Lemma findSequenceEntry_none t :
  has_sequence_entry t = false →
  findSequenceEntry t = Panic "nil pointer dereference".
Proof.
  induction t as [v line col hasNext|v line col t hasNext IH]
    using Token_chain_ind; simpl; case_decide; done.
Qed.

Lemma findSequenceEntry_some t :
  has_sequence_entry t = true → ∃ line, findSequenceEntry t = Return line.
Proof.
  induction t as [v line col hasNext|v line col t hasNext IH]
    using Token_chain_ind; simpl; case_decide; eauto; done.
Qed.

(** Sections before [steps] are passed over, whatever they are. *)
Lemma sectionAreas_skip pre : ∀ a,
  Forall plain_section pre →
  ∃ a', ∀ rest, sectionAreas (pre ++ rest) a = sectionAreas rest a'.
Proof.
  induction pre as [|[[tk key] val] pre IH]; intros a Hpre.
  - by exists a.
  - apply Forall_cons in Hpre as [Hs Hpre]. unfold plain_section in Hs.
    simpl in Hs. destruct key as [tkk keyValue| | | |]; try done.
    destruct (detectAreaFromNode_returns
                (MappingValueNode tk (StringNode tkk keyValue) val)) as [ar Har].
    assert (∃ a1, ∀ rest,
      sectionAreas (((tk, StringNode tkk keyValue, val) :: pre) ++ rest) a
      = sectionAreas (pre ++ rest) a1) as [a1 Ha1].
    { simpl. rewrite Har.
      repeat case_decide; try done; simpl; eauto. }
    destruct (IH a1 Hpre) as [a' Ha']. exists a'. intros rest.
    by rewrite Ha1, Ha'.
Qed.

Section areas_facts.
Context `{!YamlParser}.

(** The silent exits: a text that does not parse, and a document whose
    body is not a mapping, give no areas. *)
Lemma detectRunbookAreas_parse_error in_ err :
  Parse in_ = inl err → detectRunbookAreas in_ = Return no_areas.
Proof. intros Hp. unfold detectRunbookAreas. by rewrite Hp. Qed.

Lemma detectRunbookAreas_not_mapping in_ body docs :
  Parse in_ = inr (mkFile (mkDocument body :: docs)) →
  (∀ tk sections, body ≠ Some (MappingNode tk sections)) →
  detectRunbookAreas in_ = Return no_areas.
Proof.
  intros Hp Hbody. unfold detectRunbookAreas. rewrite Hp. simpl.
  destruct body as [[]|]; try done. by destruct (Hbody tk Values).
Qed.

(** A document without any [DocumentNode]: [parsed.Docs[0]] panics. *)
Lemma detectRunbookAreas_no_document in_ :
  Parse in_ = inr (mkFile []) →
  detectRunbookAreas in_ = Panic "index out of range".
Proof. intros Hp. unfold detectRunbookAreas. by rewrite Hp. Qed.

(** A [steps] sequence whose first element has no [-] token at or
    before its own token: the backward search dereferences nil. *)
Lemma detectRunbookAreas_no_sequence_entry in_ tk0 pre tk tkk tks v vs post docs :
  Parse in_ = inr (mkFile (mkDocument (Some (MappingNode tk0
    (pre ++ (tk, StringNode tkk "steps", SequenceNode tks (v :: vs)) :: post)))
    :: docs)) →
  Forall plain_section pre →
  has_sequence_entry (GetToken v) = false →
  detectRunbookAreas in_ = Panic "nil pointer dereference".
Proof.
  intros Hp Hpre Hno. unfold detectRunbookAreas. rewrite Hp. simpl.
  destruct (sectionAreas_skip pre no_areas Hpre) as [a' ->]. simpl.
  destruct (detectAreaFromNode_returns v) as [aa ->]. simpl.
  by rewrite (findSequenceEntry_none _ Hno).
Qed.
End areas_facts.

(** C9, as the code has it: [detectRunbookAreas] does abort its caller
    on two kinds of text.  When the parser returns no document at all
    (the empty text), [parsed.Docs[0]] is out of range; and when the
    first element of a [steps] sequence has no [-] token at or before
    its own token (a sequence in flow style), the unbounded backward
    search [t = t.Prev] dereferences nil.  Both are run-time panics, not
    an empty result. *)
Theorem detectRunbookAreas_can_panic `{!YamlParser} (in_ : string) :
  (Parse in_ = inr (mkFile []) →
   detectRunbookAreas in_ = Panic "index out of range")
  ∧ (∀ tk0 pre tk tkk tks v vs post docs,
       Parse in_ = inr (mkFile (mkDocument (Some (MappingNode tk0
         (pre ++ (tk, StringNode tkk "steps", SequenceNode tks (v :: vs))
              :: post))) :: docs)) →
       Forall plain_section pre →
       has_sequence_entry (GetToken v) = false →
       detectRunbookAreas in_ = Panic "nil pointer dereference").
Proof.
  split.
  - apply detectRunbookAreas_no_document.
  - intros. by eapply detectRunbookAreas_no_sequence_entry.
Qed.

Lemma detectRunbookAreas_can_panic_witness :
  @detectRunbookAreas demo_parser "" = Panic "index out of range"
  ∧ @detectRunbookAreas demo_parser flow_document
    = Panic "nil pointer dereference".
Proof.
  split.
  - apply (@detectRunbookAreas_can_panic demo_parser ""). reflexivity.
  - destruct (@detectRunbookAreas_can_panic demo_parser flow_document)
      as [_ Hflow].
    eapply (Hflow f_colon1
              [(f_colon1, StringNode f_desc "desc", StringNode f_flow "flow")]
              f_colon2 f_steps f_lbracket _ [] [] []).
    + reflexivity.
    + repeat constructor. unfold plain_section. simpl. discriminate.
    + reflexivity.
Defined.

(* ----------------------------------------------------------------- *)
(** ** Picking the text of a step *)

(** Decimal numerals do not get shorter as the number grows. *)
Lemma pretty_N_go_length_le x s :
  (String.length s ≤ String.length (pretty_N_go x s))%nat.
Proof.
  revert s. induction (N.lt_wf_0 x) as [x _ IH]; intros s.
  destruct (decide (x = 0%N)) as [->|Hx]; [by rewrite pretty_N_go_0|].
  rewrite pretty_N_go_step by lia.
  etrans; [|apply IH, N.div_lt; lia]. simpl. lia.
Qed.

Lemma pretty_N_go_length_mono y : ∀ x s s',
  (x ≤ y)%N → (String.length s ≤ String.length s')%nat →
  (String.length (pretty_N_go x s) ≤ String.length (pretty_N_go y s'))%nat.
Proof.
  induction (N.lt_wf_0 y) as [y _ IH]; intros x s s' Hxy Hlen.
  destruct (decide (x = 0%N)) as [->|Hx].
  - rewrite pretty_N_go_0. etrans; [exact Hlen|apply pretty_N_go_length_le].
  - rewrite (pretty_N_go_step x), (pretty_N_go_step y) by lia.
    apply IH.
    + apply N.div_lt; lia.
    + apply N.Div0.div_le_mono. lia.
    + simpl. lia.
Qed.

Lemma Itoa_length_pos n : (1 ≤ String.length (Itoa n))%nat.
Proof.
  unfold Itoa, pretty, pretty_Z. destruct n as [|p|p]; simpl; [lia| |lia].
  unfold pretty, pretty_positive, pretty, pretty_N.
  rewrite decide_False by done. rewrite pretty_N_go_step by lia.
  etrans; [|apply pretty_N_go_length_le]. simpl. lia.
Qed.

Lemma Itoa_length_mono i n :
  0 ≤ i ≤ n → (String.length (Itoa i) ≤ String.length (Itoa n))%nat.
Proof.
  intros Hin. destruct i as [|p|p]; [apply (Itoa_length_pos n)| |lia].
  destruct n as [|q|q]; [lia| |lia].
  unfold Itoa, pretty, pretty_Z, pretty, pretty_positive, pretty, pretty_N.
  rewrite !decide_False by done.
  apply pretty_N_go_length_mono; [lia|done].
Qed.

Lemma string_app_length (s1 s2 : string) :
  String.length (s1 +:+ s2) = (String.length s1 + String.length s2)%nat.
Proof. induction s1 as [|c s1 IH]; simpl; [done|]. by rewrite IH. Qed.

Lemma concat_spaces_length n :
  String.length (String.concat "" (replicate n " ")) = n.
Proof.
  induction n as [|n IH]; [done|].
  change (replicate (S n) " ") with (" " :: replicate n " ").
  destruct n as [|n]; [done|].
  change (String.concat "" (" " :: replicate (S n) " "))
    with (" " +:+ "" +:+ String.concat "" (replicate (S n) " ")).
  rewrite !string_app_length, IH. simpl. lia.
Qed.

(** Padded to the width of the last line number, every line number of
    the range takes exactly that width. *)
Lemma Sprintf_wd_width end_ i :
  0 ≤ i ≤ end_ →
  String.length (Sprintf_wd (Z.of_nat (String.length (Itoa end_))) i)
  = String.length (Itoa end_).
Proof.
  intros Hi. unfold Sprintf_wd.
  rewrite string_app_length, concat_spaces_length.
  pose proof (Itoa_length_mono i end_ Hi). lia.
Qed.

Section pickStepYAML_facts.
Context `{!YamlParser, !Expand, !Colors}.

Lemma index_in_range {A} (s : list A) i x :
  0 ≤ i → s !! Z.to_nat i = Some x → index s i = Return x.
Proof. intros Hi Hx. unfold index. rewrite decide_True by done. by rewrite Hx. Qed.

Lemma index_negative {A} (s : list A) i :
  i < 0 → index s i = Panic "index out of range".
Proof. intros Hi. unfold index. by rewrite decide_False by lia. Qed.

(** The loop body finds every line whose number is within the text. *)
Lemma pickLines_ok lines end_ range_i : ∀ picked,
  Forall (fun i => 1 ≤ i ≤ len lines) range_i →
  pickLines (Z.of_nat (String.length (Itoa end_))) lines range_i picked
  = Return (picked ++ (numbered_line lines end_ <$> range_i)).
Proof.
  induction range_i as [|i range_i IH]; intros picked Hall; simpl.
  - by rewrite app_nil_r.
  - apply Forall_cons in Hall as [Hi Hall].
    destruct (lookup_lt_is_Some_2 lines (Z.to_nat (i - 1))) as [line Hline].
    { unfold len in Hi. lia. }
    rewrite (index_in_range lines (i - 1) line) by (done || lia). simpl.
    rewrite IH by done. rewrite <- app_assoc. simpl.
    unfold numbered_line at 2. by rewrite Hline.
Qed.

(** The two error returns. *)
Lemma pickStepYAML_step_not_found in_ rep a idx :
  ReplaceYAML in_ = inr rep →
  detectRunbookAreas rep = Return a →
  len (aSteps a) - 1 < idx →
  pickStepYAML in_ idx = Return (inl ("step not found: " +:+ Itoa idx)).
Proof.
  intros Hrep Ha Hidx. unfold pickStepYAML. rewrite Hrep, Ha. simpl.
  by rewrite decide_True by done.
Qed.

Lemma pickStepYAML_line_not_found in_ rep a idx step :
  ReplaceYAML in_ = inr rep →
  detectRunbookAreas rep = Return a →
  0 ≤ idx → aSteps a !! Z.to_nat idx = Some step →
  len (SplitLF rep "") < End step →
  pickStepYAML in_ idx = Return (inl ("line not found: " +:+ Itoa (End step))).
Proof.
  intros Hrep Ha Hidx Hstep Hend. unfold pickStepYAML. rewrite Hrep, Ha. simpl.
  rewrite decide_False.
  2:{ apply lookup_lt_Some in Hstep. unfold len. lia. }
  rewrite (index_in_range _ _ _ Hidx Hstep). simpl.
  by rewrite decide_True by done.
Qed.

(** The lines of the step, numbered. *)
Lemma pickStepYAML_picks in_ rep a idx step :
  ReplaceYAML in_ = inr rep →
  detectRunbookAreas rep = Return a →
  0 ≤ idx → aSteps a !! Z.to_nat idx = Some step →
  1 ≤ Start step → End step ≤ len (SplitLF rep "") →
  pickStepYAML in_ idx
  = Return (inr (Join (numbered_lines (SplitLF rep "") (Start step) (End step)) LF))
  ∧ ∀ i, Start step ≤ i ≤ End step →
      String.length (Sprintf_wd (Z.of_nat (String.length (Itoa (End step)))) i)
      = String.length (Itoa (End step)).
Proof.
  intros Hrep Ha Hidx Hstep Hstart Hend. split.
  - unfold pickStepYAML. rewrite Hrep, Ha. simpl.
    rewrite decide_False.
    2:{ apply lookup_lt_Some in Hstep. unfold len. lia. }
    rewrite (index_in_range _ _ _ Hidx Hstep). simpl.
    rewrite decide_False by lia.
    rewrite pickLines_ok; [done|].
    apply Forall_seqZ. intros i Hi. lia.
  - intros i Hi. apply Sprintf_wd_width. lia.
Qed.

End pickStepYAML_facts.

(** The block-style document: its areas, and the text of its step. *)
Example detectRunbookAreas_block :
  @detectRunbookAreas demo_parser block_document
  = Return (mkAreas (Some (mkArea 1 1)) None None [mkArea 3 4]).
Proof. by vm_compute. Qed.

Example pickStepYAML_block :
  @pickStepYAML demo_parser identity_expand bracket_colors block_document 0
  = Return (inr ("[3 ]  - exec:" +:+ LF +:+ "[4 ]      command: ls")).
Proof. by vm_compute. Qed.

Example pickStepYAML_block_out_of_range :
  @pickStepYAML demo_parser identity_expand bracket_colors block_document 1
  = Return (inl "step not found: 1").
Proof. by vm_compute. Qed.

(** The flow-style document: the panic of the area detection reaches
    the caller of [pickStepYAML]. *)
Example pickStepYAML_flow :
  @pickStepYAML demo_parser identity_expand bracket_colors flow_document 0
  = Panic "nil pointer dereference".
Proof. by vm_compute. Qed.

(** C8, as the code has it: the range check of [pickStepYAML] is
    [len(a.Steps)-1 < idx] alone, so a negative index is not answered
    with an error: whenever interpolation succeeds and the areas are
    detected, a negative index reaches [a.Steps[idx]] and the call
    panics with an index out of range. *)
Theorem pickStepYAML_negative_index_panics `{!YamlParser, !Expand, !Colors}
    (in_ rep : string) (a : areas) (idx : Z) :
  ReplaceYAML in_ = inr rep →
  detectRunbookAreas rep = Return a →
  idx < 0 →
  pickStepYAML in_ idx = Panic "index out of range".
Proof.
  intros Hrep Ha Hidx. unfold pickStepYAML. rewrite Hrep, Ha. simpl.
  rewrite decide_False by (unfold len; lia).
  by rewrite index_negative.
Qed.

Lemma pickStepYAML_negative_index_panics_witness :
  @pickStepYAML demo_parser identity_expand bracket_colors block_document (-1)
  = Panic "index out of range".
Proof.
  apply (@pickStepYAML_negative_index_panics demo_parser identity_expand
           bracket_colors block_document block_document
           (mkAreas (Some (mkArea 1 1)) None None [mkArea 3 4]) (-1)).
  - reflexivity.
  - by vm_compute.
  - lia.
Defined.

(* ----------------------------------------------------------------- *)
(** ** Runner keys allocated from an empty map *)

Lemma string_app_inj_l (p s1 s2 : string) : p +:+ s1 = p +:+ s2 → s1 = s2.
Proof. induction p as [|c p IH]; simpl; [done|]. intros [= ?]. by apply IH. Qed.

Lemma family_key_inj f1 n1 f2 n2 :
  family_key f1 n1 = family_key f2 n2 → f1 = f2 ∧ n1 = n2.
Proof.
  intros Hk.
  assert (f1 = f2) as <-.
  { destruct f1, f2, n1, n2; done. }
  split; [done|].
  destruct n1 as [|n1], n2 as [|n2]; unfold family_key in Hk; [done| | |].
  - exfalso. pose proof (Itoa_length_pos (Z.of_nat (S n2) + 1)) as Hlen.
    apply (f_equal String.length) in Hk.
    rewrite string_app_length in Hk.
    set (digits := Itoa _) in *. clearbody digits.
    destruct f1; simpl in Hk; lia.
  - exfalso. pose proof (Itoa_length_pos (Z.of_nat (S n1) + 1)) as Hlen.
    apply (f_equal String.length) in Hk.
    rewrite string_app_length in Hk.
    set (digits := Itoa _) in *. clearbody digits.
    destruct f1; simpl in Hk; lia.
  - apply string_app_inj_l in Hk. unfold Itoa in Hk.
    apply (inj pretty) in Hk. lia.
Qed.

Lemma well_keyed_fresh m dsn :
  well_keyed m →
  m !! family_key (family_of dsn) (family_count (family_of dsn) m) = None.
Proof.
  intros Hwk.
  destruct (m !! family_key _ _) as [v|] eqn:Hk; [|done].
  destruct (Hwk _ _ Hk) as (dsn' & n & -> & Hkey & Hn).
  apply family_key_inj in Hkey as [Hf <-]. rewrite <- Hf in Hn. lia.
Qed.

Lemma well_keyed_insert m dsn :
  well_keyed m →
  well_keyed (<[family_key (family_of dsn) (family_count (family_of dsn) m)
                := VString dsn]> m).
Proof.
  intros Hwk k v Hk.
  pose proof (well_keyed_fresh m dsn Hwk) as Hfresh.
  destruct (decide (family_key (family_of dsn)
                      (family_count (family_of dsn) m) = k)) as [<-|Hne].
  - rewrite lookup_insert_eq in Hk. injection Hk as <-.
    exists dsn, (family_count (family_of dsn) m). split; [done|]. split; [done|].
    rewrite family_count_insert_same by done. lia.
  - rewrite lookup_insert_ne in Hk by done.
    destruct (Hwk k v Hk) as (dsn' & n & -> & -> & Hn).
    exists dsn', n. split; [done|]. split; [done|].
    destruct (decide (family_of dsn = family_of dsn')) as [Heq|Hdiff].
    + rewrite <- Heq. rewrite family_count_insert_same by done.
      rewrite Heq. lia.
    + by rewrite family_count_insert_other.
Qed.

Lemma allocated_well_keyed m : allocated m → well_keyed m.
Proof.
  induction 1 as [|m dsn _ IH Hno].
  - intros k v Hk. by rewrite lookup_empty in Hk.
  - by apply well_keyed_insert.
Qed.

(** In a map built by [setRunner] alone the next key is always free:
    there the new key never collides and the family grows by one. *)
Lemma allocated_key_fresh m dsn :
  allocated m →
  m !! family_key (family_of dsn) (family_count (family_of dsn) m) = None.
Proof. intros Hal. by apply well_keyed_fresh, allocated_well_keyed. Qed.

Section setRunner_again.
Context `{!MapOrder}.

End setRunner_again.

(* ================================================================= *)
(** * Further properties *)

(* ----------------------------------------------------------------- *)
(** ** Keyed documents *)

Section keyed_documents.
Context `{!Fmt}.

Lemma with_steps_nil rb : with_steps [] [] rb = rb.
Proof. destruct rb. unfold with_steps, set_Steps, set_stepKeys. simpl.
  by rewrite !app_nil_r. Qed.

Lemma with_steps_cons k v ks bodies rb :
  with_steps ks bodies (with_steps [k] [v] rb)
  = with_steps (k :: ks) (v :: bodies) rb.
Proof.
  unfold with_steps, set_Steps, set_stepKeys. simpl.
  by rewrite <- !app_assoc.
Qed.

(** The loop accepts a list of well-typed items whose keys are new and
    pairwise different, and appends keys and bodies in order. *)
Lemma parseMappedSteps_accepts (kvs : list (string * MapSlice)) : ∀ keys rb,
  NoDup kvs.*1 → (∀ k, k ∈ kvs.*1 → k ∉ keys) →
  parseMappedSteps (keyed_steps kvs) keys rb
  = (None, with_steps kvs.*1 kvs.*2 rb).
Proof.
  induction kvs as [|[k v] kvs IH]; intros keys rb Hnd Hnew; simpl.
  - by rewrite with_steps_nil.
  - apply NoDup_cons in Hnd as [Hk Hnd].
    rewrite decide_False by (apply Hnew; left).
    change (set_Steps _ _) with (with_steps [k] [v] rb).
    rewrite IH; [by rewrite with_steps_cons|done|].
    intros k' Hk' [->%elem_of_singleton|Hin]%elem_of_union; [done|].
    apply (Hnew k'); [by right|done].
Qed.

(** The first item whose key was seen before stops the loop, after its
    key and body have been appended. *)
Lemma parseMappedSteps_duplicate (pre : list (string * MapSlice)) k v post :
  ∀ keys rb,
  NoDup pre.*1 → (∀ k', k' ∈ pre.*1 → k' ∉ keys) →
  k ∈ pre.*1 ∨ k ∈ keys →
  parseMappedSteps (keyed_steps (pre ++ (k, v) :: post)) keys rb
  = (Some ("duplicate step keys: " +:+ k),
     with_steps (pre.*1 ++ [k]) (pre.*2 ++ [v]) rb).
Proof.
  induction pre as [|[k0 v0] pre IH]; intros keys rb Hnd Hnew Hseen; simpl.
  - destruct Hseen as [Hin|Hin]; [by apply elem_of_nil in Hin|].
    by rewrite decide_True by done.
  - apply NoDup_cons in Hnd as [Hk0 Hnd].
    rewrite decide_False by (apply Hnew; left).
    change (set_Steps _ _) with (with_steps [k0] [v0] rb).
    fold (keyed_steps (pre ++ (k, v) :: post)).
    rewrite IH; [by rewrite with_steps_cons|done| |].
    + intros k' Hk' [->%elem_of_singleton|Hin]%elem_of_union; [done|].
      apply (Hnew k'); [by right|done].
    + destruct Hseen as [[->|Hin]%elem_of_cons|Hin].
      * right. apply elem_of_union. left. by apply elem_of_singleton.
      * by left.
      * right. apply elem_of_union. by right.
Qed.

(** An item of the wrong shape stops the loop before anything of it is
    appended. *)
Lemma parseMappedSteps_ill_typed (pre : list (string * MapSlice)) s post :
  ∀ keys rb,
  NoDup pre.*1 → (∀ k', k' ∈ pre.*1 → k' ∉ keys) →
  ill_typed_item s →
  parseMappedSteps (keyed_steps pre ++ s :: post) keys rb
  = (Some ("failed to parse as mapped steps: " +:+ Sprintf_v (MapItem s)),
     with_steps pre.*1 pre.*2 rb).
Proof.
  induction pre as [|[k0 v0] pre IH]; intros keys rb Hnd Hnew Hill; simpl.
  - rewrite with_steps_nil. destruct s as [[] []]; done.
  - apply NoDup_cons in Hnd as [Hk0 Hnd].
    rewrite decide_False by (apply Hnew; left).
    change (set_Steps _ _) with (with_steps [k0] [v0] rb).
    fold (keyed_steps pre).
    rewrite IH; [by rewrite with_steps_cons|done| |done].
    intros k' Hk' [->%elem_of_singleton|Hin]%elem_of_union; [done|].
    apply (Hnew k'); [by right|done].
Qed.
End keyed_documents.

(** X1: a keyed document whose step items all have a string key and a
    key-value body, with pairwise different keys, is accepted: the
    receiver takes the document's description, runners, variables and
    flags, is switched to keyed mode, and gets the keys and the bodies
    appended in document order.  The [loop] and [concurrency] fields of
    the document are not copied. *)
Theorem parseRunbookMapped_accepts `{!Fmt, !YamlDecoder} (b : string)
    (m : runbookMapped) (kvs : list (string * MapSlice)) (rb : runbook) :
  Unmarshal_mapped b = inr m →
  mSteps m = keyed_steps kvs →
  NoDup kvs.*1 →
  parseRunbookMapped b rb
  = (None, with_steps kvs.*1 kvs.*2 (mapped_header m rb))
  ∧ Loop (parseRunbookMapped b rb).2 = Loop rb
  ∧ Concurrency (parseRunbookMapped b rb).2 = Concurrency rb.
Proof.
  intros Hm Hsteps Hnd.
  assert (parseRunbookMapped b rb
          = (None, with_steps kvs.*1 kvs.*2 (mapped_header m rb))) as Hrun.
  { unfold parseRunbookMapped. rewrite Hm, Hsteps.
    apply parseMappedSteps_accepts; [done|]. intros k _. apply not_elem_of_empty. }
  split; [exact Hrun|]. by rewrite Hrun.
Qed.

Lemma parseRunbookMapped_accepts_witness :
  @parseRunbookMapped plain_fmt (keyed_decoder doc_ab) "steps" (NewRunbook "")
  = (None,
     mkRunbook "two steps" None None [step_exec "ls"; step_exec "pwd"] false
       "" "" false VNil "" false true ["a"; "b"]).
Proof.
  destruct (@parseRunbookMapped_accepts plain_fmt (keyed_decoder doc_ab) "steps"
              doc_ab [("a", step_exec "ls"); ("b", step_exec "pwd")]
              (NewRunbook "") eq_refl eq_refl) as [Hrun _].
  - by apply (bool_decide_unpack _).
  - exact Hrun.
Defined.

(** X2: the two ways a decoded keyed document is rejected.  At the first
    item whose key occurred before, the error is "duplicate step keys"
    with that key, and the receiver has already taken the key and the
    body of that item; at the first item whose key is not a string or
    whose value is not a key-value list, the error is "failed to parse
    as mapped steps" and nothing of that item is taken.  In both cases
    the items before it stay appended. *)
Theorem parseRunbookMapped_rejects `{!Fmt, !YamlDecoder} (b : string)
    (m : runbookMapped) (rb : runbook) :
  Unmarshal_mapped b = inr m →
  (∀ pre k v post,
     mSteps m = keyed_steps (pre ++ (k, v) :: post) →
     NoDup pre.*1 → k ∈ pre.*1 →
     parseRunbookMapped b rb
     = (Some ("duplicate step keys: " +:+ k),
        with_steps (pre.*1 ++ [k]) (pre.*2 ++ [v]) (mapped_header m rb)))
  ∧ (∀ pre s post,
       mSteps m = keyed_steps pre ++ s :: post →
       NoDup pre.*1 → ill_typed_item s →
       parseRunbookMapped b rb
       = (Some ("failed to parse as mapped steps: " +:+ Sprintf_v (MapItem s)),
          with_steps pre.*1 pre.*2 (mapped_header m rb))).
Proof.
  intros Hm. split.
  - intros pre k v post Hsteps Hnd Hin.
    unfold parseRunbookMapped. rewrite Hm, Hsteps.
    apply parseMappedSteps_duplicate; [done| |by left].
    intros k' _. apply not_elem_of_empty.
  - intros pre s post Hsteps Hnd Hill.
    unfold parseRunbookMapped. rewrite Hm, Hsteps.
    apply parseMappedSteps_ill_typed; [done| |done].
    intros k' _. apply not_elem_of_empty.
Qed.

Lemma parseRunbookMapped_rejects_witness :
  @parseRunbookMapped plain_fmt (keyed_decoder doc_aa) "steps" (NewRunbook "")
  = (Some "duplicate step keys: a",
     mkRunbook "twice a" None None [step_exec "ls"; step_exec "pwd"] false
       "" "" false VNil "" false true ["a"; "a"])
  ∧ @parseRunbookMapped plain_fmt (keyed_decoder doc_ill) "steps" (NewRunbook "")
    = (Some "failed to parse as mapped steps: ?",
       mkRunbook "ill typed" None None [step_exec "ls"] false
         "" "" false VNil "" false true ["a"]).
Proof.
  split.
  - destruct (@parseRunbookMapped_rejects plain_fmt (keyed_decoder doc_aa)
                "steps" doc_aa (NewRunbook "") eq_refl) as [Hdup _].
    apply (Hdup [("a", step_exec "ls")] "a" (step_exec "pwd") []).
    + reflexivity.
    + by apply (bool_decide_unpack _).
    + by apply (bool_decide_unpack _).
  - destruct (@parseRunbookMapped_rejects plain_fmt (keyed_decoder doc_ill)
                "steps" doc_ill (NewRunbook "") eq_refl) as [_ Hill].
    apply (Hill [("a", step_exec "ls")] (VString "b", VSlice []) []).
    + reflexivity.
    + by apply (bool_decide_unpack _).
    + exact I.
Defined.

Lemma parseRunbookMapped_aligned_witness :
  keys_aligned (NewRunbook "")
  ∧ keys_aligned
      (@parseRunbookMapped plain_fmt (keyed_decoder doc_aa) "steps"
         (NewRunbook "")).2.
Proof.
  split; [reflexivity|].
  apply (@parseRunbookMapped_aligned plain_fmt (keyed_decoder doc_aa)).
  reflexivity.
Defined.

(** The items [MarshalYAML] writes for aligned keys and steps. *)
Lemma imap_keyed_steps (keys : list string) : ∀ steps : list MapSlice,
  length keys = length steps →
  imap (fun i k => (VString k, VMapSlice (default [] (steps !! i)))) keys
  = keyed_steps (zip keys steps).
Proof.
  induction keys as [|k keys IH]; intros [|s steps] Hlen; try done.
  injection Hlen as Hlen. simpl. f_equal. by rewrite <- (IH steps Hlen).
Qed.



(* ----------------------------------------------------------------- *)
(** ** Step synthesis *)

Section synthesis.
Context `{!Fmt, !MapOrder, !Capture}.

Lemma same_controls_refl rb : same_controls rb rb.
Proof. by repeat split. Qed.

Lemma same_controls_trans rb1 rb2 rb3 :
  same_controls rb1 rb2 → same_controls rb2 rb3 → same_controls rb1 rb3.
Proof.
  unfold same_controls. intros (?&?&?&?&?&?&?&?&?) (?&?&?&?&?&?&?&?&?).
  repeat split; congruence.
Qed.

(** [setRunner] writes the runners map only, and at most one entry. *)
Lemma setRunner_frame dsn rb key rb' :
  setRunner dsn rb = Return (key, rb') →
  runners_grow rb rb' ∧ same_controls rb rb'.
Proof.
  unfold setRunner. destruct (scanRunners _ _ _) as [k|c].
  - intros [= _ <-]. split; [by left|apply same_controls_refl].
  - destruct (Runners rb) as [m|] eqn:Hm; [|done]. intros [= _ <-]. split.
    + right. by exists m, (newRunnerKey dsn c), dsn.
    + by repeat split.
Qed.

(** Each builder: at most one runners entry, nothing else but steps. *)
Lemma curlToStep_frame in_ rb err rb' :
  curlToStep in_ rb = Return (err, rb') →
  runners_grow rb rb' ∧ same_controls rb rb'.
Proof.
  unfold curlToStep, appendStep. unfold_M.
  destruct (curlreq_NewRequest in_) as [e|req].
  { intros [= <- <-]. split; [by left|apply same_controls_refl]. }
  destruct (index _ 0) as [s0|]; [|done].
  destruct (setRunner _ rb) as [[key rb1]|] eqn:Hset; [|done].
  apply setRunner_frame in Hset.
  destruct (CreateHTTPStepMapSlice key req) as [e|step]; by intros [= <- <-].
Qed.

Lemma grpcurlToStep_frame in_ rb err rb' :
  grpcurlToStep in_ rb = Return (err, rb') →
  runners_grow rb rb' ∧ same_controls rb rb'.
Proof.
  unfold grpcurlToStep, appendStep. unfold_M.
  destruct (grpcurlreq_Parse in_) as [e|p].
  { intros [= <- <-]. split; [by left|apply same_controls_refl]. }
  case_decide.
  { intros [= <- <-]. split; [by left|apply same_controls_refl]. }
  destruct (setRunner _ rb) as [[key rb1]|] eqn:Hset; [|done].
  apply setRunner_frame in Hset.
  destruct (firstHeaders _ _) as [h|]; [|done]. by intros [= <- <-].
Qed.

Lemma axsLogToStep_frame in_ rb err rb' :
  axsLogToStep in_ rb = Return (err, rb') →
  runners_grow rb rb' ∧ same_controls rb rb'.
Proof.
  unfold axsLogToStep, appendStep. unfold_M.
  destruct (axslogparser_GuessParser _) as [e|l].
  { intros [= <- <-]. split; [by left|apply same_controls_refl]. }
  destruct (setRunner _ rb) as [[key rb1]|] eqn:Hset; [|done].
  apply setRunner_frame in Hset.
  destruct (http_NewRequest _ _) as [e|req]; [by intros [= <- <-]|].
  destruct (CreateHTTPStepMapSlice key _) as [e|step]; by intros [= <- <-].
Qed.

Lemma cmdToStep_run in_ rb :
  cmdToStep in_ rb = Return (None, set_Steps (Steps rb ++ [exec_step in_]) rb).
Proof. reflexivity. Qed.

(** [AppendStep] on a non-empty argument list: the key step, then the
    dispatch. *)
Lemma AppendStep_unfold in0 rest rb :
  AppendStep (in0 :: rest) rb =
  (if HasPrefix in0 "curl" then curlToStep (in0 :: rest)
   else if HasPrefix in0 "grpcurl" then grpcurlToStep (in0 :: rest)
   else if decide (len (in0 :: rest) = 1) then
     fun rb1 =>
       match axsLogToStep (in0 :: rest) rb1 with
       | Return (a2, rb2) =>
           match a2 with
           | Some _ => cmdToStep (in0 :: rest)
           | None => fun rb3 => Return (None, rb3)
           end rb2
       | Panic msg => Panic msg
       end
   else cmdToStep (in0 :: rest))
    (set_stepKeys (stepKeys rb ++ appended_keys in0 rb) rb).
Proof.
  unfold AppendStep, appended_keys. unfold_M.
  destruct (useMap rb) eqn:HU; simpl; [done|].
  rewrite app_nil_r. by destruct rb.
Qed.
End synthesis.

(** X5: what a call of [AppendStep] that returns nil has done: exactly
    one step is appended; in keyed mode exactly one key is appended,
    the first token followed by the number of keys there were, and
    otherwise the key list is untouched; the addressing mode is kept. *)
Theorem AppendStep_ok_effect `{!Fmt, !MapOrder, !Capture}
    (in0 : string) (rest : list string) (rb rb' : runbook) :
  AppendStep (in0 :: rest) rb = Return (None, rb') →
  useMap rb' = useMap rb
  ∧ stepKeys rb' = stepKeys rb ++ appended_keys in0 rb
  ∧ ∃ step, Steps rb' = Steps rb ++ [step].
Proof.
  rewrite AppendStep_unfold. intros (HK & HU & HS)%dispatch_builds.
  simpl in *. by rewrite HU, HK.
Qed.

Lemma AppendStep_ok_effect_witness :
  ∃ rb',
    @AppendStep plain_fmt forward_order rejecting_capture ["echo"; "hello world"]
      empty_keyed_runbook = Return (None, rb')
    ∧ useMap rb' = true
    ∧ stepKeys rb' = ["echo0"]
    ∧ ∃ step, Steps rb' = [] ++ [step].
Proof.
  eexists. split; [reflexivity|].
  apply (@AppendStep_ok_effect plain_fmt forward_order rejecting_capture
           "echo" ["hello world"] empty_keyed_runbook).
  reflexivity.
Defined.

(** X6: a first token that starts with neither [curl] nor [grpcurl]
    never makes [AppendStep] return an error: the log-replay attempt
    falls back to the shell capture, which cannot fail.  With more than
    one token the log replay is not tried at all: the call returns nil,
    appends the [exec] step with the joined command (and the key in
    keyed mode) and leaves everything else, the runners included, as it
    was. *)
Theorem AppendStep_shell_fallback `{!Fmt, !MapOrder, !Capture}
    (in0 : string) (rest : list string) (rb : runbook) :
  HasPrefix in0 "curl" = false →
  HasPrefix in0 "grpcurl" = false →
  (∀ err rb', AppendStep (in0 :: rest) rb ≠ Return (Some err, rb'))
  ∧ (rest ≠ [] →
     AppendStep (in0 :: rest) rb
     = Return (None,
         with_steps (appended_keys in0 rb) [exec_step (in0 :: rest)] rb)).
Proof.
  intros Hcurl Hgrpc. rewrite AppendStep_unfold, Hcurl, Hgrpc. split.
  - intros err rb'. case_decide; [|by rewrite cmdToStep_run].
    destruct (axsLogToStep _ _) as [[[e|] r]|]; [|done..].
    by rewrite cmdToStep_run.
  - intros Hrest. rewrite decide_False; [by rewrite cmdToStep_run|].
    unfold len. destruct rest; [done|]. simpl. lia.
Qed.

Lemma AppendStep_shell_fallback_witness :
  @AppendStep plain_fmt forward_order broken_log_capture ["echo"; "hello world"]
    (NewRunbook "")
  = Return (None,
      set_Steps
        [[(VString "exec",
           VMapSlice [(VString "command",
                       VString ("echo `hello world`" +:+ LF))])]]
        (NewRunbook "")).
Proof.
  destruct (@AppendStep_shell_fallback plain_fmt forward_order
              broken_log_capture "echo" ["hello world"] (NewRunbook "")
              eq_refl eq_refl) as [_ Hrun].
  rewrite Hrun; [reflexivity|done].
Defined.

Section synthesis_frame.
Context `{!Fmt, !MapOrder, !Capture}.

Lemma runners_grow_after_keys ks rb rb' :
  runners_grow (set_stepKeys ks rb) rb' → runners_grow rb rb'.
Proof. done. Qed.

Lemma dispatch_frame in0 rest rb err rb' :
  (if HasPrefix in0 "curl" then curlToStep (in0 :: rest)
   else if HasPrefix in0 "grpcurl" then grpcurlToStep (in0 :: rest)
   else if decide (len (in0 :: rest) = 1) then
     fun rb1 =>
       match axsLogToStep (in0 :: rest) rb1 with
       | Return (a2, rb2) =>
           match a2 with
           | Some _ => cmdToStep (in0 :: rest)
           | None => fun rb3 => Return (None, rb3)
           end rb2
       | Panic msg => Panic msg
       end
   else cmdToStep (in0 :: rest)) rb = Return (err, rb') →
  runners_grow rb rb' ∧ same_controls rb rb'.
Proof.
  destruct (HasPrefix in0 "curl"); [apply curlToStep_frame|].
  destruct (HasPrefix in0 "grpcurl"); [apply grpcurlToStep_frame|].
  case_decide.
  - destruct (axsLogToStep _ rb) as [[[e|] r]|] eqn:Hax; [| |done].
    + apply axsLogToStep_frame in Hax. rewrite cmdToStep_run.
      by intros [= <- <-].
    + apply axsLogToStep_frame in Hax. by intros [= <- <-].
  - rewrite cmdToStep_run. intros [= <- <-].
    split; [by left|by repeat split].
Qed.
End synthesis_frame.

(** X7: the side effects of [AppendStep] besides keys and steps: it
    stores at most one entry in the runners map (a string destination
    under one key, and only into a map that is allocated) and never
    writes the description, the variables or any of the control
    fields, whatever it returns. *)
Theorem AppendStep_runners_effect `{!Fmt, !MapOrder, !Capture}
    (in_ : list string) (rb rb' : runbook) (err : option error) :
  AppendStep in_ rb = Return (err, rb') →
  runners_grow rb rb' ∧ same_controls rb rb'.
Proof.
  destruct in_ as [|in0 rest].
  - intros [= _ <-]. split; [by left|by repeat split].
  - rewrite AppendStep_unfold. by intros [Hgrow Hsame]%dispatch_frame.
Qed.

Lemma AppendStep_runners_effect_witness :
  ∃ rb',
    @AppendStep plain_fmt forward_order example_curl_capture ["curl"]
      (NewRunbook "") = Return (None, rb')
    ∧ runners_grow (NewRunbook "") rb'
    ∧ same_controls (NewRunbook "") rb'.
Proof.
  destruct (@AppendStep plain_fmt forward_order example_curl_capture ["curl"]
              (NewRunbook "")) as [[[e|] rb']|] eqn:Hrun;
    [by vm_compute in Hrun| |by vm_compute in Hrun].
  exists rb'. split; [done|].
  exact (@AppendStep_runners_effect plain_fmt forward_order
           example_curl_capture ["curl"] (NewRunbook "") rb' None Hrun).
Defined.

Section runner_reuse.
Context `{!MapOrder}.

Lemma scanRunners_inl dsn kvs : ∀ c k,
  scanRunners dsn kvs c = inl k → (k, VString dsn) ∈ kvs.
Proof.
  induction kvs as [|[k0 v] kvs IH]; intros c k; simpl; [done|].
  destruct v; try (intros ?%IH; by right).
  case_decide as Hs.
  - intros [= <-]. subst. left.
  - intros ?%IH. by right.
Qed.

Lemma scanRunners_inr dsn kvs c c' :
  scanRunners dsn kvs c = inr c' → ∀ k, (k, VString dsn) ∉ kvs.
Proof.
  intros Hscan k Hin.
  destruct (scanRunners_found dsn kvs c (ex_intro _ k Hin)) as (k' & Hk' & _).
  congruence.
Qed.



(** On an allocated map [setRunner] returns, and afterwards the key it
    returned holds the destination. *)
Lemma setRunner_returns dsn rb (m : gmap string value) :
  Runners rb = Some m →
  ∃ key rb', setRunner dsn rb = Return (key, rb')
             ∧ entries (Runners rb') !! key = Some (VString dsn).
Proof.
  intros Hm. unfold setRunner. rewrite Hm. simpl.
  destruct (scanRunners _ _ _) as [k|c] eqn:Hscan.
  - exists k, rb. split; [done|]. rewrite Hm. simpl.
    apply elem_of_range. by eapply scanRunners_inl.
  - eexists _, _. split; [done|]. simpl. apply lookup_insert_eq.
Qed.
End runner_reuse.

(** X8: a log-replay attempt that fails after its runner was allocated
    leaves that runner behind.  For a single token that the access-log
    parser recognises but whose request cannot be built, [AppendStep]
    returns nil with an [exec] step for the token, and the runners map
    has gained the dummy HTTP destination under the next HTTP key. *)
Theorem AppendStep_log_replay_keeps_runner `{!Fmt, !MapOrder, !Capture}
    (in0 : string) (rb : runbook) (m : gmap string value) (l : Log)
    (e : error) :
  HasPrefix in0 "curl" = false →
  HasPrefix in0 "grpcurl" = false →
  axslogparser_GuessParser in0 = inr l →
  http_NewRequest (logMethod l) (RequestURI l) = inl e →
  Runners rb = Some m →
  (∀ k, m !! k ≠ Some (VString "https://dummy.example.com")) →
  AppendStep [in0] rb
  = Return (None,
      with_steps (appended_keys in0 rb) [exec_step [in0]]
        (set_Runners
           (Some (<[family_key HTTP (family_count HTTP m)
                    := VString "https://dummy.example.com"]> m)) rb)).
Proof.
  intros Hcurl Hgrpc Hlog Hreq Hm Hno.
  rewrite AppendStep_unfold, Hcurl, Hgrpc.
  rewrite decide_True by done.
  unfold axsLogToStep. unfold_M. rewrite Hlog.
  rewrite (setRunner_new _ m "https://dummy.example.com") by done.
  rewrite Hreq. by rewrite cmdToStep_run.
Qed.

Lemma AppendStep_log_replay_keeps_runner_witness :
  @AppendStep plain_fmt forward_order broken_log_capture ["x"] (NewRunbook "")
  = Return (None,
      with_steps [] [@exec_step plain_fmt ["x"]]
        (set_Runners (Some {[ "req" := VString "https://dummy.example.com" ]})
           (NewRunbook ""))).
Proof.
  rewrite (@AppendStep_log_replay_keeps_runner plain_fmt forward_order
             broken_log_capture "x" (NewRunbook "") ∅
             (mkLog "BAD METHOD" "/index.html" "") "net/http: invalid method");
    try reflexivity; try by vm_compute.
Defined.





Lemma setRunner_nil_map_witness :
  Runners empty_keyed_runbook = None
  ∧ @setRunner forward_order "http://a.example.com" empty_keyed_runbook
    = Panic "assignment to entry in nil map".
Proof.
  split; [reflexivity|].
  apply (@setRunner_nil_map forward_order). reflexivity.
Defined.

(* ----------------------------------------------------------------- *)
(** ** Runner maps built by [setRunner] *)

Lemma allocated_strings m k v :
  allocated m → m !! k = Some v → ∃ dsn, v = VString dsn.
Proof.
  intros Hal Hk. destruct (allocated_well_keyed m Hal k v Hk) as (dsn & _ & -> & _).
  eauto.
Qed.

(** No destination is held twice. *)
Lemma allocated_injective m :
  allocated m → ∀ k1 k2 dsn,
  m !! k1 = Some (VString dsn) → m !! k2 = Some (VString dsn) → k1 = k2.
Proof.
  induction 1 as [|m d Hal IH Hno]; intros k1 k2 dsn H1 H2.
  - by rewrite lookup_empty in H1.
  - set (key := family_key _ _) in *.
    destruct (decide (key = k1)) as [<-|Hne1], (decide (key = k2)) as [<-|Hne2];
      [done|..].
    + rewrite lookup_insert_eq in H1. injection H1 as ->.
      rewrite lookup_insert_ne in H2 by done. by destruct (Hno k2).
    + rewrite lookup_insert_eq in H2. injection H2 as ->.
      rewrite lookup_insert_ne in H1 by done. by destruct (Hno k1).
    + rewrite lookup_insert_ne in H1, H2 by done. by eapply IH.
Qed.

Lemma set_Runners_same rb m : Runners rb = Some m → set_Runners (Some m) rb = rb.
Proof. destruct rb. simpl. by intros ->. Qed.

(** X12: the maps that [setRunner] builds are closed under [setRunner].
    On a runners map built from the empty map by [setRunner] alone, the
    call returns a key that holds the destination afterwards, and the
    resulting map is again such a map: either the map is unchanged (the
    destination was there), or the key was free, the destination is
    stored under it and its family has exactly one entry more. *)
Theorem setRunner_allocated `{!MapOrder} (rb : runbook)
    (m : gmap string value) (dsn : string) :
  Runners rb = Some m →
  allocated m →
  ∃ key m',
    setRunner dsn rb = Return (key, set_Runners (Some m') rb)
    ∧ allocated m'
    ∧ m' !! key = Some (VString dsn)
    ∧ (m' = m
       ∨ (m !! key = None ∧ m' = <[key := VString dsn]> m
          ∧ family_count (family_of dsn) m'
            = S (family_count (family_of dsn) m))).
Proof.
  intros Hm Hal.
  destruct (scanRunners dsn (range m) (mkCounters 0 0 0)) as [k|c] eqn:Hscan.
  - pose proof (scanRunners_inl _ _ _ _ Hscan) as Hk.
    apply elem_of_range in Hk.
    exists k, m. split; [|by eauto].
    unfold setRunner. rewrite Hm. simpl. rewrite Hscan.
    by rewrite set_Runners_same.
  - assert (∀ k, m !! k ≠ Some (VString dsn)) as Hno.
    { intros k Hk. eapply scanRunners_inr; [exact Hscan|]. by apply elem_of_range. }
    pose proof (allocated_key_fresh m dsn Hal) as Hfresh.
    eexists _, _. split; [by apply setRunner_new|].
    split; [by constructor|]. split; [apply lookup_insert_eq|].
    right. split; [done|]. split; [done|].
    by apply family_count_insert_same.
Qed.

(** The map after the first HTTP destination. *)
Example allocated_single :
  allocated {[ "req" := VString "http://a.example.com" ]}.
Proof.
  replace ({[ "req" := VString "http://a.example.com" ]} : gmap string value)
    with (<[family_key (family_of "http://a.example.com")
              (family_count (family_of "http://a.example.com") ∅)
            := VString "http://a.example.com"]> (∅ : gmap string value))
    by (by vm_compute).
  apply allocated_insert; [constructor|]. intros k. by rewrite lookup_empty.
Qed.

Lemma setRunner_allocated_witness :
  ∃ key m',
    @setRunner forward_order "http://b.example.com"
      (runbook_with_runners {[ "req" := VString "http://a.example.com" ]})
    = Return (key, set_Runners (Some m')
        (runbook_with_runners {[ "req" := VString "http://a.example.com" ]}))
    ∧ allocated m'
    ∧ m' !! key = Some (VString "http://b.example.com").
Proof.
  destruct (@setRunner_allocated forward_order
              (runbook_with_runners {[ "req" := VString "http://a.example.com" ]})
              {[ "req" := VString "http://a.example.com" ]}
              "http://b.example.com" eq_refl allocated_single)
    as (key & m' & Hrun & Hal' & Hkey & _).
  exists key, m'. split; [exact Hrun|]. split; [exact Hal'|exact Hkey].
Defined.

(** X13: on a runners map built by [setRunner] alone the result of
    [setRunner] does not depend on the order in which the [range] loop
    visits the map: there no destination is held by two keys. *)
Theorem setRunner_allocated_order (O1 O2 : MapOrder) (rb : runbook)
    (m : gmap string value) (dsn : string) :
  Runners rb = Some m →
  allocated m →
  @setRunner O1 dsn rb = @setRunner O2 dsn rb.
Proof.
  intros Hm Hal.
  destruct (scanRunners dsn (@range O1 _ m) (mkCounters 0 0 0)) as [k|c] eqn:Hscan.
  - pose proof (scanRunners_inl _ _ _ _ Hscan) as Hk.
    apply (@elem_of_range O1) in Hk.
    assert (entries (Runners rb) !! k = Some (VString dsn)) as Hk'
      by (by rewrite Hm).
    destruct (@setRunner_found O1 rb dsn k Hk') as (k1 & -> & Hk1).
    destruct (@setRunner_found O2 rb dsn k Hk') as (k2 & -> & Hk2).
    rewrite Hm in Hk1, Hk2. simpl in *.
    by rewrite (allocated_injective m Hal k1 k2 dsn Hk1 Hk2).
  - assert (∀ k, m !! k ≠ Some (VString dsn)) as Hno.
    { intros k Hk. eapply scanRunners_inr; [exact Hscan|].
      by apply (@elem_of_range O1). }
    by rewrite (@setRunner_new O1 rb m dsn Hm Hno),
               (@setRunner_new O2 rb m dsn Hm Hno).
Qed.

Lemma setRunner_allocated_order_witness :
  @setRunner forward_order "http://a.example.com"
    (runbook_with_runners {[ "req" := VString "http://a.example.com" ]})
  = @setRunner backward_order "http://a.example.com"
      (runbook_with_runners {[ "req" := VString "http://a.example.com" ]}).
Proof.
  apply (setRunner_allocated_order forward_order backward_order _
           {[ "req" := VString "http://a.example.com" ]}).
  - reflexivity.
  - exact allocated_single.
Defined.

(* ----------------------------------------------------------------- *)
(** ** Normal forms *)

Section canonical_facts.
Context `{!Fmt}.

Lemma normalize_canonical_sized n : ∀ v, (vsize v < n)%nat → canonical (normalize v).
Proof.
  induction n as [|n IH]; [lia|].
  intros v Hv. destruct v; try (by apply canonical_default).
  - (* int *) simpl. case_decide; by apply canonical_default.
  - (* []any *) simpl in *. apply canonical_slice. apply Forall_fmap, Forall_forall.
    intros x Hx. simpl. apply IH.
    pose proof (vsize_slice_elem l x Hx). lia.
  - (* map[any]any *) simpl in *. apply canonical_map.
    intros k x (kv & Hin & ->)%assign_all_lookup. apply IH.
    pose proof (vsize_items_elem kvs kv Hin). lia.
  - (* map[string]any *) simpl in *. apply canonical_map.
    intros k x. rewrite lookup_fmap.
    destruct (m !! k) as [y|] eqn:Hy; simpl; [|done]. intros [= <-]. apply IH.
    pose proof (vsize_map_elem m k y Hy). lia.
  - (* []map[string]any *)
    rewrite normalize_VSliceMap. apply canonical_maps.
    apply Forall_fmap, Forall_forall. intros m Hm k x. simpl.
    rewrite lookup_fmap.
    destruct (m !! k) as [y|] eqn:Hy; simpl; [|done]. intros [= <-]. apply IH.
    pose proof (vsize_maps_elem l m Hm).
    pose proof (vsize_map_elem m k y Hy). simpl in *. lia.
  - (* yaml.MapSlice *) simpl in *. apply canonical_map.
    intros k x (kv & Hin & ->)%assign_all_lookup. apply IH.
    pose proof (vsize_items_elem items kv Hin). lia.
Qed.

Lemma canonical_fixed_sized n : ∀ v,
  (vsize v < n)%nat → canonical v → normalize v = v.
Proof.
  induction n as [|n IH]; [lia|].
  intros v Hv Hc. inversion Hc as [v' Hp|l Hl|m Hm|l Hl]; subst.
  - by destruct v.
  - simpl in *. f_equal. rewrite <- (list_fmap_id l) at 2.
    apply list_fmap_ext. intros i x Hx. simpl.
    pose proof (list_elem_of_lookup_2 _ _ _ Hx) as Hin.
    apply IH; [|by eapply (proj1 (Forall_forall _ _) Hl)].
    pose proof (vsize_slice_elem l x Hin). lia.
  - simpl in *. f_equal. apply fmap_fixed. intros k x Hx.
    apply IH; [|by apply (Hm k)].
    pose proof (vsize_map_elem m k x Hx). lia.
  - rewrite normalize_VSliceMap. f_equal. rewrite <- (list_fmap_id l) at 2.
    apply list_fmap_ext. intros i m Hm. simpl.
    pose proof (list_elem_of_lookup_2 _ _ _ Hm) as Hin.
    apply fmap_fixed. intros k x Hx.
    apply IH; [|by apply (proj1 (Forall_forall _ _) Hl m Hin k)].
    pose proof (vsize_maps_elem l m Hin).
    pose proof (vsize_map_elem m k x Hx). simpl in *. lia.
Qed.

(** What the loop over a key-value list leaves under a key. *)
Lemma assign_all_last (norm : value → value) (kvs : list (value * value)) k :
  assign_all norm kvs !! k = (fun kv => norm kv.2) <$> last (printed_as k kvs).
Proof.
  unfold assign_all, printed_as.
  assert (∀ acc : gmap string value,
    foldl (fun res kv => <[Sprintf_v kv.1 := norm kv.2]> res) acc kvs !! k
    = match last (filter (fun kv => Sprintf_v kv.1 = k) kvs) with
      | Some kv => Some (norm kv.2)
      | None => acc !! k
      end) as Hgen.
  { induction kvs as [|kv kvs IH]; intros acc; simpl; [done|].
    rewrite IH. rewrite filter_cons. case_decide as Hk.
    - rewrite last_cons. destruct (last (filter _ kvs)); [done|].
      by rewrite <- Hk, lookup_insert_eq.
    - destruct (last (filter _ kvs)); [done|].
      by rewrite lookup_insert_ne. }
  rewrite Hgen. destruct (last _); [done|]. apply lookup_empty.
Qed.
End canonical_facts.

(** X14: the results of [normalize] are exactly its fixed points, and
    they are the normal forms: whatever the input, no native [int],
    [map[any]any] or [yaml.MapSlice] is left in the slices and
    string-keyed maps of the result, and a value is such a normal form
    if and only if [normalize] returns it unchanged. *)
Theorem normalize_canonical `{!Fmt} (v : value) :
  canonical (normalize v) ∧ (canonical v ↔ normalize v = v).
Proof.
  assert (canonical (normalize v)) as Hn.
  { apply (normalize_canonical_sized (S (vsize v))). lia. }
  split; [exact Hn|]. split.
  - apply (canonical_fixed_sized (S (vsize v))). lia.
  - intros Hfix. by rewrite <- Hfix.
Qed.

(** X15: the error exit of the [[]map[string]any] arm is never taken.
    On such a slice [normalize] returns a slice of the same type and
    length whose maps are the input maps with every entry normalised
    under its own key; and [normalize] returns an error value only when
    it was given that very value. *)
Theorem normalize_never_fails `{!Fmt} (l : list (gmap string value)) (v : value) :
  (∃ l', normalize (VSliceMap l) = VSliceMap l' ∧ length l' = length l
         ∧ ∀ i m, l !! i = Some m →
             ∃ m', l' !! i = Some m' ∧ ∀ k, m' !! k = normalize <$> m !! k)
  ∧ (∀ msg, normalize v = VError msg ↔ v = VError msg).
Proof.
  split.
  - rewrite normalize_VSliceMap.
    eexists. split; [done|]. split; [by rewrite length_fmap|].
    intros i m Hm. exists (normalize <$> m). split.
    + by rewrite list_lookup_fmap, Hm.
    + intros k. by rewrite lookup_fmap.
  - intros msg. split; [|by intros ->].
    destruct v; try done.
    + simpl. by case_decide.
    + by rewrite normalize_VSliceMap.
Qed.

(** X16: a key-value list ([yaml.MapSlice]) and a [map[any]any] become
    a string-keyed map in which two keys that print the same are one
    key: the entry under a key is the normalised value of the last item
    whose key prints as it, and there is an entry exactly when there is
    such an item. *)
Theorem normalize_last_key_wins `{!Fmt} (items : list (value * value)) :
  ∃ m, normalize (VMapSlice items) = VMap m
       ∧ normalize (VMapAny items) = VMap m
       ∧ (∀ k, m !! k = (fun kv => normalize kv.2) <$> last (printed_as k items))
       ∧ (∀ k, is_Some (m !! k) ↔ ∃ kv, kv ∈ items ∧ Sprintf_v kv.1 = k)
       ∧ (size m ≤ length items)%nat.
Proof.
  exists (assign_all normalize items).
  split; [done|]. split; [done|]. split; [apply assign_all_last|]. split.
  - intros k. rewrite assign_all_last, fmap_is_Some. unfold printed_as. split.
    + intros [kv Hkv]. exists kv. apply last_Some_elem_of in Hkv.
      by apply list_elem_of_filter in Hkv as [? ?].
    + intros (kv & Hin & Hk).
      destruct (last (filter (fun kv => Sprintf_v kv.1 = k) items)) eqn:Hl; [eauto|].
      apply last_None in Hl.
      assert (kv ∈ filter (fun kv => Sprintf_v kv.1 = k) items) as Hf
        by by apply list_elem_of_filter.
      rewrite Hl in Hf. by apply elem_of_nil in Hf.
  - unfold assign_all.
    assert (∀ acc : gmap string value,
      (size (foldl (fun res kv => <[Sprintf_v kv.1 := normalize kv.2]> res)
               acc items) ≤ size acc + length items)%nat) as Hgen.
    { induction items as [|kv items IH]; intros acc; simpl; [lia|].
      etrans; [apply IH|].
      pose proof (map_size_insert (Sprintf_v kv.1) (normalize kv.2) acc) as Hs.
      destruct (acc !! Sprintf_v kv.1); unfold id in Hs; simpl in *; lia. }
    etrans; [apply Hgen|]. by rewrite map_size_empty.
Qed.

(* ----------------------------------------------------------------- *)
(** ** Compiled books *)

Section canonical_maps.
Context `{!Fmt}.

Lemma normalize_fmap_canonical (m : gmap string value) :
  map_Forall (fun _ => canonical) (normalize <$> m).
Proof.
  intros k x. rewrite lookup_fmap.
  destruct (m !! k) as [y|]; simpl; [|done]. intros [= <-].
  apply (normalize_canonical_sized (S (vsize y))). lia.
Qed.

Lemma assign_all_canonical (items : list (value * value)) :
  map_Forall (fun _ => canonical) (assign_all normalize items).
Proof.
  intros k x (kv & _ & ->)%assign_all_lookup.
  apply (normalize_canonical_sized (S (vsize kv.2))). lia.
Qed.
End canonical_maps.

(** X17: what a compiled book holds.  Its runners, its variables and
    each of its raw steps are in normal form; the runners and the
    variables keep exactly the keys of the runbook (a nil map compiles
    to an empty one); there is one raw step per step, the normalised
    step in the same position, and the step keys are the runbook's, so
    a runbook with as many keys as steps compiles to a book with as many
    keys as raw steps. *)
Theorem toBook_normal_forms `{!Fmt, !LoopParser} (rb : runbook) (bk : book Loop_t) :
  toBook rb = inr bk →
  map_Forall (fun _ => canonical) (runners bk)
  ∧ map_Forall (fun _ => canonical) (vars bk)
  ∧ Forall (map_Forall (fun _ => canonical)) (rawSteps bk)
  ∧ dom (runners bk) = dom (entries (Runners rb))
  ∧ dom (vars bk) = dom (entries (Vars rb))
  ∧ (∀ i, rawSteps bk !! i
          = (fun s => assign_all normalize s) <$> Steps rb !! i)
  ∧ bk_stepKeys bk = stepKeys rb
  ∧ (keys_aligned rb → length (bk_stepKeys bk) = length (rawSteps bk)).
Proof.
  rewrite toBook_unfold. simpl. intros Hbk.
  assert (runners bk = normalize <$> entries (Runners rb)
          ∧ vars bk = normalize <$> entries (Vars rb)
          ∧ rawSteps bk = assign_all normalize <$> Steps rb
          ∧ bk_stepKeys bk = stepKeys rb) as (-> & -> & -> & ->).
  { destruct (is_nil (Loop rb)); [|destruct (newLoop (Loop rb)); [done|]];
      by injection Hbk as <-. }
  split; [apply normalize_fmap_canonical|].
  split; [apply normalize_fmap_canonical|].
  split.
  { apply Forall_fmap, Forall_forall. intros s _. apply assign_all_canonical. }
  split; [apply dom_fmap_L|]. split; [apply dom_fmap_L|].
  split; [intros i; apply list_lookup_fmap|].
  split; [done|].
  unfold keys_aligned. intros ->. by rewrite length_fmap.
Qed.

Lemma toBook_normal_forms_witness :
  ∃ bk,
    @toBook plain_fmt count_loops keyed_ab_runbook = inr bk
    ∧ map_Forall (fun _ => canonical) (runners bk)
    ∧ map_Forall (fun _ => canonical) (vars bk)
    ∧ Forall (map_Forall (fun _ => canonical)) (rawSteps bk)
    ∧ dom (runners bk) = dom (entries (Runners keyed_ab_runbook))
    ∧ dom (vars bk) = dom (entries (Vars keyed_ab_runbook))
    ∧ (∀ i, rawSteps bk !! i
            = (fun s => @assign_all plain_fmt (@normalize plain_fmt) s)
                <$> Steps keyed_ab_runbook !! i)
    ∧ bk_stepKeys bk = stepKeys keyed_ab_runbook
    ∧ (keys_aligned keyed_ab_runbook →
       length (bk_stepKeys bk) = length (rawSteps bk)).
Proof.
  destruct (@toBook plain_fmt count_loops keyed_ab_runbook) as [e|bk] eqn:Hbk;
    [by vm_compute in Hbk|].
  exists bk. split; [reflexivity|].
  exact (@toBook_normal_forms plain_fmt count_loops keyed_ab_runbook bk Hbk).
Defined.

(* ----------------------------------------------------------------- *)
(** ** Areas *)

Lemma before_refl t : before t t.
Proof. unfold before. lia. Qed.

Lemma before_trans t1 t2 t3 : before t1 t2 → before t2 t3 → before t1 t3.
Proof. unfold before. lia. Qed.

Lemma before_line t1 t2 : before t1 t2 → tkLine t1 ≤ tkLine t2.
Proof. unfold before. lia. Qed.

(** The first node visited sets both ends. *)
Lemma Visit_first n :
  Visit (mkDetector None None) n
  = mkDetector (Some (GetToken n)) (Some (GetToken n)).
Proof.
  unfold Visit. simpl. rewrite !bool_decide_eq_false_2; [done|lia..].
Qed.

(** After that the detector holds the first and the last token seen, by
    position. *)
Lemma Visit_bounds s e n :
  ∃ s' e', Visit (mkDetector (Some s) (Some e)) n = mkDetector (Some s') (Some e')
    ∧ before s' s ∧ before s' (GetToken n)
    ∧ before e e' ∧ before (GetToken n) e'
    ∧ (s' = s ∨ s' = GetToken n) ∧ (e' = e ∨ e' = GetToken n).
Proof.
  unfold Visit. simpl. eexists _, _. split; [reflexivity|].
  unfold before. repeat case_bool_decide; repeat split; auto; lia.
Qed.

Lemma foldl_Visit_bounds l : ∀ s e,
  ∃ s' e', foldl Visit (mkDetector (Some s) (Some e)) l
           = mkDetector (Some s') (Some e')
    ∧ before s' s ∧ before e e'
    ∧ (∀ n, n ∈ l → before s' (GetToken n) ∧ before (GetToken n) e')
    ∧ (s' = s ∨ ∃ n, n ∈ l ∧ s' = GetToken n)
    ∧ (e' = e ∨ ∃ n, n ∈ l ∧ e' = GetToken n).
Proof.
  induction l as [|n l IH]; intros s e.
  - exists s, e. split; [done|]. split; [apply before_refl|].
    split; [apply before_refl|]. split; [|by split; left].
    intros n Hn. by apply elem_of_nil in Hn.
  - destruct (Visit_bounds s e n)
      as (s1 & e1 & HV & Hs1 & Hs1n & He1 & He1n & Hs1in & He1in).
    destruct (IH s1 e1) as (s' & e' & Hf & Hs' & He' & Hall & Hsin & Hein).
    exists s', e'. simpl. rewrite HV. split; [exact Hf|].
    split; [by eapply before_trans|]. split; [by eapply before_trans|].
    split; [|split].
    + intros m [->|Hm]%elem_of_cons.
      * split; by eapply before_trans.
      * by apply Hall.
    + destruct Hsin as [->|(m & Hm & ->)].
      * destruct Hs1in as [-> | ->]; [by left|]. right. exists n. split; [left|done].
      * right. exists m. split; [by right|done].
    + destruct Hein as [->|(m & Hm & ->)].
      * destruct He1in as [-> | ->]; [by left|]. right. exists n. split; [left|done].
      * right. exists m. split; [by right|done].
Qed.

Lemma trailing_lines_nonneg t : 0 ≤ trailing_lines t.
Proof.
  unfold trailing_lines. case_bool_decide; simpl; [|lia].
  destruct (tkHasNext t); lia.
Qed.

(** The area of a node through the first and last token of its walk. *)
Lemma detectAreaFromNode_bounds node :
  ∃ s e, detectAreaFromNode node
         = Return (mkArea (tkLine s) (tkLine e + trailing_lines e))
    ∧ (∀ n, n ∈ Walk node → before s (GetToken n) ∧ before (GetToken n) e)
    ∧ (∃ n, n ∈ Walk node ∧ s = GetToken n)
    ∧ (∃ n, n ∈ Walk node ∧ e = GetToken n).
Proof.
  unfold detectAreaFromNode. destruct (Walk_cons node) as [l ->].
  simpl. rewrite Visit_first.
  destruct (foldl_Visit_bounds l (GetToken node) (GetToken node))
    as (s & e & -> & Hs & He & Hall & Hsin & Hein).
  exists s, e. simpl. split; [|split; [|split]].
  - unfold trailing_lines. destruct (_ && _); simpl; [done|].
    by rewrite Z.add_0_r.
  - intros n [->|Hn]%elem_of_cons; [done|by apply Hall].
  - destruct Hsin as [->|(n & Hn & ->)].
    + exists node. split; [left|done].
    + exists n. split; [by right|done].
  - destruct Hein as [->|(n & Hn & ->)].
    + exists node. split; [left|done].
    + exists n. split; [by right|done].
Qed.

(** X18: the area [detectAreaFromNode] computes covers the node.  The
    call always returns; no token of a node of the walk lies on a line
    before [Start] or after [End]; [Start] is the line of such a token,
    and [End] is the line of such a token plus, when that token holds a
    value of several lines and is not the last of the stream, the number
    of its line breaks less one. *)
Theorem detectAreaFromNode_covers (node : Node) :
  ∃ a, detectAreaFromNode node = Return a
    ∧ Start a ≤ End a
    ∧ (∀ n, n ∈ Walk node → Start a ≤ tkLine (GetToken n) ≤ End a)
    ∧ (∃ n, n ∈ Walk node ∧ Start a = tkLine (GetToken n))
    ∧ (∃ n, n ∈ Walk node
            ∧ End a = tkLine (GetToken n) + trailing_lines (GetToken n)).
Proof.
  destruct (detectAreaFromNode_bounds node)
    as (s & e & -> & Hall & (ns & Hns & ->) & (ne & Hne & ->)).
  eexists. split; [reflexivity|]. simpl.
  pose proof (trailing_lines_nonneg (GetToken ne)) as Hnn.
  split; [|split; [|split]].
  - destruct (Hall ns Hns) as [_ Hle%before_line]. lia.
  - intros n Hn. destruct (Hall n Hn) as [Hs%before_line He%before_line]. lia.
  - by exists ns.
  - by exists ne.
Qed.

(** The loops over the step values. *)
Lemma mappedStepAreas_returns values :
  ∃ ars, Forall2 keyed_step_area values ars
         ∧ ∀ a, mappedStepAreas values a
                = Return (set_aSteps (aSteps a ++ ars) a).
Proof.
  induction values as [|[[tk k] v] values (ars & Hars & IH)]; simpl.
  - exists []. split; [constructor|]. intros a. rewrite app_nil_r. by destruct a.
  - destruct (detectAreaFromNode_returns (MappingValueNode tk k v)) as [ar Har].
    exists (ar :: ars). split; [by constructor|]. intros a.
    rewrite Har. simpl. rewrite IH.
    unfold set_aSteps. simpl. by rewrite <- app_assoc.
Qed.

Lemma listedStepAreas_returns values :
  forallb (fun v => has_sequence_entry (GetToken v)) values = true →
  ∃ ars, Forall2 listed_step_area values ars
         ∧ ∀ a, listedStepAreas values a
                = Return (set_aSteps (aSteps a ++ ars) a).
Proof.
  induction values as [|v values IH]; intros Hall; simpl.
  - exists []. split; [constructor|]. intros a. rewrite app_nil_r. by destruct a.
  - simpl in Hall. apply andb_true_iff in Hall as [Hv Hall].
    destruct (IH Hall) as (ars & Hars & Hrun).
    destruct (detectAreaFromNode_returns v) as [ar0 Har0].
    destruct (findSequenceEntry_some _ Hv) as [line Hline].
    exists (mkArea line (End ar0) :: ars). split.
    + constructor; [|done]. by exists ar0.
    + intros a. rewrite Har0. simpl. rewrite Hline. simpl. rewrite Hrun.
      unfold set_aSteps. simpl. by rewrite <- app_assoc.
Qed.

Lemma sectionAreas_returns sections : ∀ a,
  forallb listed_steps_marked sections = true →
  ∃ a', sectionAreas sections a = Return a'.
Proof.
  induction sections as [|[[tk key] val] sections IH]; intros a Hall;
    simpl; [eauto|].
  simpl in Hall. apply andb_true_iff in Hall as [Hs Hall].
  destruct key as [tkk keyValue| | | |]; eauto.
  destruct (detectAreaFromNode_returns
              (MappingValueNode tk (StringNode tkk keyValue) val)) as [ar Har].
  rewrite Har. simpl.
  destruct (decide (keyValue = "desc")); [by apply IH|].
  destruct (decide (keyValue = "vars")); [by apply IH|].
  destruct (decide (keyValue = "runners")); [by apply IH|].
  destruct (decide (keyValue = "steps")) as [->|]; [|by apply IH].
  destruct val as [| tkv values | | tkv values |]; try (by apply IH).
  - destruct (mappedStepAreas_returns values) as (ars & _ & ->). by apply IH.
  - simpl in Hs.
    destruct (listedStepAreas_returns values Hs) as (ars & _ & ->).
    by apply IH.
Qed.

(** Sections other than [steps] leave the step areas alone. *)
Lemma sectionAreas_plain pre : ∀ a,
  Forall plain_section pre →
  ∃ a', (∀ rest, sectionAreas (pre ++ rest) a = sectionAreas rest a')
        ∧ aSteps a' = aSteps a.
Proof.
  induction pre as [|[[tk key] val] pre IH]; intros a Hpre.
  - by exists a.
  - apply Forall_cons in Hpre as [Hs Hpre]. unfold plain_section in Hs.
    simpl in Hs. destruct key as [tkk keyValue| | | |]; try done.
    destruct (detectAreaFromNode_returns
                (MappingValueNode tk (StringNode tkk keyValue) val)) as [ar Har].
    assert (∃ a1, (∀ rest,
      sectionAreas (((tk, StringNode tkk keyValue, val) :: pre) ++ rest) a
      = sectionAreas (pre ++ rest) a1) ∧ aSteps a1 = aSteps a) as (a1 & Ha1 & HS1).
    { simpl. rewrite Har.
      repeat case_decide; try done; simpl; eauto. }
    destruct (IH a1 Hpre) as (a' & Ha' & HS'). exists a'. split.
    + intros rest. by rewrite Ha1, Ha'.
    + by rewrite HS', HS1.
Qed.

Section areas_returns.
Context `{!YamlParser}.

Lemma detectRunbookAreas_steps_section in_ tk0 pre tk tkk val post docs
    (steps : areas → outcome areas) :
  Parse in_ = inr (mkFile (mkDocument (Some (MappingNode tk0
    (pre ++ (tk, StringNode tkk "steps", val) :: post))) :: docs)) →
  Forall plain_section pre → Forall plain_section post →
  (∀ a rest, sectionAreas ((tk, StringNode tkk "steps", val) :: rest) a
             = a' ← steps a; sectionAreas rest a') →
  ∀ ars, (∀ a, steps a = Return (set_aSteps (aSteps a ++ ars) a)) →
  ∃ a, detectRunbookAreas in_ = Return a ∧ aSteps a = ars.
Proof.
  intros Hp Hpre Hpost Hsec ars Hsteps.
  unfold detectRunbookAreas. rewrite Hp. simpl.
  destruct (sectionAreas_plain pre no_areas Hpre) as (a1 & -> & HS1).
  rewrite Hsec, Hsteps. simpl.
  destruct (sectionAreas_plain post (set_aSteps (aSteps a1 ++ ars) a1) Hpost)
    as (a2 & Ha2 & HS2).
  specialize (Ha2 []). rewrite app_nil_r in Ha2. rewrite Ha2. simpl.
  exists a2. split; [done|]. by rewrite HS2, HS1.
Qed.
End areas_returns.

(** X19: when [detectRunbookAreas] cannot panic.  If the parser returns
    at least one document and, in case the first document is a mapping,
    every element of every listed [steps] section has a [-] token at or
    before its own token, the call returns areas; a text that does not
    parse and a first document that is not a mapping give no areas. *)
Theorem detectRunbookAreas_returns `{!YamlParser} (in_ : string) :
  (∀ err, Parse in_ = inl err → detectRunbookAreas in_ = Return no_areas)
  ∧ (∀ doc docs,
       Parse in_ = inr (mkFile (doc :: docs)) →
       (∀ tk sections, Body doc ≠ Some (MappingNode tk sections)) →
       detectRunbookAreas in_ = Return no_areas)
  ∧ (∀ tk sections docs,
       Parse in_ = inr (mkFile (mkDocument (Some (MappingNode tk sections))
                                :: docs)) →
       forallb listed_steps_marked sections = true →
       ∃ a, detectRunbookAreas in_ = Return a).
Proof.
  split; [|split].
  - intros err Hp. unfold detectRunbookAreas. by rewrite Hp.
  - intros doc docs Hp Hbody. unfold detectRunbookAreas. rewrite Hp. simpl.
    destruct (Body doc) as [[]|] eqn:Hb; try done. by destruct (Hbody tk Values).
  - intros tk sections docs Hp Hall. unfold detectRunbookAreas. rewrite Hp.
    simpl. by apply sectionAreas_returns.
Qed.

(** X20: the step areas of a document with listed steps.  When [steps]
    is a sequence, the sections around it have string keys other than
    [steps], and every element has a [-] token at or before its own
    token, there is one area per element, in order: it starts at the
    line of the nearest such [-] and ends where the area of the element
    ends. *)
Theorem detectRunbookAreas_listed_steps `{!YamlParser} (in_ : string)
    (tk0 : Token) (pre : list (Token * Node * Node)) (tk tkk tks : Token)
    (values : list Node) (post : list (Token * Node * Node))
    (docs : list DocumentNode) :
  Parse in_ = inr (mkFile (mkDocument (Some (MappingNode tk0
    (pre ++ (tk, StringNode tkk "steps", SequenceNode tks values) :: post)))
    :: docs)) →
  Forall plain_section pre → Forall plain_section post →
  forallb (fun v => has_sequence_entry (GetToken v)) values = true →
  ∃ a, detectRunbookAreas in_ = Return a
       ∧ Forall2 listed_step_area values (aSteps a).
Proof.
  intros Hp Hpre Hpost Hall.
  destruct (listedStepAreas_returns values Hall) as (ars & Hars & Hrun).
  destruct (detectRunbookAreas_steps_section in_ tk0 pre tk tkk
              (SequenceNode tks values) post docs (listedStepAreas values)
              Hp Hpre Hpost (fun a rest => eq_refl) ars Hrun) as (a & Ha & HS).
  exists a. split; [done|]. by rewrite HS.
Qed.

Lemma detectRunbookAreas_listed_steps_witness :
  ∃ a, @detectRunbookAreas demo_parser block_document = Return a
       ∧ Forall2 listed_step_area
           [ MappingValueNode b_colon3 (StringNode b_exec "exec")
               (MappingValueNode b_colon4 (StringNode b_command "command")
                  (StringNode b_ls "ls")) ]
           (aSteps a).
Proof.
  apply (@detectRunbookAreas_listed_steps demo_parser block_document b_colon1
           [(b_colon1, StringNode b_desc "desc", StringNode b_x "x")]
           b_colon2 b_steps b_dash _ [] []).
  - reflexivity.
  - repeat constructor. unfold plain_section. simpl. discriminate.
  - constructor.
  - reflexivity.
Defined.

(** X21: the step areas of a keyed document.  When [steps] is a mapping
    and the sections around it have string keys other than [steps], the
    call returns, whatever the tokens are, with one area per entry of
    the mapping, in order: the area of that entry, key included. *)
Theorem detectRunbookAreas_keyed_steps `{!YamlParser} (in_ : string)
    (tk0 : Token) (pre : list (Token * Node * Node)) (tk tkk tks : Token)
    (values post : list (Token * Node * Node)) (docs : list DocumentNode) :
  Parse in_ = inr (mkFile (mkDocument (Some (MappingNode tk0
    (pre ++ (tk, StringNode tkk "steps", MappingNode tks values) :: post)))
    :: docs)) →
  Forall plain_section pre → Forall plain_section post →
  ∃ a, detectRunbookAreas in_ = Return a
       ∧ Forall2 keyed_step_area values (aSteps a).
Proof.
  intros Hp Hpre Hpost.
  destruct (mappedStepAreas_returns values) as (ars & Hars & Hrun).
  destruct (detectRunbookAreas_steps_section in_ tk0 pre tk tkk
              (MappingNode tks values) post docs (mappedStepAreas values)
              Hp Hpre Hpost (fun a rest => eq_refl) ars Hrun) as (a & Ha & HS).
  exists a. split; [done|]. by rewrite HS.
Qed.

Lemma detectRunbookAreas_keyed_steps_witness :
  ∃ a, @detectRunbookAreas keyed_parser keyed_document = Return a
       ∧ Forall2 keyed_step_area [keyed_step_a; keyed_step_b] (aSteps a).
Proof.
  apply (@detectRunbookAreas_keyed_steps keyed_parser keyed_document k_colon1
           [(k_colon1, StringNode k_desc "desc", StringNode k_k "k")]
           k_colon2 k_steps k_colon3 _ [] []).
  - reflexivity.
  - repeat constructor. unfold plain_section. simpl. discriminate.
  - constructor.
Defined.

(** The areas of the keyed document. *)
Example detectRunbookAreas_keyed :
  @detectRunbookAreas keyed_parser keyed_document
  = Return (mkAreas (Some (mkArea 1 1)) None None [mkArea 3 5; mkArea 6 8]).
Proof. by vm_compute. Qed.

(* ----------------------------------------------------------------- *)
(** ** The text of a step *)

(** X22: the text [pickStepYAML] returns for an index within the step
    areas, when the area lies within the lines of the interpolated
    text, first line numbered from 1: one picked line for each line
    number from [Start] to [End], joined by line breaks; each is the
    line of that number after its coloured number, and every number is
    padded to the width of the last one. *)
Theorem pickStepYAML_numbered `{!YamlParser, !Expand, !Colors}
    (in_ rep : string) (a : areas) (idx : Z) (step : area) :
  ReplaceYAML in_ = inr rep →
  detectRunbookAreas rep = Return a →
  0 ≤ idx → aSteps a !! Z.to_nat idx = Some step →
  1 ≤ Start step → End step ≤ len (SplitLF rep "") →
  ∃ picked,
    pickStepYAML in_ idx = Return (inr (Join picked LF))
    ∧ length picked = Z.to_nat (End step - Start step + 1)
    ∧ ∀ i, Start step ≤ i ≤ End step →
        ∃ line number,
          SplitLF rep "" !! Z.to_nat (i - 1) = Some line
          ∧ number = Sprintf_wd (Z.of_nat (String.length (Itoa (End step)))) i
          ∧ String.length number = String.length (Itoa (End step))
          ∧ picked !! Z.to_nat (i - Start step)
            = Some (yellow (number +:+ " ") +:+ line).
Proof.
  intros Hrep Ha Hidx Hstep Hstart Hend.
  destruct (pickStepYAML_picks in_ rep a idx step Hrep Ha Hidx Hstep Hstart Hend)
    as [Hrun Hwidth].
  exists (numbered_lines (SplitLF rep "") (Start step) (End step)).
  split; [exact Hrun|]. unfold numbered_lines. split.
  - by rewrite length_fmap, length_seqZ.
  - intros i Hi.
    destruct (lookup_lt_is_Some_2 (SplitLF rep "") (Z.to_nat (i - 1)))
      as [line Hline].
    { unfold len in Hend. lia. }
    exists line, (Sprintf_wd (Z.of_nat (String.length (Itoa (End step)))) i).
    split; [exact Hline|]. split; [done|]. split; [by apply Hwidth|].
    rewrite list_lookup_fmap.
    rewrite (proj2 (lookup_seqZ (Start step) (End step - Start step + 1)
                      (Z.to_nat (i - Start step)) i)) by lia.
    simpl. unfold numbered_line. by rewrite Hline.
Qed.

Lemma pickStepYAML_numbered_witness :
  ∃ picked,
    @pickStepYAML demo_parser identity_expand bracket_colors block_document 0
    = Return (inr (Join picked LF))
    ∧ length picked = Z.to_nat (4 - 3 + 1)
    ∧ ∀ i, 3 ≤ i ≤ 4 →
        ∃ line number,
          SplitLF block_document "" !! Z.to_nat (i - 1) = Some line
          ∧ number = Sprintf_wd (Z.of_nat (String.length (Itoa 4))) i
          ∧ String.length number = String.length (Itoa 4)
          ∧ picked !! Z.to_nat (i - 3)
            = Some (@yellow bracket_colors (number +:+ " ") +:+ line).
Proof.
  apply (@pickStepYAML_numbered demo_parser identity_expand bracket_colors
           block_document block_document
           (mkAreas (Some (mkArea 1 1)) None None [mkArea 3 4]) 0 (mkArea 3 4)).
  - reflexivity.
  - by vm_compute.
  - lia.
  - reflexivity.
  - simpl. lia.
  - by vm_compute.
Defined.

(** X23: the ways [pickStepYAML] gives no text.  An interpolation error
    is returned as it is; an index at or beyond the number of step areas
    gives "step not found" with the index; an area that ends beyond the
    last line of the interpolated text gives "line not found" with that
    line number; and a panic of the area detection is not recovered. *)
Theorem pickStepYAML_not_found `{!YamlParser, !Expand, !Colors}
    (in_ : string) (idx : Z) :
  (∀ err, ReplaceYAML in_ = inl err → pickStepYAML in_ idx = Return (inl err))
  ∧ (∀ rep a,
       ReplaceYAML in_ = inr rep → detectRunbookAreas rep = Return a →
       len (aSteps a) ≤ idx →
       pickStepYAML in_ idx = Return (inl ("step not found: " +:+ Itoa idx)))
  ∧ (∀ rep a step,
       ReplaceYAML in_ = inr rep → detectRunbookAreas rep = Return a →
       0 ≤ idx → aSteps a !! Z.to_nat idx = Some step →
       len (SplitLF rep "") < End step →
       pickStepYAML in_ idx
       = Return (inl ("line not found: " +:+ Itoa (End step))))
  ∧ (∀ rep msg,
       ReplaceYAML in_ = inr rep → detectRunbookAreas rep = Panic msg →
       pickStepYAML in_ idx = Panic msg).
Proof.
  split; [|split; [|split]].
  - intros err Hrep. unfold pickStepYAML. by rewrite Hrep.
  - intros rep a Hrep Ha Hidx.
    apply (pickStepYAML_step_not_found in_ rep a idx Hrep Ha). lia.
  - intros rep a step. apply pickStepYAML_line_not_found.
  - intros rep msg Hrep Ha. unfold pickStepYAML. by rewrite Hrep, Ha.
Qed.

(** X24: from the document to the text of a listed step.  When the
    interpolated text parses to a document whose [steps] section is a
    sequence (the other sections keyed by strings other than [steps]),
    every element has a [-] token at or before its own token, and the
    lines from the [-] of element [idx] to the end of its node exist in
    the text, [pickStepYAML] returns exactly these lines, numbered. *)
Theorem pickStepYAML_listed_step `{!YamlParser, !Expand, !Colors}
    (in_ rep : string) (idx : Z)
    (tk0 : Token) (pre : list (Token * Node * Node)) (tk tkk tks : Token)
    (values : list Node) (post : list (Token * Node * Node))
    (docs : list DocumentNode) (v : Node) (ar0 : area) (line : Z) :
  ReplaceYAML in_ = inr rep →
  Parse rep = inr (mkFile (mkDocument (Some (MappingNode tk0
    (pre ++ (tk, StringNode tkk "steps", SequenceNode tks values) :: post)))
    :: docs)) →
  Forall plain_section pre → Forall plain_section post →
  forallb (fun v => has_sequence_entry (GetToken v)) values = true →
  0 ≤ idx → values !! Z.to_nat idx = Some v →
  detectAreaFromNode v = Return ar0 →
  findSequenceEntry (GetToken v) = Return line →
  1 ≤ line → End ar0 ≤ len (SplitLF rep "") →
  pickStepYAML in_ idx
  = Return (inr (Join (numbered_lines (SplitLF rep "") line (End ar0)) LF)).
Proof.
  intros Hrep Hp Hpre Hpost Hall Hidx Hv Har0 Hline Hstart Hend.
  destruct (listedStepAreas_returns values Hall) as (ars & Hars & Hrun).
  destruct (detectRunbookAreas_steps_section rep tk0 pre tk tkk
              (SequenceNode tks values) post docs (listedStepAreas values)
              Hp Hpre Hpost (fun a rest => eq_refl) ars Hrun) as (a & Ha & HS).
  destruct (Forall2_lookup_l _ _ _ _ _ Hars Hv)
    as (step & Hstep & ar0' & Har0' & Hline' & HE).
  rewrite Har0 in Har0'. injection Har0' as <-.
  rewrite Hline in Hline'. injection Hline' as ->.
  rewrite <- HS in Hstep.
  destruct (pickStepYAML_picks in_ rep a idx step Hrep Ha Hidx Hstep)
    as [Hrun' _]; [done|lia|].
  by rewrite Hrun', HE.
Qed.

Lemma pickStepYAML_listed_step_witness :
  @pickStepYAML demo_parser identity_expand bracket_colors block_document 0
  = Return (inr (Join (@numbered_lines bracket_colors
                         (SplitLF block_document "") 3 4) LF)).
Proof.
  apply (@pickStepYAML_listed_step demo_parser identity_expand bracket_colors
           block_document block_document 0 b_colon1
           [(b_colon1, StringNode b_desc "desc", StringNode b_x "x")]
           b_colon2 b_steps b_dash
           [ MappingValueNode b_colon3 (StringNode b_exec "exec")
               (MappingValueNode b_colon4 (StringNode b_command "command")
                  (StringNode b_ls "ls")) ]
           [] []
           (MappingValueNode b_colon3 (StringNode b_exec "exec")
              (MappingValueNode b_colon4 (StringNode b_command "command")
                 (StringNode b_ls "ls")))
           (mkArea 3 4) 3).
  - reflexivity.
  - reflexivity.
  - repeat constructor. unfold plain_section. simpl. discriminate.
  - constructor.
  - reflexivity.
  - lia.
  - reflexivity.
  - by vm_compute.
  - by vm_compute.
  - lia.
  - by vm_compute.
Defined.

(* ----------------------------------------------------------------- *)
(** ** What the nested operator is given *)

Lemma foldl_snoc_fmap {A B} (f : A → B) (l : list A) : ∀ acc,
  foldl (fun acc x => acc ++ [f x]) acc l = acc ++ (f <$> l).
Proof.
  induction l as [|x l IH]; intros acc; simpl.
  - by rewrite app_nil_r.
  - by rewrite IH, <- app_assoc.
Qed.

Lemma foldl_insert_lookup {A} (l : list (string * A)) : ∀ (acc : gmap string A) k,
  NoDup l.*1 →
  foldl (fun m kv => <[kv.1 := kv.2]> m) acc l !! k
  = match (list_to_map l : gmap string A) !! k with
    | Some v => Some v
    | None => acc !! k
    end.
Proof.
  induction l as [|[k0 v0] l IH]; intros acc k Hnd; simpl; [done|].
  apply NoDup_cons in Hnd as [Hk0 Hnd]. rewrite IH by done.
  destruct (decide (k0 = k)) as [->|Hne].
  - rewrite !lookup_insert_eq.
    by rewrite (not_elem_of_list_to_map_1 (M := gmap string) l k Hk0).
  - rewrite !lookup_insert_ne by done. done.
Qed.

Lemma foldl_set_var (l : list (string * value)) : ∀ oo,
  foldl (fun oo kv => set_var kv.1 kv.2 oo) oo l
  = mkOperator (op_addr oo) (root oo) (op_debug oo) (op_t oo) (thisT oo)
      (mkStore (foldl (fun m kv => <[kv.1 := kv.2]> m) (store_vars (op_store oo)) l)
               (store_steps (op_store oo)))
      (httpRunners oo) (dbRunners oo) (op_included oo).
Proof.
  induction l as [|kv l IH]; intros oo; simpl.
  - by destruct oo as [? ? ? ? ? [] ? ? ?].
  - by rewrite IH.
Qed.

(** X25: the overrides of an include step.  After the loop the child's
    variables are the configured ones together with those the child
    had, the configured value winning where both have the key, in
    whatever order the loop visits the configured variables; nothing
    else of the child is written. *)
Theorem overrideVars_union `{!MapOrder} (c : includeConfig) (oo : operator) :
  overrideVars c oo
  = mkOperator (op_addr oo) (root oo) (op_debug oo) (op_t oo) (thisT oo)
      (mkStore (cfg_vars c ∪ store_vars (op_store oo))
               (store_steps (op_store oo)))
      (httpRunners oo) (dbRunners oo) (op_included oo).
Proof.
  unfold overrideVars. rewrite foldl_set_var. do 2 f_equal.
  assert (NoDup (range (cfg_vars c)).*1) as Hnd.
  { rewrite range_perm. apply NoDup_fst_map_to_list. }
  apply map_eq. intros k. rewrite foldl_insert_lookup by done.
  rewrite (list_to_map_proper (M := gmap string) _ (map_to_list (cfg_vars c)) Hnd)
    by apply range_perm.
  rewrite list_to_map_to_list, lookup_union.
  by destruct (cfg_vars c !! k), (store_vars (op_store oo) !! k).
Qed.

(** X26: the options [newNestedOperator] hands to [New].  They are the
    caller's options, [included(true)], one runner option for each HTTP
    runner and each database runner of the parent (the same instance
    under the same name), one variable option for each variable of the
    parent, then the variable [parent] holding the parent's recorded
    results, and last the parent's debug flag.  The [parent] variable
    comes after all the parent's variables. *)
Theorem nestedOptions_shares `{!MapOrder} (o : operator) (opts : list Option) :
  ∃ hs ds vs,
    nestedOptions o opts
    = opts ++ [included true] ++ hs ++ ds ++ vs
      ++ [Var "parent" (VSliceMap (store_steps (op_store o)));
          DebugOpt (op_debug o)]
    ∧ hs ≡ₚ (fun kr => runnHTTPRunner kr.1 kr.2) <$> map_to_list (httpRunners o)
    ∧ ds ≡ₚ (fun kr => runnDBRunner kr.1 kr.2) <$> map_to_list (dbRunners o)
    ∧ vs ≡ₚ (fun kv => Var kv.1 kv.2) <$> map_to_list (store_vars (op_store o))
    ∧ (∀ k r, runnHTTPRunner k r ∈ hs ↔ httpRunners o !! k = Some r)
    ∧ (∀ k r, runnDBRunner k r ∈ ds ↔ dbRunners o !! k = Some r)
    ∧ (∀ k v, Var k v ∈ vs ↔ store_vars (op_store o) !! k = Some v).
Proof.
  exists ((fun kr => runnHTTPRunner kr.1 kr.2) <$> range (httpRunners o)),
         ((fun kr => runnDBRunner kr.1 kr.2) <$> range (dbRunners o)),
         ((fun kv => Var kv.1 kv.2) <$> range (store_vars (op_store o))).
  split; [|split; [|split; [|split; [|split; [|split]]]]].
  - unfold nestedOptions.
    rewrite (foldl_snoc_fmap (fun kr : string * runnerref => runnHTTPRunner kr.1 kr.2)).
    rewrite (foldl_snoc_fmap (fun kr : string * runnerref => runnDBRunner kr.1 kr.2)).
    rewrite (foldl_snoc_fmap (fun kv : string * value => Var kv.1 kv.2)).
    by rewrite <- !app_assoc.
  - by rewrite range_perm.
  - by rewrite range_perm.
  - by rewrite range_perm.
  - intros k r. rewrite list_elem_of_fmap. split.
    + intros ([k' r'] & [= -> ->] & Hin). rewrite range_perm in Hin.
      by apply elem_of_map_to_list in Hin.
    + intros Hk. exists (k, r). split; [done|]. rewrite range_perm.
      by apply elem_of_map_to_list.
  - intros k r. rewrite list_elem_of_fmap. split.
    + intros ([k' r'] & [= -> ->] & Hin). rewrite range_perm in Hin.
      by apply elem_of_map_to_list in Hin.
    + intros Hk. exists (k, r). split; [done|]. rewrite range_perm.
      by apply elem_of_map_to_list.
  - intros k v. rewrite list_elem_of_fmap. split.
    + intros ([k' v'] & [= -> ->] & Hin). rewrite range_perm in Hin.
      by apply elem_of_map_to_list in Hin.
    + intros Hk. exists (k, v). split; [done|]. rewrite range_perm.
      by apply elem_of_map_to_list.
Qed.

(* ----------------------------------------------------------------- *)
(** ** Reading a runbook *)

(** X27: reading a keyed document and writing it back.  When the
    sequence-shaped decoding fails without having filled in any step,
    and the mapped decoding gives a document whose step items are
    well-typed with pairwise different keys, [parseRunbook] returns a
    runbook in keyed mode holding the keys and the bodies in document
    order, as many keys as steps; [MarshalYAML] of that runbook is the
    decoded document again, except that its loop and its concurrency are
    gone. *)
Theorem parseRunbook_MarshalYAML_round_trip `{!Fmt, !YamlDecoder, !Expand}
    (b rep : string) (e : error) (rb0 : runbook) (m : runbookMapped)
    (kvs : list (string * MapSlice)) :
  ReplaceYAML b = inr rep →
  Unmarshal_runbook rep (NewRunbook "") = (Some e, rb0) →
  Steps rb0 = [] → stepKeys rb0 = [] →
  Unmarshal_mapped rep = inr m →
  mSteps m = keyed_steps kvs → NoDup kvs.*1 →
  ∃ rb, parseRunbook b = inr rb
        ∧ useMap rb = true ∧ stepKeys rb = kvs.*1 ∧ Steps rb = kvs.*2
        ∧ keys_aligned rb
        ∧ MarshalYAML rb
          = inr (inr (mkRunbookMapped (mDesc m) (mRunners m) (mVars m) (mSteps m)
                        (mDebug m) (mInterval m) (mIf m) (mSkipTest m) VNil ""
                        (mForce m))).
Proof.
  intros Hrep Hplain HS HK Hm Hsteps Hnd.
  assert (parseRunbookMapped rep rb0
          = (None, with_steps kvs.*1 kvs.*2 (mapped_header m rb0))) as Hrun.
  { unfold parseRunbookMapped. rewrite Hm, Hsteps.
    apply parseMappedSteps_accepts; [done|]. intros k _. apply not_elem_of_empty. }
  exists (with_steps kvs.*1 kvs.*2 (mapped_header m rb0)).
  split; [unfold parseRunbook; by rewrite Hrep, Hplain, Hrun|].
  unfold with_steps, mapped_header, set_Steps, set_stepKeys, keys_aligned,
    MarshalYAML. simpl. rewrite HS, HK. simpl.
  split; [done|]. split; [done|]. split; [done|].
  split; [by rewrite !length_fmap|].
  rewrite decide_False by (unfold len; rewrite !length_fmap; lia).
  do 3 f_equal. rewrite Hsteps. clear.
  rewrite (imap_keyed_steps kvs.*1 kvs.*2) by (by rewrite !length_fmap).
  by rewrite zip_fst_snd.
Qed.

Lemma parseRunbook_MarshalYAML_round_trip_witness :
  ∃ rb, @parseRunbook plain_fmt (keyed_decoder doc_ab) identity_expand "steps"
        = inr rb
        ∧ useMap rb = true ∧ stepKeys rb = ["a"; "b"]
        ∧ Steps rb = [step_exec "ls"; step_exec "pwd"]
        ∧ keys_aligned rb
        ∧ MarshalYAML rb = inr (inr doc_ab).
Proof.
  apply (@parseRunbook_MarshalYAML_round_trip plain_fmt (keyed_decoder doc_ab)
           identity_expand "steps" "steps"
           "cannot unmarshal !!map into []yaml.MapSlice" (NewRunbook "") doc_ab
           [("a", step_exec "ls"); ("b", step_exec "pwd")]).
  - reflexivity.
  - reflexivity.
  - reflexivity.
  - reflexivity.
  - reflexivity.
  - reflexivity.
  - by apply (bool_decide_unpack _).
Defined.

(** X28: what [parseRunbook] reports.  An interpolation error is
    returned as it is.  A document that decodes in the sequence shape is
    returned as decoded, and the mapped decoding is not consulted.  When
    the sequence-shaped decoding fails, the outcome is that of
    [parseRunbookMapped] on the interpolated text and the partly decoded
    runbook: its runbook, or its error; the error of the first decoding
    is never reported. *)
Theorem parseRunbook_reports `{!Fmt, !YamlDecoder, !Expand} (b : string) :
  (∀ err, ReplaceYAML b = inl err → parseRunbook b = inl err)
  ∧ (∀ rep rb,
       ReplaceYAML b = inr rep →
       Unmarshal_runbook rep (NewRunbook "") = (None, rb) →
       parseRunbook b = inr rb)
  ∧ (∀ rep e rb0,
       ReplaceYAML b = inr rep →
       Unmarshal_runbook rep (NewRunbook "") = (Some e, rb0) →
       parseRunbook b
       = match parseRunbookMapped rep rb0 with
         | (Some err, _) => inl err
         | (None, rb) => inr rb
         end)
  ∧ (∀ err, parseRunbook b = inl err →
       ReplaceYAML b = inl err
       ∨ ∃ rep e rb0 rb1,
           ReplaceYAML b = inr rep
           ∧ Unmarshal_runbook rep (NewRunbook "") = (Some e, rb0)
           ∧ parseRunbookMapped rep rb0 = (Some err, rb1)).
Proof.
  unfold parseRunbook. split; [|split; [|split]].
  - by intros err ->.
  - by intros rep rb -> ->.
  - by intros rep e rb0 -> ->.
  - intros err. destruct (ReplaceYAML b) as [e0|rep]; [intros [= ->]; by left|].
    destruct (Unmarshal_runbook rep (NewRunbook "")) as [[e|] rb0] eqn:Hplain;
      [|done].
    destruct (parseRunbookMapped rep rb0) as [[e1|] rb1] eqn:Hmapped; [|done].
    intros [= ->]. right. by exists rep, e, rb0, rb1.
Qed.

(* ----------------------------------------------------------------- *)
(** ** Steps from grpcurl commands *)

Lemma firstHeaders_ok (l : list (string * list string)) : ∀ acc,
  Forall (fun kv => kv.2 ≠ []) l →
  firstHeaders l acc
  = Return (foldl (fun h kv => <[kv.1 := default "" (head kv.2)]> h) acc l).
Proof.
  induction l as [|[k v] l IH]; intros acc Hall; simpl; [done|].
  apply Forall_cons in Hall as [Hv Hall]. simpl in Hv.
  destruct v as [|v0 v]; [done|]. simpl. by rewrite IH.
Qed.

Lemma firstHeaders_panics (l : list (string * list string)) : ∀ acc,
  Exists (fun kv => kv.2 = []) l →
  firstHeaders l acc = Panic "index out of range".
Proof.
  induction l as [|[k v] l IH]; intros acc Hex; [by apply Exists_nil in Hex|].
  simpl. destruct v as [|v0 v]; [done|]. simpl. apply IH.
  apply Exists_cons in Hex as [Hv|Hex]; [done|exact Hex].
Qed.

Section grpcurl_facts.
Context `{!Fmt, !MapOrder, !Capture}.

(** The header loop, whatever the visiting order. *)
Lemma firstHeaders_range (hs : gmap string (list string)) :
  (∀ k v, hs !! k = Some v → v ≠ []) →
  firstHeaders (range hs) ∅
  = Return ((fun v => default "" (head v)) <$> hs).
Proof.
  intros Hne. rewrite firstHeaders_ok.
  2:{ apply Forall_forall. intros [k v] Hin. rewrite range_perm in Hin.
      apply elem_of_map_to_list in Hin. by apply (Hne k). }
  f_equal. apply map_eq. intros k.
  assert (∀ (l : list (string * list string)) (acc : gmap string string),
    foldl (fun h kv => <[kv.1 := default "" (head kv.2)]> h) acc l
    = foldl (fun h (kv : string * string) => <[kv.1 := kv.2]> h) acc
        (prod_map id (fun v => default "" (head v)) <$> l)) as Hfold.
  { induction l as [|kv l IH]; intros acc; simpl; [done|]. by rewrite IH. }
  rewrite Hfold.
  assert (NoDup (range hs).*1) as Hnd.
  { rewrite range_perm. apply NoDup_fst_map_to_list. }
  rewrite foldl_insert_lookup.
  2:{ rewrite <- list_fmap_compose.
      by rewrite (list_fmap_ext _ fst (range hs)) by (by intros ? []). }
  rewrite list_to_map_fmap.
  rewrite (list_to_map_proper (M := gmap string) _ (map_to_list hs) Hnd)
    by apply range_perm.
  rewrite list_to_map_to_list, lookup_empty.
  by destruct ((_ <$> hs) !! k).
Qed.

Lemma firstHeaders_range_panics (hs : gmap string (list string)) k :
  hs !! k = Some [] →
  firstHeaders (range hs) ∅ = Panic "index out of range".
Proof.
  intros Hk. apply firstHeaders_panics, Exists_exists. exists (k, []).
  split; [|done]. rewrite range_perm. by apply elem_of_map_to_list.
Qed.
End grpcurl_facts.

(** X29: the step [grpcurlToStep] builds.  For a parsed command with an
    address, a method and no sub-command, on a runbook whose runners map
    is allocated, the runner for [grpc://<address>] is looked up or
    stored first.  Then, if every header has a value, the call returns
    nil and appends the step [{key: {method: body}}], the body holding
    the first value of each header under [headers] when there is a
    header, and the message under [message] or the messages under
    [messages]; if some header has no value, the call panics. *)
Theorem grpcurlToStep_step `{!Fmt, !MapOrder, !Capture}
    (in_ : list string) (rb : runbook) (p : Parsed) (m : gmap string value) :
  grpcurlreq_Parse in_ = inr p →
  Addr p ≠ "" → Method p ≠ "" → SubCmd p = "" →
  Runners rb = Some m →
  ∃ key rb1,
    setRunner ("grpc://" +:+ Addr p) rb = Return (key, rb1)
    ∧ entries (Runners rb1) !! key = Some (VString ("grpc://" +:+ Addr p))
    ∧ ((∀ k v, Headers p !! k = Some v → v ≠ []) →
       grpcurlToStep in_ rb
       = Return (None,
           set_Steps
             (Steps rb ++
                [[(VString key,
                   VMapSlice [(VString (Method p), VMapSlice (grpc_body p))])]])
             rb1))
    ∧ ((∃ k, Headers p !! k = Some []) →
       grpcurlToStep in_ rb = Panic "index out of range").
Proof.
  intros Hp Haddr Hmeth Hsub Hm.
  destruct (setRunner_returns ("grpc://" +:+ Addr p) rb m Hm)
    as (key & rb1 & Hset & Hkey).
  exists key, rb1. split; [exact Hset|]. split; [exact Hkey|].
  destruct (setRunner_keeps_steps _ _ _ _ Hset) as (HS & _ & _).
  split.
  - intros Hne. unfold grpcurlToStep, appendStep. unfold_M.
    rewrite Hp. rewrite decide_False by (intros [?|[?|?]]; done).
    rewrite Hset, (firstHeaders_range _ Hne), HS.
    unfold grpc_body, grpc_headers.
    destruct (decide (Headers p = ∅)) as [Hemp|Hnemp].
    + rewrite decide_False
        by (rewrite Hemp, fmap_empty, map_size_empty; lia).
      by destruct (Messages p) as [|? [|? ?]].
    + rewrite decide_True.
      2:{ rewrite map_size_fmap.
          destruct (size (Headers p)) eqn:Hsz; [|lia].
          by apply map_size_empty_iff in Hsz. }
      by destruct (Messages p) as [|? [|? ?]].
  - intros [k Hk]. unfold grpcurlToStep, appendStep. unfold_M.
    rewrite Hp. rewrite decide_False by (intros [?|[?|?]]; done).
    by rewrite Hset, (firstHeaders_range_panics _ k Hk).
Qed.

Lemma grpcurlToStep_step_witness :
  ∃ key rb1,
    @setRunner forward_order "grpc://svc.example.com:443" (NewRunbook "")
    = Return (key, rb1)
    ∧ entries (Runners rb1) !! key = Some (VString "grpc://svc.example.com:443")
    ∧ @grpcurlToStep plain_fmt forward_order example_grpcurl_capture ["grpcurl"]
        (NewRunbook "")
      = Return (None,
          set_Steps
            [[(VString key,
               VMapSlice
                 [(VString "pkg.Svc/Call",
                   VMapSlice
                     [(VString "headers",
                       VTyped "map[string]string"
                         [VMap {[ "authorization" := VString "Bearer x" ]}]);
                      (VString "message", VString "{}")])])]]
            rb1).
Proof.
  destruct (@grpcurlToStep_step plain_fmt forward_order example_grpcurl_capture
              ["grpcurl"] (NewRunbook "")
              (mkParsed "svc.example.com:443" "pkg.Svc/Call" ""
                 {[ "authorization" := ["Bearer x"; "Bearer y"] ]} [VString "{}"])
              ∅ eq_refl) as (key & rb1 & Hset & Hkey & Hrun & _);
    [done..|].
  exists key, rb1. split; [exact Hset|]. split; [exact Hkey|].
  rewrite Hrun.
  - reflexivity.
  - intros k v Hk. simpl in Hk. by apply lookup_singleton_Some in Hk as [_ <-].
Defined.

(* ----------------------------------------------------------------- *)
(** ** Keys of captured steps *)

Lemma token_keys_NoDup in0 n : NoDup (token_keys in0 n).
Proof.
  unfold token_keys. apply NoDup_fmap_2; [|apply NoDup_seqZ].
  intros i j Hij. apply string_app_inj_l in Hij.
  by apply (inj (pretty : Z → string)) in Hij.
Qed.

Lemma token_keys_snoc in0 n :
  0 ≤ n → token_keys in0 (n + 1) = token_keys in0 n ++ [in0 +:+ Itoa n].
Proof.
  intros Hn. unfold token_keys. rewrite seqZ_app by lia.
  by rewrite fmap_app.
Qed.

Lemma token_keys_len in0 n : 0 ≤ n → len (token_keys in0 n) = n.
Proof.
  intros Hn. unfold len, token_keys. rewrite length_fmap, length_seqZ. lia.
Qed.

(** X30: the keys of a keyed runbook built from one kind of command.
    When the keys so far are those of [n] captures with the first token
    [in0], a further call with that first token appends the key of
    capture [n], whether it returns nil or an error, and the keys stay
    pairwise different. *)
Theorem AppendStep_same_token_keys `{!Fmt, !MapOrder, !Capture}
    (in0 : string) (rest : list string) (rb rb' : runbook)
    (err : option error) (n : Z) :
  useMap rb = true → 0 ≤ n → stepKeys rb = token_keys in0 n →
  AppendStep (in0 :: rest) rb = Return (err, rb') →
  stepKeys rb' = token_keys in0 (n + 1) ∧ NoDup (stepKeys rb').
Proof.
  intros HU Hn Hkeys. rewrite AppendStep_unfold.
  intros (HK & _ & _)%dispatch_builds. simpl in HK.
  assert (stepKeys rb' = token_keys in0 (n + 1)) as ->.
  { rewrite HK. unfold appended_keys. rewrite HU, Hkeys.
    by rewrite token_keys_len, token_keys_snoc. }
  split; [done|apply token_keys_NoDup].
Qed.

Lemma AppendStep_same_token_keys_witness :
  ∃ rb',
    @AppendStep plain_fmt forward_order rejecting_capture ["echo"; "hello world"]
      empty_keyed_runbook = Return (None, rb')
    ∧ stepKeys rb' = token_keys "echo" (0 + 1) ∧ NoDup (stepKeys rb').
Proof.
  eexists. split; [reflexivity|].
  apply (@AppendStep_same_token_keys plain_fmt forward_order rejecting_capture
           "echo" ["hello world"] empty_keyed_runbook _ None 0).
  - reflexivity.
  - lia.
  - reflexivity.
  - reflexivity.
Defined.

(** With different first tokens two keys can be the same: the first
    capture of [python3] and the thirty-first of [python]. *)
Example appended_keys_collide (rb rb' : runbook) :
  useMap rb = true → useMap rb' = true →
  len (stepKeys rb) = 0 → len (stepKeys rb') = 30 →
  appended_keys "python3" rb = appended_keys "python" rb'.
Proof.
  intros HU HU' Hlen Hlen'. unfold appended_keys.
  by rewrite HU, HU', Hlen, Hlen'.
Qed.
